(** * sent-staking-backend: stake validation, currency codec, registrations

    A shallow embedding of the parts of [sent.py] that decide the
    specification's properties: the fixed-point currency codec
    ([format_currency], [parse_currency]), the two stake checkers
    ([check_stakes] and the stake stage of [validate_registration]), the
    key and signature checks ([check_reg_keys_sigs]) and the registration
    table behind [store_registration], [load_registrations] and
    [operator_registrations].

    Python integers are [Z]; [//] and [%] are [Z.div] and [Z.modulo] (both
    round toward minus infinity, the remainder taking the divisor's sign)
    with the division by zero written out as an exception.  Python [str] is
    a list of characters, [bytes] a list of bytes.  Raised exceptions are
    the [Raise] branch of [outcome].  What the code takes from outside
    (the signature primitive, [eth_utils], the clock, the result of
    [parse_query_params]) is a parameter of the function that uses it. *)

From Stdlib Require Import ZArith List Ascii Bool Lia Arith.
From Stdlib Require String.
From Stdlib.Strings Require Byte.
Import String.StringSyntax.
Import ListNotations.

Local Open Scope Z_scope.

(** ** Python values and exceptions *)

Definition str := list ascii.
Definition bytes := list Byte.byte.

Delimit Scope string_scope with string.

Definition lit (s : String.string) : str := String.list_ascii_of_string s.
Arguments lit s%_string.

Inductive exn : Type :=
| ParseError (field reason : str)
| SNSignatureValidationError (msg : str)
| ValueError (msg : str)
| TypeError (msg : str)
| ZeroDivisionError
| NotFound.

Inductive outcome (A : Type) : Type :=
| Return (a : A)
| Raise (e : exn).
Arguments Return {A} a.
Arguments Raise {A} e.

Definition bind {A B} (m : outcome A) (k : A -> outcome B) : outcome B :=
  match m with
  | Return a => k a
  | Raise e => Raise e
  end.

Notation "x <- m ;; k" := (bind m (fun x => k))
  (at level 61, m at next level, right associativity).

(** [except ValueError]: [ParseError] and [SNSignatureValidationError] are
    declared as subclasses of [ValueError]. *)
Definition isinstance_ValueError (e : exn) : bool :=
  match e with
  | ParseError _ _ | SNSignatureValidationError _ | ValueError _ => true
  | TypeError _ | ZeroDivisionError | NotFound => false
  end.

(** [a // b] *)
Definition floordiv (a b : Z) : outcome Z :=
  if b =? 0 then Raise ZeroDivisionError else Return (a / b).

Definition len {A} (l : list A) : Z := Z.of_nat (length l).

Definition sum (l : list Z) : Z := fold_left Z.add l 0.

(** ** Decimal text *)

Module PyStr.

Definition zero : ascii := "0"%char.
Definition dot : ascii := "."%char.

Definition digit_char (n : Z) : ascii := ascii_of_nat (48 + Z.to_nat n).

Definition is_digit (c : ascii) : bool :=
  let n := nat_of_ascii c in (48 <=? n)%nat && (n <=? 57)%nat.

Definition digit_val (c : ascii) : Z := Z.of_nat (nat_of_ascii c - 48).

(** Decimal digits of a non-negative integer, most significant first. *)
Fixpoint digits_fuel (fuel : nat) (n : Z) (acc : str) : str :=
  match fuel with
  | O => acc
  | S f =>
      let acc' := digit_char (n mod 10) :: acc in
      if n <? 10 then acc' else digits_fuel f (n / 10) acc'
  end.

Definition str_of_nonneg (n : Z) : str :=
  digits_fuel (S (Z.to_nat (Z.log2 n))) n [].

(** [str(n)], also what [f"{n}"] prints *)
Definition str_of_int (n : Z) : str :=
  if n <? 0 then "-"%char :: str_of_nonneg (- n) else str_of_nonneg n.

Fixpoint digits_value (acc : Z) (s : str) : Z :=
  match s with
  | [] => acc
  | c :: s' => digits_value (10 * acc + digit_val c) s'
  end.

(** [re.fullmatch(r"\d+", s)] on ASCII text *)
Definition fullmatch_digits (s : str) : bool :=
  negb (Nat.eqb (length s) 0) && forallb is_digit s.

(** [int(s)] on the texts that reach it here: runs of digits, or the empty
    text, on which Python raises [ValueError]. *)
Definition int_of_str (s : str) : outcome Z :=
  if fullmatch_digits s then Return (digits_value 0 s)
  else Raise (ValueError (lit "invalid literal for int() with base 10")).

(** [f"{n:0{width}d}"] for [n >= 0] *)
Definition zero_pad (width : nat) (n : Z) : str :=
  let s := str_of_int n in
  repeat zero (width - length s) ++ s.

(** [s.rstrip(c)] for a one-character set *)
Fixpoint rstrip (c : ascii) (s : str) : str :=
  match s with
  | [] => []
  | x :: s' =>
      match rstrip c s' with
      | [] => if Ascii.eqb x c then [] else [x]
      | r => x :: r
      end
  end.

(** [s.ljust(width, c)] *)
Definition ljust (width : nat) (c : ascii) (s : str) : str :=
  s ++ repeat c (width - length s).

(** [s.split(sep)] for a one-character separator *)
Fixpoint split (sep : ascii) (s : str) : list str :=
  match s with
  | [] => [[]]
  | x :: s' =>
      if Ascii.eqb x sep then [] :: split sep s'
      else match split sep s' with
           | p :: ps => (x :: p) :: ps
           | [] => [[x]]
           end
  end.

End PyStr.

Import PyStr.

(** ** The currency codec ([format_currency], [parse_currency]) *)

Definition format_currency (units : Z) (decimal : nat) : str :=
  let base := 10 ^ Z.of_nat decimal in
  let frac := units mod base in
  let frac_s :=
    if frac =? 0 then [] else rstrip zero (dot :: zero_pad decimal frac) in
  str_of_int (units / base) ++ frac_s.

Definition parse_currency (k : str) (val : str) (decimal : nat) : outcome Z :=
  let pieces := split dot val in
  if (2 <? length pieces)%nat || negb (forallb fullmatch_digits pieces)
  then Raise (ParseError k (lit "Invalid currency amount"))
  else
    whole <- int_of_str (nth 0 pieces []) ;;
    frac <- match tl pieces with
            | frac :: _ =>
                let frac :=
                  if (decimal <? length frac)%nat then firstn decimal frac
                  else if (length frac <? decimal)%nat then ljust decimal zero frac
                  else frac in
                int_of_str frac
            | [] => Return 0
            end ;;
    Return (whole * 10 ^ Z.of_nat decimal + frac).

(** ** Bytes and hexadecimal text *)

Fixpoint bytes_eqb (a b : bytes) : bool :=
  match a, b with
  | [], [] => true
  | x :: a', y :: b' => Byte.eqb x y && bytes_eqb a' b'
  | _, _ => false
  end.

Definition hex_val (c : ascii) : option N :=
  let n := N_of_ascii c in
  if (48 <=? n)%N && (n <=? 57)%N then Some (n - 48)%N
  else if (97 <=? n)%N && (n <=? 102)%N then Some (n - 87)%N
  else if (65 <=? n)%N && (n <=? 70)%N then Some (n - 55)%N
  else None.

Definition is_hexdigit (c : ascii) : bool :=
  match hex_val c with Some _ => true | None => false end.

Definition is_space (c : ascii) : bool :=
  let n := N_of_ascii c in ((9 <=? n)%N && (n <=? 13)%N) || (n =? 32)%N.

(** [bytes.fromhex(s)]: pairs of hexadecimal digits, white space allowed
    between pairs; anything else raises [ValueError]. *)
Fixpoint fromhex (s : str) : outcome bytes :=
  match s with
  | [] => Return []
  | c :: s' =>
      if is_space c then fromhex s'
      else
        match s' with
        | d :: s'' =>
            match hex_val c, hex_val d with
            | Some h, Some l =>
                match Byte.of_N (16 * h + l) with
                | Some b => rest <- fromhex s'' ;; Return (b :: rest)
                | None => Raise (ValueError (lit "non-hexadecimal number found in fromhex() arg"))
                end
            | _, _ => Raise (ValueError (lit "non-hexadecimal number found in fromhex() arg"))
            end
        | [] => Raise (ValueError (lit "non-hexadecimal number found in fromhex() arg"))
        end
  end.

(** [re.fullmatch(eth_re, v)] with [eth_re = "0x[0-9a-fA-F]{40}"] *)
Definition eth_re_fullmatch (v : str) : bool :=
  match v with
  | c0 :: cx :: rest =>
      Ascii.eqb c0 "0"%char && Ascii.eqb cx "x"%char
      && Nat.eqb (length rest) 40 && forallb is_hexdigit rest
  | _ => false
  end.

(** ** The stake requirement *)

(** The values [sent.py] hard-codes (its comment calls them placeholders). *)
Module Sent.
Definition MAX_STAKE : Z := 120000000000.
Definition MIN_OP_STAKE : Z := MAX_STAKE / 4.
Definition MAX_STAKERS : Z := 10.
End Sent.

(** ** [check_stakes] *)

Definition str_eq_dec : forall a b : str, {a = b} + {a <> b} :=
  list_eq_dec ascii_dec.

(** [len(set(stakers))] *)
Definition len_set (stakers : list str) : Z := len (nodup str_eq_dec stakers).

(** The message of the last [raise] is a plain literal in the source, not an
    f-string: the braces are part of the text. *)
Definition too_low_msg : str :=
  lit "reserved stake [i] ({stakers[i]}) is too low ({stakes[i]} < {reqd})".

Fixpoint check_stakes_loop (i remaining_stake remaining_spots : Z)
    (stakes : list Z) : outcome unit :=
  match stakes with
  | [] => Return tt
  | stakes_i :: rest =>
      reqd <- floordiv remaining_stake (if i =? 0 then 4 else remaining_spots) ;;
      if stakes_i <? reqd then Raise (ValueError too_low_msg)
      else check_stakes_loop (i + 1) (remaining_stake - stakes_i)
             (remaining_spots - 1) rest
  end.

Definition check_stakes (stakes : list Z) (total : Z) (stakers : list str)
    (max_stakers : Z) : outcome unit :=
  if negb (len stakers =? len stakes) then
    Raise (ValueError (lit "s and S have different lengths"))
  else if len stakers <? 1 then
    Raise (ValueError (lit "at least one s/S value pair is required"))
  else if len stakers >? max_stakers then
    Raise (ValueError (lit "too many stakers (" ++ str_of_int (len stakers)
                       ++ lit " > " ++ str_of_int max_stakers ++ lit ")"))
  else if sum stakes >? total then
    Raise (ValueError (lit "total stake is too large (" ++ str_of_int (sum stakes)
                       ++ lit " > total)"))
  else if negb (len_set stakers =? len stakers) then
    Raise (ValueError (lit "duplicate staking addresses in staker list"))
  else
    check_stakes_loop 0 total max_stakers stakes.

(** ** The [registrations] table *)

Record row : Type := {
  row_pubkey_ed25519 : bytes;
  row_pubkey_bls : bytes;
  row_sig_ed25519 : bytes;
  row_sig_bls : bytes;
  row_operator : bytes;
  row_contract : option bytes;
  row_timestamp : Z
}.

Definition table := list row.

Definition is_null (c : option bytes) : bool :=
  match c with None => true | Some _ => false end.

(** Modelled from the spec: the declaration of the [registrations] table is
    not in [sent.py].  The spec identifies a stored registration by
    [(primary_pubkey, kind)] with at most one record of each kind per
    pubkey, and has a submission refresh the timestamp: the unique key is
    [(pubkey_ed25519, contract IS NULL)] and the [timestamp] column, which
    the [INSERT] does not name, takes the time of the insertion. *)
Definition unique_conflict (new old : row) : bool :=
  bytes_eqb (row_pubkey_ed25519 old) (row_pubkey_ed25519 new)
  && Bool.eqb (is_null (row_contract old)) (is_null (row_contract new)).

(** [INSERT OR REPLACE]: the rows that conflict on the unique key are
    deleted, then the new row is inserted. *)
Definition insert_or_replace (new : row) (db : table) : table :=
  filter (fun old => negb (unique_conflict new old)) db ++ [new].

(** [ORDER BY timestamp DESC] *)
Fixpoint insert_desc (r : row) (rows : list row) : list row :=
  match rows with
  | [] => [r]
  | r' :: rest =>
      if row_timestamp r' <? row_timestamp r then r :: rows
      else r' :: insert_desc r rest
  end.

Definition order_by_timestamp_desc (rows : list row) : list row :=
  fold_right insert_desc [] rows.

(** The dict that the two listing endpoints build for each row; [reg_type]
    is ["solo"] or ["contract"]. *)
Record registration : Type := {
  reg_type : str;
  reg_pubkey_ed25519 : bytes;
  reg_pubkey_bls : bytes;
  reg_sig_ed25519 : bytes;
  reg_sig_bls : bytes;
  reg_operator : bytes;
  reg_timestamp : Z;
  reg_contract : option bytes
}.

Definition registration_of_row (sn_pubkey op : bytes) (r : row) : registration :=
  {| reg_type := if is_null (row_contract r) then lit "solo" else lit "contract";
     reg_pubkey_ed25519 := sn_pubkey;
     reg_pubkey_bls := row_pubkey_bls r;
     reg_sig_ed25519 := row_sig_ed25519 r;
     reg_sig_bls := row_sig_bls r;
     reg_operator := op;
     reg_timestamp := row_timestamp r;
     reg_contract := row_contract r |}.

(** [load_registrations]: the rows of one pubkey, newest first; 404 when
    there is none. *)
Definition load_registrations (db : table) (sn_pubkey : bytes)
    : outcome (list registration) :=
  let cur := order_by_timestamp_desc
               (filter (fun r => bytes_eqb (row_pubkey_ed25519 r) sn_pubkey) db) in
  let regs := map (fun r => registration_of_row sn_pubkey (row_operator r) r) cur in
  if Nat.eqb (length regs) 0 then Raise NotFound else Return regs.

(** An entry of [app.nodes], as far as [operator_registrations] reads it. *)
Record node : Type := {
  node_pubkey_ed25519 : str;
  node_active : bool
}.

(** The inner loop of [operator_registrations] over [app.nodes].  Its
    [continue] stands in the inner [for]: it goes on with the next node. *)
Fixpoint scan_nodes (nodes : list node) (sn_pubkey : bytes) : outcome unit :=
  match nodes with
  | [] => Return tt
  | n :: rest =>
      pk <- fromhex (node_pubkey_ed25519 n) ;;
      if bytes_eqb pk sn_pubkey then
        if node_active n then scan_nodes rest sn_pubkey   (* continue *)
        else scan_nodes rest sn_pubkey
      else scan_nodes rest sn_pubkey
  end.

(** The outer loop over the cursor. *)
Fixpoint operator_rows (app_nodes : option (list node)) (op : bytes)
    (cur : list row) (reg_array : list registration)
    : outcome (list registration) :=
  match cur with
  | [] => Return reg_array
  | r :: rest =>
      let sn_pubkey := row_pubkey_ed25519 r in
      _ <- match app_nodes with
           | Some nodes => scan_nodes nodes sn_pubkey
           | None => Return tt
           end ;;
      operator_rows app_nodes op rest
        (reg_array ++ [registration_of_row sn_pubkey op r])
  end.

Definition operator_registrations (db : table) (app_nodes : option (list node))
    (op : str) : outcome (list registration) :=
  op <- fromhex (skipn 2 op) ;;
  let cur := order_by_timestamp_desc
               (filter (fun r => bytes_eqb (row_operator r) op) db) in
  operator_rows app_nodes op cur [].

(** ** Key and signature checks, and the [/validate] endpoint *)

(** The [params] dict after [parse_query_params]: the fields
    [check_reg_keys_sigs] reads. *)
Record reg_params : Type := {
  pubkey_ed25519 : bytes;
  pubkey_bls : bytes;
  sig_ed25519 : bytes;
  sig_bls : bytes;
  operator : bytes;
  contract : option bytes
}.

(** ... and the further fields of a [/validate] request.  A list parameter
    that is absent is the empty list ([params.setdefault]). *)
Record validate_params : Type := {
  keys : reg_params;
  stake : Z;
  res_addr : list str;
  res_stake : list str;
  fee : option str
}.

(** [error_response(code, **err)]: the code and the keyword fields passed at
    each call site of [validate_registration]. *)
Inductive error : Type :=
| bad_request (field detail : str)
| signature (detail : str)
| invalid_contract_addr (detail : str)
| invalid_fee (detail : str)
| invalid_res_addr (address : str) (index : Z)
| invalid_res_stake (address : str) (index : Z)
| wrong_op_stake (stake required : Z)
| insufficient_op_stake (stake minimum : Z)
| too_much (total maximum : Z)
| too_many (max_contributors : Z)
| insufficient_res_stake (index : Z) (address : str) (minimum : Z).

(** What [/validate] hands to [json_response]. *)
Inductive response : Type :=
| error_response (e : error)
| success (remaining : option (Z * Z * Z)).

(** What [/store] hands to [json_response]: an error text, or the stored
    [registration] with its [type] and checksummed addresses. *)
Inductive store_response : Type :=
| store_error (msg : str)
| stored (type : str) (operator_addr : str) (contract_addr : option str)
         (params : reg_params).

Definition set_pubkey_ed25519 (pk : bytes) (params : reg_params) : reg_params :=
  {| pubkey_ed25519 := pk;
     pubkey_bls := pubkey_bls params;
     sig_ed25519 := sig_ed25519 params;
     sig_bls := sig_bls params;
     operator := operator params;
     contract := contract params |}.

Section Validation.

(** The network constants, read by the code as module globals; [Sent]
    holds the values the source gives them. *)
Variable MAX_STAKE : Z.
Variable MAX_STAKERS : Z.
Definition MIN_OP_STAKE : Z := MAX_STAKE / 4.

(** The signature primitive: [crypto_core_ed25519_is_valid_point], and
    the check that [VerifyKey(pk).verify(message, sig)] makes of a
    signature of 64 bytes, raising [BadSignatureError] when it rejects it.
    A signature of any other size does not get that far: PyNaCl raises
    its own [ValueError] for it, which is a [ValueError] and no
    [BadSignatureError]. *)
Variable is_valid_point : bytes -> bool.
Variable verify : bytes -> bytes -> bytes -> bool.

(** [eth_utils]: [is_address] on text; [to_checksum_address] on the raw
    address bytes that [raw_eth_addr] returned, where it does not fail, and
    on request text, where [None] stands for the [ValueError] it raises. *)
Variable is_address : str -> bool.
Variable to_checksum_address : bytes -> str.
Variable to_checksum_address_text : str -> option str.

Definition check_reg_keys_sigs (params : reg_params) : outcome unit :=
  if negb (len (pubkey_ed25519 params) =? 32)
     || negb (is_valid_point (pubkey_ed25519 params)) then
    Raise (SNSignatureValidationError (lit "Ed25519 pubkey is invalid"))
  else if negb (len (pubkey_bls params) =? 64) then
    Raise (SNSignatureValidationError (lit "BLS pubkey is invalid"))
  else if negb (len (operator params) =? 20) then
    Raise (SNSignatureValidationError (lit "operator address is invalid"))
  else if match contract params with
          | Some c => negb (len c =? 20)
          | None => false
          end then
    Raise (SNSignatureValidationError (lit "contract address is invalid"))
  else
    let signed := pubkey_ed25519 params ++ pubkey_bls params in
    (* VerifyKey(...).verify(signed, sig) under [except BadSignatureError] *)
    if negb (len (sig_ed25519 params) =? 64) then
      Raise (ValueError (lit "The signature must be exactly 64 bytes long"))
    else if negb (verify (pubkey_ed25519 params) signed (sig_ed25519 params)) then
      Raise (SNSignatureValidationError (lit "Ed25519 signature is invalid"))
    else if false then
      Raise (SNSignatureValidationError (lit "BLS signature is invalid"))
    else Return tt.

Definition raw_eth_addr (k v : str) : outcome bytes :=
  if eth_re_fullmatch v then
    if negb (is_address v) then
      Raise (ParseError k (lit "ETH address checksum failed"))
    else fromhex (skipn 2 v)
  else Raise (ParseError k (lit "not an ETH address")).

(** [eth_format]: on failure the source builds [ParseError] with one
    argument where its constructor takes two, which is a [TypeError]. *)
Definition eth_format (addr : bytes) : str := to_checksum_address addr.

Definition eth_format_text (addr : str) : outcome str :=
  match to_checksum_address_text addr with
  | Some a => Return a
  | None => Raise (TypeError (lit "ParseError.__init__() missing 1 required positional argument: 'reason'"))
  end.

(** The fee stage.  [None] lets the request through. *)
Definition check_fee (solo : bool) (fee : option str) : option error :=
  if solo && (match fee with Some _ => true | None => false end) then
    Some (invalid_fee (lit "fee is not applicable to a solo node registration"))
  else
    match fee with
    | None =>
        Some (invalid_fee (lit "fee is required for a multi-contribution registration"))
    | Some fee =>
        let fee := if fullmatch_digits fee then digits_value 0 fee else -1 in
        if negb ((0 <=? fee) && (fee <=? 10000)) then
          Some (invalid_fee (lit "fee must be an integer between 0 and 10000 (= 100.00%)"))
        else None
    end.

(** The loop that parses the reserved contributors, [i] counting from 0. *)
Fixpoint parse_reserved (i : Z) (pairs : list (str * str))
    : outcome (error + list (bytes * Z)) :=
  match pairs with
  | [] => Return (inr [])
  | (addr, stake) :: rest =>
      match raw_eth_addr (lit "res_addr") addr with
      | Raise e =>
          if isinstance_ValueError e then
            a <- eth_format_text addr ;;
            Return (inl (invalid_res_addr a (i + 1)))
          else Raise e
      | Return eth =>
          match parse_currency (lit "res_stake") stake 9 with
          | Raise e =>
              if isinstance_ValueError e then
                a <- eth_format_text addr ;;
                Return (inl (invalid_res_stake a (i + 1)))
              else Raise e
          | Return amt =>
              r <- parse_reserved (i + 1) rest ;;
              match r with
              | inl e => Return (inl e)
              | inr reserved => Return (inr ((eth, amt) :: reserved))
              end
          end
      end
  end.

(** The loop over the reserved contributors: the error it returns with,
    or the remaining stake and spots it ends with. *)
Fixpoint reserved_loop (i remaining_stake remaining_spots : Z)
    (reserved : list (bytes * Z)) : outcome (error + Z * Z) :=
  match reserved with
  | [] => Return (inr (remaining_stake, remaining_spots))
  | (addr, amt) :: rest =>
      min_contr <- floordiv (remaining_stake + remaining_spots - 1)
                            remaining_spots ;;
      if amt <? min_contr then
        Return (inl (insufficient_res_stake (i + 1) (eth_format addr) min_contr))
      else
        reserved_loop (i + 1) (remaining_stake - amt) (remaining_spots - 1) rest
  end.

(** The stake stage: from [total_reserved = ...] to the end of
    [validate_registration]. *)
Definition validate_stakes (solo : bool) (stake : Z)
    (reserved : list (bytes * Z)) : outcome response :=
  let total_reserved := stake + sum (map snd reserved) in
  if solo then
    if negb (total_reserved =? MAX_STAKE) then
      Return (error_response (wrong_op_stake total_reserved MAX_STAKE))
    else Return (success None)
  else
    if stake <? MIN_OP_STAKE then
      Return (error_response (insufficient_op_stake stake MIN_OP_STAKE))
    else if total_reserved >? MAX_STAKE then
      Return (error_response (too_much total_reserved MAX_STAKE))
    else if 1 + len reserved >? MAX_STAKERS then
      Return (error_response (too_many (MAX_STAKERS - 1)))
    else
      r <- reserved_loop 0 (MAX_STAKE - stake) (MAX_STAKERS - 1) reserved ;;
      match r with
      | inl e => Return (error_response e)
      | inr (remaining_stake, remaining_spots) =>
          remaining_min_contribution <-
            floordiv (remaining_stake + remaining_spots - 1) remaining_spots ;;
          Return (success (Some (remaining_stake, remaining_spots,
                                 remaining_min_contribution)))
      end.

(** [validate_registration], from the parsed [params] on. *)
Definition validate_registration (params : validate_params) : outcome response :=
  match check_reg_keys_sigs (keys params) with
  | Raise (SNSignatureValidationError msg) =>
      Return (error_response (signature msg))
  | Raise e => Raise e
  | Return _ =>
      let solo := match contract (keys params) with
                  | Some _ => false
                  | None => true
                  end in
      if solo && negb (Nat.eqb (length (res_addr params)) 0) then
        Return (error_response (invalid_contract_addr
          (lit "the contract address is required for multi-contributor registrations")))
      else
        match check_fee solo (fee params) with
        | Some e => Return (error_response e)
        | None =>
            if negb (len (res_addr params) =? len (res_stake params)) then
              Return (error_response (bad_request (lit "res_addr")
                (lit "mismatched reserved address/stake lists")))
            else
              r <- parse_reserved 0 (combine (res_addr params) (res_stake params)) ;;
              match r with
              | inl e => Return (error_response e)
              | inr reserved => validate_stakes solo (stake params) reserved
              end
        end
  end.

(** [store_registration].  [parsed] is what [parse_query_params] gave;
    [now] is the clock the new row's timestamp is taken from.  The handler
    of the [try] re-raises: the [return] after it is not reached. *)
Definition store_registration (now : Z) (db : table) (sn_pubkey : bytes)
    (parsed : outcome reg_params) : table * outcome store_response :=
  let checked :=
    params <- parsed ;;
    let params := set_pubkey_ed25519 sn_pubkey params in
    _ <- check_reg_keys_sigs params ;;
    Return params in
  match checked with
  | Raise e =>
      if isinstance_ValueError e then (db, Raise e)   (* raise e *)
      else (db, Raise e)
  | Return params =>
      let db' := insert_or_replace
        {| row_pubkey_ed25519 := sn_pubkey;
           row_pubkey_bls := pubkey_bls params;
           row_sig_ed25519 := sig_ed25519 params;
           row_sig_bls := sig_bls params;
           row_operator := operator params;
           row_contract := contract params;
           row_timestamp := now |} db in
      (db', Return (stored
               (if is_null (contract params) then lit "solo" else lit "contract")
               (to_checksum_address (operator params))
               (option_map to_checksum_address (contract params))
               params))
  end.

(** A run of submissions to [/store], each with its own clock reading,
    pubkey and parsed parameters. *)
Fixpoint store_all (subs : list (Z * bytes * outcome reg_params)) (db : table)
    : table :=
  match subs with
  | [] => db
  | (now, sn_pubkey, parsed) :: rest =>
      store_all rest (fst (store_registration now db sn_pubkey parsed))
  end.

End Validation.

(** ** The proportional minimum rule, as the specification words it *)

Module Rule.

(** Stake still unfilled before the entry at index [i]. *)
Definition remaining_stake_at (total : Z) (amounts : list Z) (i : nat) : Z :=
  total - sum (firstn i amounts).

(** Spots still open before the entry at index [i], of [spots] at index 0. *)
Definition remaining_spots_at (spots : Z) (i : nat) : Z :=
  spots - Z.of_nat i.

(** The minimum of [check_stakes] at index [i]: a quarter of the total for
    the operator, an equal share of what is unfilled afterwards, both
    rounded down. *)
Definition required_min (total max_stakers : Z) (amounts : list Z) (i : nat) : Z :=
  remaining_stake_at total amounts i
  / (if Nat.eqb i 0 then 4 else remaining_spots_at max_stakers i).

(** The structural pre-checks of [check_stakes]. *)
Definition pre_checks (stakes : list Z) (total : Z) (stakers : list str)
    (max_stakers : Z) : Prop :=
  length stakers = length stakes
  /\ (1 <= length stakers)%nat
  /\ len stakers <= max_stakers
  /\ sum stakes <= total
  /\ NoDup stakers.

(** [m] is the quotient [a / b] rounded up. *)
Definition is_ceiling (a b m : Z) : Prop :=
  b * (m - 1) < a <= b * m.

(** The minimum of the [/validate] loop at offset [j] of the reserved
    list it is entered with, [rs] being the unfilled stake and [sp] the
    open spots on entry. *)
Definition loop_min (rs sp : Z) (reserved : list (bytes * Z)) (j : nat) : Z :=
  (remaining_stake_at rs (map snd reserved) j
   + remaining_spots_at sp j - 1) / remaining_spots_at sp j.

(** The three checks that precede the loop in a multi-contributor
    registration. *)
Definition multi_checks (max_stake max_stakers stake : Z)
    (reserved : list (bytes * Z)) : Prop :=
  max_stake / 4 <= stake
  /\ stake + sum (map snd reserved) <= max_stake
  /\ 1 + len reserved <= max_stakers.

End Rule.

(** ** The key and signature checks, as the specification lists them *)

Module KeyChecks.

Inductive key_check : Type :=
| PrimaryKey
| SecondaryKey
| OperatorAddress
| ContractAddress
| PrimarySignature.

(** The order in which the specification performs them. *)
Definition rank (c : key_check) : nat :=
  match c with
  | PrimaryKey => 0
  | SecondaryKey => 1
  | OperatorAddress => 2
  | ContractAddress => 3
  | PrimarySignature => 4
  end.

Definition check_error (c : key_check) : str :=
  match c with
  | PrimaryKey => lit "Ed25519 pubkey is invalid"
  | SecondaryKey => lit "BLS pubkey is invalid"
  | OperatorAddress => lit "operator address is invalid"
  | ContractAddress => lit "contract address is invalid"
  | PrimarySignature => lit "Ed25519 signature is invalid"
  end.

(** The message that is signed: the raw primary pubkey followed by the
    raw secondary pubkey, nothing in between. *)
Definition signed_message (params : reg_params) : bytes :=
  pubkey_ed25519 params ++ pubkey_bls params.

Definition passes (is_valid_point : bytes -> bool)
    (verify : bytes -> bytes -> bytes -> bool)
    (params : reg_params) (c : key_check) : bool :=
  match c with
  | PrimaryKey =>
      Nat.eqb (length (pubkey_ed25519 params)) 32
      && is_valid_point (pubkey_ed25519 params)
  | SecondaryKey => Nat.eqb (length (pubkey_bls params)) 64
  | OperatorAddress => Nat.eqb (length (operator params)) 20
  | ContractAddress =>
      match contract params with
      | Some c => Nat.eqb (length c) 20
      | None => true
      end
  | PrimarySignature =>
      Nat.eqb (length (sig_ed25519 params)) 64
      && verify (pubkey_ed25519 params) (signed_message params)
           (sig_ed25519 params)
  end.

End KeyChecks.

(** ** The dual-slot store, as the specification words it *)

Module Slots.

(** The rows of [db] in the slot of pubkey [pk] and kind [solo]
    ([true] for solo, [false] for contract). *)
Definition in_slot (pk : bytes) (solo : bool) (r : row) : bool :=
  bytes_eqb (row_pubkey_ed25519 r) pk && Bool.eqb (is_null (row_contract r)) solo.

Definition slot_rows (pk : bytes) (solo : bool) (db : table) : list row :=
  filter (in_slot pk solo) db.

Definition at_most_one_per_slot (db : table) : Prop :=
  forall pk solo, (length (slot_rows pk solo db) <= 1)%nat.

Definition is_solo (r : registration) : bool :=
  if str_eq_dec (reg_type r) (lit "solo") then true else false.

Definition is_contract (r : registration) : bool :=
  if str_eq_dec (reg_type r) (lit "contract") then true else false.

(** Newest timestamp first. *)
Fixpoint newest_first (regs : list registration) : Prop :=
  match regs with
  | [] => True
  | r :: rest =>
      (forall r', In r' rest -> reg_timestamp r' <= reg_timestamp r)
      /\ newest_first rest
  end.

End Slots.

(** ** Sample inputs *)

Module Sample.

Definition zeros (n : nat) : bytes := repeat Byte.x00 n.

(** Keys of the right sizes, with or without a contract address. *)
Definition sample_keys (contract : option bytes) : reg_params :=
  {| pubkey_ed25519 := zeros 32;
     pubkey_bls := zeros 64;
     sig_ed25519 := zeros 64;
     sig_bls := zeros 128;
     operator := zeros 20;
     contract := contract |}.

(** A solo request: no contract, no reserved contributors, no fee. *)
Definition solo_request (stake : Z) : validate_params :=
  {| keys := sample_keys None;
     stake := stake;
     res_addr := [];
     res_stake := [];
     fee := None |}.

(** A signature primitive that accepts everything, and address helpers
    that print nothing: enough to run the endpoints. *)
Definition any_point (_ : bytes) : bool := true.
Definition any_signature (_ _ _ : bytes) : bool := true.
Definition no_signature (_ _ _ : bytes) : bool := false.
Definition any_address (_ : str) : bool := true.
Definition plain_checksum (_ : bytes) : str := lit "0x".
Definition plain_checksum_text (_ : str) : option str := Some (lit "0x").

(** An operator at the minimum and nine reserved contributors at an
    equal share each: all ten spots of [sent.py]'s requirement. *)
Definition full_plan : list (bytes * Z) :=
  repeat (zeros 20, 10000000000) 9.

(** One stored registration, the node that runs under its pubkey and is
    active, and the wallet of its operator. *)
Definition stored_row : row :=
  {| row_pubkey_ed25519 := zeros 32;
     row_pubkey_bls := zeros 64;
     row_sig_ed25519 := zeros 64;
     row_sig_bls := zeros 128;
     row_operator := zeros 20;
     row_contract := None;
     row_timestamp := 1700000000 |}.

Definition active_node : node :=
  {| node_pubkey_ed25519 := repeat "0"%char 64;
     node_active := true |}.

Definition operator_wallet : str := lit "0x" ++ repeat "0"%char 40.

(** A multi-contributor request as [parse_query_params] hands it over: a
    contract address, a fee, the operator at the minimum and [n] reserved
    contributors, one wallet and one amount in text for each. *)
Definition reserved_wallet : str := lit "0x" ++ repeat "1"%char 40.

Definition multi_request (res_stake : list str) : validate_params :=
  {| keys := sample_keys (Some (zeros 20));
     stake := 30000000000;
     res_addr := repeat reserved_wallet (length res_stake);
     res_stake := res_stake;
     fee := Some (lit "0") |}.

End Sample.

(** ** Further functions of [sent.py] *)

(** [b.hex()]: two lower-case hexadecimal digits for each byte. *)
Definition hex_digit (n : N) : ascii :=
  if (n <? 10)%N then ascii_of_N (48 + n) else ascii_of_N (87 + n).

Fixpoint hex (b : bytes) : str :=
  match b with
  | [] => []
  | x :: rest =>
      hex_digit (Byte.to_N x / 16) :: hex_digit (Byte.to_N x mod 16) :: hex rest
  end.

(** [Hex64Converter]: the URL converter of the routes that take a service
    node pubkey.  Its [regex] decides which path texts reach [to_python]. *)
Module Hex64Converter.

Definition regex_fullmatch (value : str) : bool :=
  Nat.eqb (length value) 64 && forallb is_hexdigit value.

Definition to_python (value : str) : outcome bytes := fromhex value.

Definition to_url (value : bytes) : str := hex value.

End Hex64Converter.

(** ** The interpreter's limit on decimal conversions *)

(** Since CPython 3.10.7 [int(s)] refuses decimal text of more digits than
    [sys.get_int_max_str_digits()] allows: 4300 unless configured, 0 for
    no limit; text of 640 digits or less is never refused. *)
Definition exceeds_limit (max_str_digits digits : nat) : bool :=
  (640 <? digits)%nat && (0 <? max_str_digits)%nat
  && (max_str_digits <? digits)%nat.

(** [int(s)] under the limit [max_str_digits], on the texts that reach it
    here: runs of digits, or the empty text.  [PyStr.int_of_str] is the
    conversion without the limit. *)
Definition int_limited (max_str_digits : nat) (s : str) : outcome Z :=
  if fullmatch_digits s && exceeds_limit max_str_digits (length s) then
    Raise (ValueError
             (lit "Exceeds the limit (" ++ str_of_int (Z.of_nat max_str_digits)
              ++ lit " digits) for integer string conversion: value has "
              ++ str_of_int (Z.of_nat (length s))
              ++ lit " digits; use sys.set_int_max_str_digits() to increase the limit"))
  else int_of_str s.

(** [parse_currency] under the limit: its two calls of [int] stand in no
    [try], so the [ValueError] of the limit leaves it as it is.  Without a
    limit ([max_str_digits = 0]) this is [parse_currency]. *)
Definition parse_currency_limited (max_str_digits : nat) (k : str) (val : str)
    (decimal : nat) : outcome Z :=
  let pieces := split dot val in
  if (2 <? length pieces)%nat || negb (forallb fullmatch_digits pieces)
  then Raise (ParseError k (lit "Invalid currency amount"))
  else
    whole <- int_limited max_str_digits (nth 0 pieces []) ;;
    frac <- match tl pieces with
            | frac :: _ =>
                let frac :=
                  if (decimal <? length frac)%nat then firstn decimal frac
                  else if (length frac <? decimal)%nat then ljust decimal zero frac
                  else frac in
                int_limited max_str_digits frac
            | [] => Return 0
            end ;;
    Return (whole * 10 ^ Z.of_nat decimal + frac).

(** [parse_int_field(k, v, irange)], under the limit [max_str_digits] of
    the interpreter. *)
Definition parse_int_field (max_str_digits : nat) (k v : str) (irange : Z * Z)
    : outcome Z :=
  if Nat.eqb (length v) 0
     || negb (forallb is_digit v)
     || ((1 <? length v)%nat && Ascii.eqb (hd zero v) zero)
  then Raise (ParseError k (lit "an integer value is required"))
  else
    v <- int_limited max_str_digits v ;;
    let (imin, imax) := irange in
    if (imin <=? v) && (v <=? imax) then Return v
    else Raise (ParseError k (lit "expected an integer between " ++ str_of_int imin
                              ++ lit " and " ++ str_of_int imax)).

(** A row as [check_reg_keys_sigs] lets it into the table. *)
Definition row_checked (is_valid_point : bytes -> bool)
    (verify : bytes -> bytes -> bytes -> bool) (r : row) : Prop :=
  length (row_pubkey_ed25519 r) = 32%nat
  /\ is_valid_point (row_pubkey_ed25519 r) = true
  /\ length (row_pubkey_bls r) = 64%nat
  /\ length (row_operator r) = 20%nat
  /\ (forall c, row_contract r = Some c -> length c = 20%nat)
  /\ verify (row_pubkey_ed25519 r) (row_pubkey_ed25519 r ++ row_pubkey_bls r)
       (row_sig_ed25519 r) = true.

(** Further sample inputs. *)
Module Inputs.


(** Keys of the right sizes with a signature of 66 bytes, as 88 base64
    characters without padding decode to. *)
Definition long_signature_keys : reg_params :=
  {| pubkey_ed25519 := Sample.zeros 32;
     pubkey_bls := Sample.zeros 64;
     sig_ed25519 := Sample.zeros 66;
     sig_bls := Sample.zeros 128;
     operator := Sample.zeros 20;
     contract := None |}.


End Inputs.

(** ** [get_sns] *)

(** An entry of [contributors] in a service node state: the key
    [locked_contributions] may be missing. *)
Record contributor_state : Type := {
  locked_contributions : option (list Z)
}.

(** A service node state as the RPC gives it, with the keys [get_sns]
    reads. *)
Record sn_state : Type := {
  sn_staking_requirement : Z;
  sn_total_reserved : Z;
  sn_total_contributed : Z;
  sn_contributors : list contributor_state;
  sn_active : bool;
  sn_funded : bool;
  sn_earned_downtime_blocks : Z;
  sn_state_height : Z
}.

(** The same state with the keys [get_sns] adds; the two [decomm] keys
    are set in one branch only. *)
Record sn_entry : Type := {
  sn_given : sn_state;
  contribution_open : Z;
  contribution_required : Z;
  num_contributions : Z;
  decomm_blocks_remaining : option Z;
  decomm_blocks : option Z
}.

(** [sum(len(x["locked_contributions"]) for x in contributors
        if "locked_contributions" in x)] *)
Definition count_locked (contributors : list contributor_state) : Z :=
  sum (map (fun x => match locked_contributions x with
                     | Some l => len l
                     | None => 0
                     end)
         (filter (fun x => match locked_contributions x with
                           | Some _ => true
                           | None => false
                           end) contributors)).

(** The state with the keys that every branch adds, and the two of the
    funded-but-inactive branch as given. *)
Definition sn_entry_of (sn : sn_state) (decomm_remaining decomm : option Z)
    : sn_entry :=
  {| sn_given := sn;
     contribution_open := sn_staking_requirement sn - sn_total_reserved sn;
     contribution_required := sn_staking_requirement sn - sn_total_contributed sn;
     num_contributions := count_locked (sn_contributors sn);
     decomm_blocks_remaining := decomm_remaining;
     decomm_blocks := decomm |}.

Fixpoint get_sns_loop (height : Z) (sn_states : list sn_state)
    (awaiting_sns active_sns inactive_sns : list sn_entry)
    : list sn_entry * list sn_entry * list sn_entry :=
  match sn_states with
  | [] => (awaiting_sns, active_sns, inactive_sns)
  | sn :: rest =>
      if sn_active sn then
        get_sns_loop height rest awaiting_sns
          (active_sns ++ [sn_entry_of sn None None]) inactive_sns
      else if sn_funded sn then
        get_sns_loop height rest awaiting_sns active_sns
          (inactive_sns
           ++ [sn_entry_of sn
                 (Some (Z.max (sn_earned_downtime_blocks sn) 0))
                 (Some (height - sn_state_height sn))])
      else
        get_sns_loop height rest (awaiting_sns ++ [sn_entry_of sn None None])
          active_sns inactive_sns
  end.

(** [get_sns]: [service_node_states] is what the reply holds under that
    key, if it holds the key; [height] is [info["height"]]. *)
Definition get_sns (service_node_states : option (list sn_state)) (height : Z)
    : list sn_entry * list sn_entry * list sn_entry :=
  let sn_states := match service_node_states with
                   | Some l => l
                   | None => []
                   end in
  get_sns_loop height sn_states [] [] [].

(** ** The reverse indices ([update_service_nodes],
    [update_contract_statuses]) *)

(** A Python dict with text keys, in insertion order. *)
Module PyDict.

Definition dict (V : Type) : Type := list (str * V).

Definition str_eqb (a b : str) : bool :=
  if str_eq_dec a b then true else false.

(** [d.get(k)] *)
Fixpoint get {V} (k : str) (d : dict V) : option V :=
  match d with
  | [] => None
  | (k', v) :: rest => if str_eqb k' k then Some v else get k rest
  end.

(** [k in d] *)
Definition mem {V} (k : str) (d : dict V) : bool :=
  match get k d with Some _ => true | None => false end.

(** [d[k] = v] *)
Fixpoint set {V} (k : str) (v : V) (d : dict V) : dict V :=
  match d with
  | [] => [(k, v)]
  | (k', v') :: rest =>
      if str_eqb k' k then (k', v) :: rest else (k', v') :: set k v rest
  end.

(** The list under [k], empty when [k] is no key. *)
Definition list_at {A} (k : str) (d : dict (list A)) : list A :=
  match get k d with Some l => l | None => [] end.

End PyDict.

(** More of Python's errors, for the functions that can meet them. *)
Inductive fault : Type :=
| Exception (e : exn)
| KeyError (key : str)
| IndexError
| AttributeError
| AssertionError.

Inductive result (A : Type) : Type :=
| Ok (a : A)
| Fault (f : fault).
Arguments Ok {A} a.
Arguments Fault {A} f.

(** A node of the snapshot, as far as [update_service_nodes] and
    [get_nodes_for_wallet] read it: the [address] and [amount] of each
    entry of [contributors], and the two flags.  The keys that are only
    copied into a reply go with the node. *)
Record service_node : Type := {
  contributors : list (str * Z);
  active : bool;
  funded : bool
}.

(** A contribution contract, as [update_contract_statuses] fetches it:
    its address, status and the dict of individual contributions. *)
Record contract_status : Type := {
  contract_address : str;
  finalized : bool;
  cancelled : bool;
  contributions : list (str * Z)
}.

Section Indices.

Variable to_checksum_address_text : str -> option str.

Local Abbreviation eth_format_text := (eth_format_text to_checksum_address_text).

(** [{c["address"]: c["amount"] for c in node["contributors"]}.keys()] *)
Definition contributor_keys (node : service_node) : list str :=
  map fst (fold_left (fun d c => PyDict.set (fst c) (snd c) d)
                     (contributors node) []).

(** The key a contributor of a node is filed under. *)
Definition wallet_key_of (address : str) : outcome str :=
  if Nat.eqb (length address) 40 then eth_format_text address
  else Return address.

Fixpoint index_node (index : Z) (addresses : list str)
    (node_contributors : PyDict.dict (list Z)) : outcome (PyDict.dict (list Z)) :=
  match addresses with
  | [] => Return node_contributors
  | address :: rest =>
      wallet_key <- wallet_key_of address ;;
      let d := if negb (PyDict.mem wallet_key node_contributors)
               then PyDict.set wallet_key [] node_contributors
               else node_contributors in
      index_node index rest
        (PyDict.set wallet_key (PyDict.list_at wallet_key d ++ [index]) d)
  end.

Fixpoint index_nodes (index : Z) (nodes : list service_node)
    (node_contributors : PyDict.dict (list Z)) : outcome (PyDict.dict (list Z)) :=
  match nodes with
  | [] => Return node_contributors
  | node :: rest =>
      d <- index_node index (contributor_keys node) node_contributors ;;
      index_nodes (index + 1) rest d
  end.

(** [update_service_nodes]: [app.node_contributors] as built from the
    snapshot [nodes] that was just fetched. *)
Definition update_service_nodes (nodes : list service_node)
    : outcome (PyDict.dict (list Z)) :=
  index_nodes 0 nodes [].

(** The same loops as they change [app]: [app.node_contributors] is
    assigned an empty dict and filled in place, so when [eth_format] raises
    the dict keeps what was filed up to there.  The result is the dict as
    the loop leaves it and the exception, if one was raised. *)
Fixpoint fill_node (index : Z) (addresses : list str)
    (node_contributors : PyDict.dict (list Z))
    : PyDict.dict (list Z) * option exn :=
  match addresses with
  | [] => (node_contributors, None)
  | address :: rest =>
      match wallet_key_of address with
      | Raise e => (node_contributors, Some e)
      | Return wallet_key =>
          let d := if negb (PyDict.mem wallet_key node_contributors)
                   then PyDict.set wallet_key [] node_contributors
                   else node_contributors in
          fill_node index rest
            (PyDict.set wallet_key (PyDict.list_at wallet_key d ++ [index]) d)
      end
  end.

Fixpoint fill_nodes (index : Z) (nodes : list service_node)
    (node_contributors : PyDict.dict (list Z))
    : PyDict.dict (list Z) * option exn :=
  match nodes with
  | [] => (node_contributors, None)
  | node :: rest =>
      match fill_node index (contributor_keys node) node_contributors with
      | (d, Some e) => (d, Some e)
      | (d, None) => fill_nodes (index + 1) rest d
      end
  end.

(** [app.node_contributors] after [update_service_nodes] ran on the
    snapshot [nodes], to its end or to a raise. *)
Definition update_service_nodes_in_place (nodes : list service_node)
    : PyDict.dict (list Z) * option exn :=
  fill_nodes 0 nodes [].

(** The inner loop of [update_contract_statuses] over the contributors of
    one contract.  The test for a new wallet looks [address] up, the
    entry is made under [wallet_key]. *)
Fixpoint index_contract (contract : str) (addresses : list str)
    (app_contributors : PyDict.dict (list str))
    : result (PyDict.dict (list str)) :=
  match addresses with
  | [] => Ok app_contributors
  | address :: rest =>
      match eth_format_text address with
      | Raise e => Fault (Exception e)
      | Return wallet_key =>
          let d := if negb (PyDict.mem address app_contributors)
                   then PyDict.set wallet_key [] app_contributors
                   else app_contributors in
          match PyDict.get wallet_key d with
          | None => Fault (KeyError wallet_key)
          | Some l =>
              index_contract contract rest
                (if negb (existsb (PyDict.str_eqb contract) l)
                 then PyDict.set wallet_key (l ++ [contract]) d
                 else d)
          end
      end
  end.

Fixpoint index_contracts (contracts : list contract_status)
    (app_contracts : PyDict.dict contract_status)
    (app_contributors : PyDict.dict (list str))
    : result (PyDict.dict contract_status * PyDict.dict (list str)) :=
  match contracts with
  | [] => Ok (app_contracts, app_contributors)
  | c :: rest =>
      let app_contracts := PyDict.set (contract_address c) c app_contracts in
      match index_contract (contract_address c) (map fst (contributions c))
              app_contributors with
      | Fault f => Fault f
      | Ok d => index_contracts rest app_contracts d
      end
  end.

(** [update_contract_statuses]: [app.contracts] and [app.contributors] as
    rebuilt from the statuses fetched for the known contract addresses. *)
Definition update_contract_statuses (contracts : list contract_status)
    : result (PyDict.dict contract_status * PyDict.dict (list str)) :=
  index_contracts contracts [] [].

End Indices.

(** ** [get_nodes_for_wallet] *)

(** [l[i]]: a negative index counts from the end. *)
Definition list_getitem {A} (l : list A) (i : Z) : option A :=
  if 0 <=? i then nth_error l (Z.to_nat i)
  else if 0 <=? len l + i then nth_error l (Z.to_nat (len l + i))
  else None.

Inductive node_state : Type :=
| Running
| Decommissioned
| Cancelled
| Awaiting_Contributors.

(** An entry of ["nodes"] made from a service node: the balance and the
    state computed, the other keys copied from the node. *)
Record wallet_node : Type := {
  balance : Z;
  state : node_state;
  of_node : service_node
}.

(** The dict that goes to [json_response]. *)
Record wallet_reply : Type := {
  reply_service_nodes : list service_node;
  reply_contracts : list (str * contract_status);
  reply_nodes : list wallet_node
}.

(** The attributes of [app] the two updaters set; [None] stands for an
    attribute not set yet ([hasattr] is false). *)
Record app_state : Type := {
  app_nodes : list service_node;
  app_node_contributors : option (PyDict.dict (list Z));
  app_contracts : PyDict.dict contract_status;
  app_contributors : option (PyDict.dict (list str))
}.

(** [{c["address"]: c["amount"] for c in node["contributors"]}.get(wallet, 0)] *)
Definition node_balance (node : service_node) (wallet : str) : Z :=
  match PyDict.get wallet
          (fold_left (fun d c => PyDict.set (fst c) (snd c) d)
                     (contributors node) []) with
  | Some amount => amount
  | None => 0
  end.

(** The loop over [app.node_contributors[wallet]]. *)
Fixpoint wallet_service_nodes (nodes : list service_node) (wallet : str)
    (indices : list Z) (sns : list service_node) (entries : list wallet_node)
    : result (list service_node * list wallet_node) :=
  match indices with
  | [] => Ok (sns, entries)
  | index :: rest =>
      match list_getitem nodes index with
      | None => Fault IndexError
      | Some node =>
          wallet_service_nodes nodes wallet rest (sns ++ [node])
            (entries
             ++ [{| balance := node_balance node wallet;
                    state := if negb (active node) && funded node
                             then Decommissioned else Running;
                    of_node := node |}])
      end
  end.

(** The loop over [app.contributors[wallet]].  For a contract that is not
    finalized the entry of ["nodes"] is built from
    [details["contributions"].get(wallet, 0)] first, and
    [details["contributions"]] is the list that [update_contract_statuses]
    stored: a list has no [get]. *)
Fixpoint wallet_contracts (contracts : PyDict.dict contract_status)
    (addresses : list str) (listed : list (str * contract_status))
    (entries : list wallet_node)
    : result (list (str * contract_status) * list wallet_node) :=
  match addresses with
  | [] => Ok (listed, entries)
  | address :: rest =>
      match PyDict.get address contracts with
      | None => Fault (KeyError address)
      | Some details =>
          let listed := listed ++ [(address, details)] in
          if finalized details then wallet_contracts contracts rest listed entries
          else Fault AttributeError
      end
  end.

Section WalletNodes.

Variable to_checksum_address_text : str -> option str.

Definition get_nodes_for_wallet (app : app_state) (oxen_wal eth_wal : option str)
    : result wallet_reply :=
  match oxen_wal, eth_wal with
  | None, None => Fault AssertionError
  | _, _ =>
      match (match eth_wal with
             | Some w =>
                 match eth_format_text to_checksum_address_text w with
                 | Return k => Ok k
                 | Raise e => Fault (Exception e)
                 end
             | None => match oxen_wal with
                       | Some w => Ok w
                       | None => Fault AssertionError
                       end
             end) with
      | Fault f => Fault f
      | Ok wallet =>
          match (match app_node_contributors app with
                 | Some node_contributors =>
                     if PyDict.mem wallet node_contributors
                     then wallet_service_nodes (app_nodes app) wallet
                            (PyDict.list_at wallet node_contributors) [] []
                     else Ok ([], [])
                 | None => Ok ([], [])
                 end) with
          | Fault f => Fault f
          | Ok (sns, entries) =>
              match (match app_contributors app with
                     | Some contributors_index =>
                         if PyDict.mem wallet contributors_index
                         then wallet_contracts (app_contracts app)
                                (PyDict.list_at wallet contributors_index) []
                                entries
                         else Ok ([], entries)
                     | None => Ok ([], entries)
                     end) with
              | Fault f => Fault f
              | Ok (listed, entries) =>
                  Ok {| reply_service_nodes := sns;
                        reply_contracts := listed;
                        reply_nodes := entries |}
              end
          end
      end
  end.

End WalletNodes.

(** Inputs of the worked examples on the two indices. *)
Module IndexSample.

Definition starts_0x (a : str) : bool :=
  match a with
  | c1 :: c2 :: _ => Ascii.eqb c1 "0"%char && Ascii.eqb c2 "x"%char
  | _ => false
  end.

(** A stand-in for the external checksum formatter: text that lacks the
    [0x] in front is given it, text that has it is kept. *)
Definition prefix_checksum (a : str) : option str :=
  if starts_0x a then Some a else Some (lit "0x" ++ a).

Definition bare_wallet : str := repeat "a"%char 40.
Definition wallet_a : str := lit "0x" ++ bare_wallet.
Definition wallet_b : str := lit "0x" ++ repeat "b"%char 40.

(** Two nodes; the first wallet contributes to both, once under its bare
    address. *)
Definition nodes : list service_node :=
  [ {| contributors := [(bare_wallet, 5)]; active := true; funded := true |};
    {| contributors := [(wallet_b, 7); (wallet_a, 1)];
       active := false; funded := true |} ].

Definition node_index : PyDict.dict (list Z) :=
  [(wallet_a, [0; 1]); (wallet_b, [1])].

(** A formatter that fails on one 40-character address, and a snapshot
    whose second node holds that address between two others. *)
Definition bare_failing : str := repeat "f"%char 40.

Definition picky_checksum (a : str) : option str :=
  if PyDict.str_eqb a bare_failing then None else prefix_checksum a.

Definition nodes_with_failing : list service_node :=
  [ {| contributors := [(bare_wallet, 5)]; active := true; funded := true |};
    {| contributors := [(wallet_b, 7); (bare_failing, 2); (wallet_a, 1)];
       active := true; funded := true |};
    {| contributors := [(wallet_b, 3)]; active := true; funded := true |} ].

Definition contract_1 : str := lit "0x" ++ repeat "1"%char 40.
Definition contract_2 : str := lit "0x" ++ repeat "2"%char 40.

(** Two contracts that have a contributor in common, under its checksum
    form. *)
Definition status_1 : contract_status :=
  {| contract_address := contract_1; finalized := false; cancelled := false;
     contributions := [(wallet_a, 10); (wallet_b, 20)] |}.

Definition status_2 : contract_status :=
  {| contract_address := contract_2; finalized := true; cancelled := false;
     contributions := [(wallet_a, 30)] |}.

Definition contracts : list contract_status := [status_1; status_2].

Definition contract_details : PyDict.dict contract_status :=
  [(contract_1, status_1); (contract_2, status_2)].

Definition contract_index : PyDict.dict (list str) :=
  [(wallet_a, [contract_1; contract_2]); (wallet_b, [contract_1])].

(** The same contributor in both, under its bare address. *)
Definition bare_contract (address : str) : contract_status :=
  {| contract_address := address; finalized := false; cancelled := false;
     contributions := [(bare_wallet, 10)] |}.

End IndexSample.

(** ** [decode_bytes] *)

(** [c in x] for one character. *)
Definition char_in (c : ascii) (x : str) : bool := existsb (Ascii.eqb c) x.

(** [x.replace(a, b)] for single characters. *)
Definition replace_char (a b : ascii) (x : str) : str :=
  map (fun c => if Ascii.eqb c a then b else c) x.

Section DecodeBytes.

(** [oxenc.is_base64] and [oxenc.from_base64]. *)
Variable is_base64 : str -> bool.
Variable from_base64 : str -> bytes.

Definition decode_bytes (k x : str) (length : Z) : result bytes :=
  if negb (5 <=? length) then Fault AssertionError
  else
    let hex_len := length * 2 in
    let b64_unpadded := (length * 4 + 2) / 3 in
    let b64_padded := (length + 2) / 3 * 4 in
    let expected :=
      Fault (Exception
               (ParseError k (lit "expected " ++ PyStr.str_of_int hex_len
                              ++ lit " hex or " ++ PyStr.str_of_int b64_unpadded
                              ++ lit " base64 characters"))) in
    if (len x =? hex_len) && forallb is_hexdigit x then
      match fromhex x with
      | Return b => Ok b
      | Raise e => Fault (Exception e)
      end
    else if (len x =? b64_unpadded) || (len x =? b64_padded) then
      if is_base64 x then Ok (from_base64 x)
      else
        let x := if char_in "-" x || char_in "_" x
                 then replace_char "+" "-" (replace_char "/" "_" x)
                 else x in
        if is_base64 x then Ok (from_base64 x) else expected
    else expected.

(** [byte_decoder(length)], the callable that [parse_query_params] is
    given. *)
Definition byte_decoder (length : Z) (k x : str) : result bytes :=
  decode_bytes k x length.

End DecodeBytes.

(** Inputs of the worked examples on [decode_bytes]. *)
Module DecodeSample.

(** A stand-in for [oxenc.is_base64] that knows the standard alphabet
    only. *)
Definition standard_char (c : ascii) : bool :=
  let n := N_of_ascii c in
  ((48 <=? n)%N && (n <=? 57)%N) || ((65 <=? n)%N && (n <=? 90)%N)
  || ((97 <=? n)%N && (n <=? 122)%N) || (n =? 43)%N || (n =? 47)%N
  || (n =? 61)%N.

Definition standard_base64 (x : str) : bool := forallb standard_char x.

Definition no_bytes (_ : str) : bytes := [].

(** Seven characters, as the unpadded base64 of five bytes has, in the
    URL-safe alphabet. *)
Definition url_safe_text : str := lit "-_-_AAA".

Definition five_bytes : bytes :=
  [Byte.x00; Byte.x01; Byte.xab; Byte.xff; Byte.x7f].

End DecodeSample.

(** ** [parse_query_params] *)

Definition startswith (p s : str) : bool :=
  if str_eq_dec (firstn (length p) s) p then true else false.

Definition endswith (p s : str) : bool :=
  if str_eq_dec (skipn (length s - length p) s) p then true else false.

Definition removeprefix (p s : str) : str :=
  if startswith p s then skipn (length p) s else s.

Definition removesuffix (p s : str) : str :=
  if endswith p s then firstn (length s - length p) s else s.

(** The ways out of [parse_query_params]: the dict, one of its own three
    errors (subclasses of [ParseError]) with the field, or whatever else
    is raised: by a callable, or by [append] on a value that is no list. *)
Inductive parse_outcome (A : Type) : Type :=
| Parsed (a : A)
| ParseMissingError (field : str)
| ParseUnknownError (field : str)
| ParseMultipleError (field : str)
| Raised (f : fault).
Arguments Parsed {A} a.
Arguments ParseMissingError {A} field.
Arguments ParseUnknownError {A} field.
Arguments ParseMultipleError {A} field.
Arguments Raised {A} f.

(** [flask.request.values.getlist(k)] on the pairs that
    [items(multi=True)] yields. *)
Definition getlist (k : str) (values : list (str * str)) : list str :=
  map snd (filter (fun kv => PyDict.str_eqb (fst kv) k) values).

Section ParseQueryParams.

(** What the callables return, and a value that is kept as its text (no
    callable given). *)
Variable V : Type.
Variable text : str -> V.

Definition callable : Type := str -> str -> result V.

(** The triple [param_map] holds for a field. *)
Record param_spec : Type := {
  optional : bool;
  multi : bool;
  callback : option callable
}.

(** A value of [parsed]: what the callable returned, or a list of such. *)
Inductive entry : Type :=
| One (v : V)
| Many (vs : list V).

Definition param_map (params : list (str * option callable))
    : PyDict.dict param_spec :=
  fold_left
    (fun m kc =>
       PyDict.set (removesuffix (lit "[]") (removeprefix (lit "-") (fst kc)))
         {| optional := startswith (lit "-") (fst kc);
            multi := endswith (lit "[]") (fst kc);
            callback := snd kc |} m)
    params [].

(** [callback(k, v) if callback else v] *)
Definition apply_callback (cb : option callable) (k v : str) : result V :=
  match cb with
  | Some f => f k v
  | None => Ok (text v)
  end.

Fixpoint parse_values (pm : PyDict.dict param_spec) (values : list (str * str))
    (parsed : PyDict.dict entry) : parse_outcome (PyDict.dict entry) :=
  match values with
  | [] => Parsed parsed
  | (k, v) :: rest =>
      match PyDict.get k pm with
      | None => ParseUnknownError k
      | Some found =>
          if multi found then
            match (match PyDict.get k parsed with
                   | Some e => e
                   | None => Many []
                   end) with
            | One _ => Raised AttributeError
            | Many l =>
                match apply_callback (callback found) k v with
                | Fault f => Raised f
                | Ok x => parse_values pm rest (PyDict.set k (Many (l ++ [x])) parsed)
                end
            end
          else if negb (PyDict.mem k parsed) then
            match apply_callback (callback found) k v with
            | Fault f => Raised f
            | Ok x => parse_values pm rest (PyDict.set k (One x) parsed)
            end
          else ParseMultipleError k
      end
  end.

(** The last loop: the first field that is required and not given. *)
Fixpoint first_missing (items : list (str * param_spec))
    (values : list (str * str)) : option str :=
  match items with
  | [] => None
  | (k, p) :: rest =>
      if negb (optional p) && negb (existsb (PyDict.str_eqb k) (map fst values))
      then Some k
      else first_missing rest values
  end.

(** [parse_query_params(params)], with [values] the pairs of
    [flask.request.values.items(multi=True)]. *)
Definition parse_query_params (params : list (str * option callable))
    (values : list (str * str)) : parse_outcome (PyDict.dict entry) :=
  match parse_values (param_map params) values [] with
  | Parsed parsed =>
      match first_missing (param_map params) values with
      | Some k => ParseMissingError k
      | None => Parsed parsed
      end
  | failure => failure
  end.

(** What [parsed] holds for the field [k] once the pairs [done] are read:
    nothing if the field was not given, one value for a single field given
    once, and for a multiple field the list of its values in order. *)
Definition parsed_field (pm : PyDict.dict param_spec) (done : list (str * str))
    (parsed : PyDict.dict entry) (k : str) : Prop :=
  match getlist k done with
  | [] => PyDict.get k parsed = None
  | v :: vs =>
      exists spec,
        PyDict.get k pm = Some spec
        /\ if multi spec
           then exists xs,
                  PyDict.get k parsed = Some (Many xs)
                  /\ Forall2 (fun v x => apply_callback (callback spec) k v = Ok x)
                       (v :: vs) xs
           else exists x,
                  vs = [] /\ PyDict.get k parsed = Some (One x)
                  /\ apply_callback (callback spec) k v = Ok x
  end.

End ParseQueryParams.

Arguments One {V} v.
Arguments Many {V} vs.
Arguments optional {V} p.
Arguments multi {V} p.
Arguments callback {V} p.

(** Inputs of the worked example on [parse_query_params]. *)
Module QuerySample.

Definition keep : callable str := fun _ v => Ok v.

(** One required field, one optional field and one optional field that
    may be given several times, the last without a callable. *)
Definition params : list (str * option (callable str)) :=
  [(lit "operator", Some keep); (lit "-contract", Some keep);
   (lit "-res_addr[]", None)].

Definition values : list (str * str) :=
  [(lit "res_addr", lit "first"); (lit "operator", lit "0x01");
   (lit "res_addr", lit "second")].

Definition parsed : PyDict.dict (entry str) :=
  [(lit "res_addr", Many [lit "first"; lit "second"]);
   (lit "operator", One (lit "0x01"))].

End QuerySample.

(** * Properties *)

(** ** Decimal text *)

Module PyStrFacts.

Arguments digit_char : simpl never.
Arguments digit_val : simpl never.
Arguments is_digit : simpl never.

Lemma digit_val_char (d : Z) : 0 <= d < 10 -> digit_val (digit_char d) = d.
Proof.
  intros Hd. unfold digit_val, digit_char.
  rewrite nat_ascii_embedding by lia. lia.
Qed.

Lemma is_digit_char (d : Z) : 0 <= d < 10 -> is_digit (digit_char d) = true.
Proof.
  intros Hd. unfold is_digit, digit_char.
  rewrite nat_ascii_embedding by lia.
  apply andb_true_intro; split; apply Nat.leb_le; lia.
Qed.

Lemma digits_fuel_acc (f : nat) : forall n acc,
  digits_fuel f n acc = digits_fuel f n [] ++ acc.
Proof.
  induction f as [|f IH]; intros n acc; simpl; [reflexivity|].
  destruct (n <? 10); [reflexivity|].
  rewrite (IH _ (_ :: acc)), (IH _ [_]), <- app_assoc. reflexivity.
Qed.

Lemma digits_fuel_step (f : nat) (n : Z) :
  digits_fuel (S f) n [] =
  if n <? 10 then [digit_char (n mod 10)]
  else digits_fuel f (n / 10) [] ++ [digit_char (n mod 10)].
Proof. simpl. destruct (n <? 10); [reflexivity|]. apply digits_fuel_acc. Qed.

Lemma digits_value_app (l1 l2 : str) : forall a,
  digits_value a (l1 ++ l2) = digits_value (digits_value a l1) l2.
Proof. induction l1 as [|c l1 IH]; intros a; simpl; [reflexivity|apply IH]. Qed.

Lemma digits_fuel_value (f : nat) : forall n,
  0 <= n < 10 ^ Z.of_nat f -> digits_value 0 (digits_fuel f n []) = n.
Proof.
  induction f as [|f IH]; intros n Hn.
  - simpl in *. lia.
  - rewrite digits_fuel_step. destruct (Z.ltb_spec n 10) as [Hlt|Hge].
    + cbn [digits_value]. rewrite Z.mod_small by lia. rewrite digit_val_char; lia.
    + rewrite digits_value_app, IH.
      * cbn [digits_value]. rewrite digit_val_char by (apply Z.mod_pos_bound; lia).
        pose proof (Z.div_mod n 10 ltac:(lia)). lia.
      * rewrite Nat2Z.inj_succ, Z.pow_succ_r in Hn by lia.
        split; [apply Z.div_pos; lia|].
        apply Z.div_lt_upper_bound; lia.
Qed.

Lemma digits_fuel_digits (f : nat) : forall n,
  0 <= n -> forallb is_digit (digits_fuel f n []) = true.
Proof.
  induction f as [|f IH]; intros n Hn; [reflexivity|].
  rewrite digits_fuel_step.
  assert (is_digit (digit_char (n mod 10)) = true) as Hd
    by (apply is_digit_char, Z.mod_pos_bound; lia).
  destruct (n <? 10).
  - cbn [forallb]. rewrite Hd. reflexivity.
  - rewrite forallb_app, IH by (apply Z.div_pos; lia). cbn [forallb].
    rewrite Hd. reflexivity.
Qed.

Lemma digits_fuel_length (f : nat) : forall n d,
  0 <= n < 10 ^ Z.of_nat d -> (1 <= d)%nat ->
  (1 <= length (digits_fuel (S f) n []) <= d)%nat.
Proof.
  induction f as [|f IH]; intros n d Hn Hd.
  - simpl. destruct (n <? 10); simpl; lia.
  - rewrite digits_fuel_step. destruct (Z.ltb_spec n 10) as [Hlt|Hge].
    + simpl. lia.
    + rewrite length_app. cbn [length].
      destruct d as [|[|d]]; [lia| change (10 ^ Z.of_nat 1) with 10 in Hn; lia |].
      specialize (IH (n / 10) (S d)).
      rewrite Nat2Z.inj_succ, Z.pow_succ_r in Hn by lia.
      assert (0 <= n / 10 < 10 ^ Z.of_nat (S d)) as Hq.
      { split; [apply Z.div_pos; lia|]. apply Z.div_lt_upper_bound; lia. }
      specialize (IH Hq). lia.
Qed.

Lemma fuel_enough (n : Z) :
  0 <= n -> n < 10 ^ Z.of_nat (S (Z.to_nat (Z.log2 n))).
Proof.
  intros Hn.
  rewrite Nat2Z.inj_succ, Z2Nat.id by apply Z.log2_nonneg.
  destruct (Z.eq_dec n 0) as [->|Hnz]; [simpl; lia|].
  pose proof (Z.log2_spec n ltac:(lia)) as [_ Hup].
  eapply Z.lt_le_trans; [exact Hup|].
  apply Z.pow_le_mono_l. lia.
Qed.

Lemma str_of_int_nonneg (n : Z) : 0 <= n -> str_of_int n = str_of_nonneg n.
Proof. intros Hn. unfold str_of_int. destruct (Z.ltb_spec n 0); [lia|reflexivity]. Qed.

Lemma str_of_int_value (n : Z) : 0 <= n -> digits_value 0 (str_of_int n) = n.
Proof.
  intros Hn. rewrite str_of_int_nonneg by assumption.
  apply digits_fuel_value. split; [assumption|apply fuel_enough; assumption].
Qed.

Lemma str_of_int_digits (n : Z) :
  0 <= n -> forallb is_digit (str_of_int n) = true.
Proof.
  intros Hn. rewrite str_of_int_nonneg by assumption.
  apply digits_fuel_digits; assumption.
Qed.

Lemma str_of_int_length (n : Z) (d : nat) :
  0 <= n < 10 ^ Z.of_nat d -> (1 <= d)%nat ->
  (1 <= length (str_of_int n) <= d)%nat.
Proof.
  intros Hn Hd. rewrite str_of_int_nonneg by lia.
  apply digits_fuel_length; assumption.
Qed.

Lemma str_of_int_nonempty (n : Z) : 0 <= n -> str_of_int n <> [].
Proof.
  intros Hn. rewrite str_of_int_nonneg by assumption.
  unfold str_of_nonneg. rewrite digits_fuel_step.
  destruct (n <? 10); [discriminate|].
  intros H. apply app_eq_nil in H. destruct H as [_ H]. discriminate.
Qed.

Lemma fullmatch_str_of_int (n : Z) :
  0 <= n -> fullmatch_digits (str_of_int n) = true.
Proof.
  intros Hn. unfold fullmatch_digits.
  rewrite str_of_int_digits by assumption.
  pose proof (str_of_int_nonempty n Hn).
  destruct (str_of_int n); [congruence|reflexivity].
Qed.

Lemma digits_value_zeros (k : nat) (s : str) :
  digits_value 0 (repeat zero k ++ s) = digits_value 0 s.
Proof. induction k as [|k IH]; simpl; [reflexivity|exact IH]. Qed.

Lemma is_digit_zero : is_digit zero = true.
Proof. reflexivity. Qed.

Lemma zero_pad_length (d : nat) (n : Z) :
  0 <= n < 10 ^ Z.of_nat d -> (1 <= d)%nat -> length (zero_pad d n) = d.
Proof.
  intros Hn Hd. unfold zero_pad.
  pose proof (str_of_int_length n d Hn Hd).
  rewrite length_app, repeat_length. lia.
Qed.

Lemma zero_pad_value (d : nat) (n : Z) :
  0 <= n -> digits_value 0 (zero_pad d n) = n.
Proof.
  intros Hn. unfold zero_pad. rewrite digits_value_zeros.
  apply str_of_int_value; assumption.
Qed.

Lemma zero_pad_digits (d : nat) (n : Z) :
  0 <= n -> forallb is_digit (zero_pad d n) = true.
Proof.
  intros Hn. unfold zero_pad. rewrite forallb_app, str_of_int_digits by assumption.
  rewrite andb_true_r. apply forallb_forall. intros c Hc.
  apply repeat_spec in Hc. subst c. reflexivity.
Qed.

(** [rstrip] *)

Lemma rstrip_cons_ne (c x : ascii) (s : str) :
  x <> c -> rstrip c (x :: s) = x :: rstrip c s.
Proof.
  intros Hx. simpl. destruct (rstrip c s); [|reflexivity].
  destruct (Ascii.eqb_spec x c); [contradiction|reflexivity].
Qed.

Lemma rstrip_ljust (c : ascii) (s : str) :
  rstrip c s ++ repeat c (length s - length (rstrip c s)) = s
  /\ (length (rstrip c s) <= length s)%nat.
Proof.
  induction s as [|x s [IH1 IH2]]; simpl; [split; reflexivity|].
  destruct (rstrip c s) as [|y r] eqn:Hr.
  - simpl in IH1. destruct (Ascii.eqb_spec x c) as [->|Hne]; simpl.
    + rewrite Nat.sub_0_r in IH1. rewrite IH1. split; [reflexivity|lia].
    + rewrite Nat.sub_0_r in *. rewrite IH1. split; [reflexivity|lia].
  - simpl in *. rewrite IH1. split; [reflexivity|lia].
Qed.

Lemma rstrip_nil_value (s : str) :
  rstrip zero s = [] -> digits_value 0 s = 0.
Proof.
  intros H. pose proof (rstrip_ljust zero s) as [Hs _].
  rewrite H in Hs. simpl in Hs. rewrite <- Hs, Nat.sub_0_r.
  rewrite <- (app_nil_r (repeat _ _)), digits_value_zeros. reflexivity.
Qed.

Lemma rstrip_forallb (P : ascii -> bool) (c : ascii) (s : str) :
  forallb P s = true -> forallb P (rstrip c s) = true.
Proof.
  intros H. pose proof (rstrip_ljust c s) as [Hs _].
  rewrite <- Hs, forallb_app in H. apply andb_prop in H. tauto.
Qed.

(** [split] *)

Lemma split_no_sep (sep : ascii) (s : str) :
  ~ In sep s -> split sep s = [s].
Proof.
  induction s as [|x s IH]; intros Hn; simpl; [reflexivity|].
  destruct (Ascii.eqb_spec x sep) as [->|Hne]; [exfalso; apply Hn; left; reflexivity|].
  rewrite IH; [reflexivity|]. intros Hin. apply Hn. right. exact Hin.
Qed.

Lemma split_app_sep (sep : ascii) (a b : str) :
  ~ In sep a -> split sep (a ++ sep :: b) = a :: split sep b.
Proof.
  induction a as [|x a IH]; intros Hn; simpl.
  - rewrite Ascii.eqb_refl. reflexivity.
  - destruct (Ascii.eqb_spec x sep) as [->|Hne]; [exfalso; apply Hn; left; reflexivity|].
    rewrite IH; [reflexivity|]. intros Hin. apply Hn. right. exact Hin.
Qed.

Lemma digits_no_dot (s : str) : forallb is_digit s = true -> ~ In dot s.
Proof.
  intros H Hin. rewrite forallb_forall in H. specialize (H _ Hin). discriminate.
Qed.

End PyStrFacts.

(** ** The currency codec *)

Import PyStrFacts.

Lemma int_of_str_digits (s : str) :
  s <> [] -> forallb is_digit s = true ->
  int_of_str s = Return (digits_value 0 s).
Proof.
  intros Hne Hd. unfold int_of_str, fullmatch_digits. rewrite Hd.
  destruct s; [congruence|reflexivity].
Qed.

Lemma fullmatch_digits_intro (s : str) :
  s <> [] -> forallb is_digit s = true -> fullmatch_digits s = true.
Proof.
  intros Hne Hd. unfold fullmatch_digits. rewrite Hd.
  destruct s; [congruence|reflexivity].
Qed.

Lemma format_currency_whole (x : Z) (d : nat) :
  x mod 10 ^ Z.of_nat d = 0 ->
  format_currency x d = str_of_int (x / 10 ^ Z.of_nat d).
Proof.
  intros Hr. unfold format_currency. rewrite Hr. simpl. apply app_nil_r.
Qed.

Lemma format_currency_frac (x : Z) (d : nat) :
  x mod 10 ^ Z.of_nat d <> 0 ->
  format_currency x d =
  str_of_int (x / 10 ^ Z.of_nat d)
  ++ dot :: rstrip zero (zero_pad d (x mod 10 ^ Z.of_nat d)).
Proof.
  intros Hr. unfold format_currency.
  destruct (Z.eqb_spec (x mod 10 ^ Z.of_nat d) 0) as [|_]; [contradiction|].
  rewrite rstrip_cons_ne by discriminate. reflexivity.
Qed.

(** The fractional text that [parse_currency] rebuilds from the stripped
    one is the zero-padded remainder. *)
Lemma restore_fraction (d : nat) (p : str) :
  length p = d ->
  (if (d <? length (rstrip zero p))%nat then firstn d (rstrip zero p)
   else if (length (rstrip zero p) <? d)%nat then ljust d zero (rstrip zero p)
   else rstrip zero p) = p.
Proof.
  intros Hl. pose proof (rstrip_ljust zero p) as [Hs Hle].
  rewrite Hl in Hs, Hle.
  destruct (Nat.ltb_spec d (length (rstrip zero p))) as [|_]; [lia|].
  destruct (Nat.ltb_spec (length (rstrip zero p)) d) as [Hlt|Hge].
  - unfold ljust. exact Hs.
  - replace (d - length (rstrip zero p))%nat with 0%nat in Hs by lia.
    simpl in Hs. rewrite app_nil_r in Hs. exact Hs.
Qed.

(** C6.  [parse_currency] undoes [format_currency]: for every non-negative
    atomic amount [x] and every number of decimals [d], parsing the text
    that [format_currency x d] prints, with the same [d], returns [x]. *)
Theorem codec_round_trip (k : str) (x : Z) (d : nat) :
  0 <= x -> parse_currency k (format_currency x d) d = Return x.
Proof.
  intros Hx.
  set (base := 10 ^ Z.of_nat d).
  assert (0 < base) as Hb by (apply Z.pow_pos_nonneg; lia).
  assert (0 <= x / base) as Hq by (apply Z.div_pos; lia).
  pose proof (Z.mod_pos_bound x base Hb) as Hr.
  pose proof (Z.div_mod x base ltac:(lia)) as Hdm.
  pose proof (str_of_int_digits _ Hq) as HWd.
  pose proof (str_of_int_nonempty _ Hq) as HWn.
  destruct (Z.eq_dec (x mod base) 0) as [Hz|Hnz].
  - rewrite format_currency_whole by exact Hz. fold base.
    unfold parse_currency.
    rewrite split_no_sep by (apply digits_no_dot; exact HWd).
    cbn [length forallb nth tl].
    rewrite fullmatch_digits_intro by assumption.
    change (2 <? 1)%nat with false. cbn [andb negb orb].
    rewrite int_of_str_digits by assumption.
    rewrite str_of_int_value by assumption.
    cbn [bind]. f_equal. fold base. lia.
  - assert (1 <= d)%nat as Hd.
    { destruct d; [|lia]. subst base. simpl in Hnz. rewrite Z.mod_1_r in Hnz. lia. }
    rewrite format_currency_frac by exact Hnz. fold base.
    set (p := zero_pad d (x mod base)).
    assert (length p = d) as Hpl by (apply zero_pad_length; [fold base; lia|exact Hd]).
    assert (forallb is_digit p = true) as Hpd by (apply zero_pad_digits; lia).
    assert (digits_value 0 p = x mod base) as Hpv by (apply zero_pad_value; lia).
    assert (rstrip zero p <> []) as Hfn.
    { intros Hnil. apply rstrip_nil_value in Hnil. lia. }
    assert (forallb is_digit (rstrip zero p) = true) as Hfd
      by (apply rstrip_forallb; exact Hpd).
    unfold parse_currency.
    rewrite split_app_sep by (apply digits_no_dot; exact HWd).
    rewrite split_no_sep by (apply digits_no_dot; exact Hfd).
    cbn [length forallb nth tl].
    rewrite !fullmatch_digits_intro by assumption.
    change (2 <? 2)%nat with false. cbn [andb negb orb].
    rewrite int_of_str_digits by assumption.
    rewrite str_of_int_value by assumption.
    cbn [bind].
    rewrite restore_fraction by exact Hpl.
    rewrite int_of_str_digits; [|intros E; rewrite E in Hpl; simpl in Hpl; lia|exact Hpd].
    rewrite Hpv. cbn [bind]. f_equal. fold base. lia.
Qed.

Lemma codec_round_trip_witness :
  0 <= 1230000000
  /\ parse_currency (lit "stake") (format_currency 1230000000 9) 9
     = Return 1230000000.
Proof.
  split; [lia|]. apply (codec_round_trip (lit "stake") 1230000000 9). lia.
Defined.

(** ** [check_stakes] *)

Lemma fold_left_add (l : list Z) : forall a, fold_left Z.add l a = a + sum l.
Proof.
  unfold sum. induction l as [|x l IH]; intros a; simpl; [lia|].
  rewrite (IH (a + x)), (IH x). lia.
Qed.

Lemma sum_cons (x : Z) (l : list Z) : sum (x :: l) = x + sum l.
Proof. unfold sum at 1. simpl. apply fold_left_add. Qed.

Lemma sum_nil : sum [] = 0.
Proof. reflexivity. Qed.

Lemma sum_app (l1 l2 : list Z) : sum (l1 ++ l2) = sum l1 + sum l2.
Proof.
  induction l1 as [|x l1 IH]; cbn [app]; [rewrite sum_nil; lia|].
  rewrite !sum_cons, IH. lia.
Qed.

Lemma len_set_NoDup (stakers : list str) :
  len_set stakers = len stakers <-> NoDup stakers.
Proof.
  unfold len_set, len. split.
  - intros H. apply Nat2Z.inj in H.
    clear -H. induction stakers as [|a l IH]; [constructor|].
    simpl in H. destruct (in_dec str_eq_dec a l) as [Hin|Hnin].
    + pose proof (NoDup_incl_length (NoDup_nodup str_eq_dec l)
                    (fun x Hx => proj1 (nodup_In str_eq_dec l x) Hx)).
      lia.
    + simpl in H. constructor; [exact Hnin|]. apply IH. lia.
  - intros H. rewrite nodup_fixed_point by exact H. reflexivity.
Qed.

(** The loop, entered at index [k] with enough spots for the entries left,
    never divides by zero: it accepts when every entry meets its minimum and
    raises the one "too low" error otherwise. *)
Lemma check_stakes_loop_spec (stakes : list Z) : forall (k : nat) rs sp,
  len stakes <= sp ->
  (check_stakes_loop (Z.of_nat k) rs sp stakes = Return tt
   /\ forall j, (j < length stakes)%nat ->
        (rs - sum (firstn j stakes))
        / (if Nat.eqb (k + j) 0 then 4 else sp - Z.of_nat j) <= nth j stakes 0)
  \/
  (check_stakes_loop (Z.of_nat k) rs sp stakes = Raise (ValueError too_low_msg)
   /\ exists j, (j < length stakes)%nat
        /\ nth j stakes 0 <
           (rs - sum (firstn j stakes))
           / (if Nat.eqb (k + j) 0 then 4 else sp - Z.of_nat j)
        /\ forall j', (j' < j)%nat ->
             (rs - sum (firstn j' stakes))
             / (if Nat.eqb (k + j') 0 then 4 else sp - Z.of_nat j')
             <= nth j' stakes 0).
Proof.
  induction stakes as [|s rest IH]; intros k rs sp Hsp.
  - left. split; [reflexivity|]. simpl. intros j Hj. lia.
  - unfold len in Hsp. cbn [length] in Hsp.
    cbn [check_stakes_loop]. unfold floordiv.
    assert ((Z.of_nat k =? 0) = Nat.eqb k 0) as Hk0.
    { destruct k; [reflexivity|]. simpl. reflexivity. }
    rewrite Hk0.
    assert (((if Nat.eqb k 0 then 4 else sp) =? 0) = false) as Hnz.
    { destruct (Nat.eqb k 0); apply Z.eqb_neq; lia. }
    rewrite Hnz. cbn [bind].
    set (reqd := rs / (if Nat.eqb k 0 then 4 else sp)).
    destruct (Z.ltb_spec s reqd) as [Hlow|Hok].
    + right. split; [reflexivity|]. exists 0%nat.
      cbn [length firstn nth]. rewrite sum_nil, Nat.add_0_r, Z.sub_0_r, Z.sub_0_r.
      split; [lia|]. split; [exact Hlow|]. intros j' Hj'. lia.
    + replace (Z.of_nat k + 1) with (Z.of_nat (S k)) by lia.
      destruct (IH (S k) (rs - s) (sp - 1)) as [[Hret Hall]|[Hraise Hex]].
      { unfold len. lia. }
      * left. split; [exact Hret|]. intros [|j] Hj.
        -- cbn [firstn nth]. rewrite sum_nil, Nat.add_0_r, Z.sub_0_r, Z.sub_0_r.
           exact Hok.
        -- cbn [firstn nth]. rewrite sum_cons.
           specialize (Hall j ltac:(simpl in Hj; lia)).
           replace (Nat.eqb (k + S j) 0) with false
             by (symmetry; apply Nat.eqb_neq; lia).
           replace (Nat.eqb (S k + j) 0) with false in Hall
             by (symmetry; apply Nat.eqb_neq; lia).
           replace (rs - (s + sum (firstn j rest))) with (rs - s - sum (firstn j rest)) by lia.
           replace (sp - Z.of_nat (S j)) with (sp - 1 - Z.of_nat j) by lia.
           exact Hall.
      * right. split; [exact Hraise|].
        destruct Hex as (j & Hj & Hlow & Hbefore). exists (S j).
        split; [simpl; lia|]. split.
        -- cbn [firstn nth]. rewrite sum_cons.
           replace (Nat.eqb (k + S j) 0) with false
             by (symmetry; apply Nat.eqb_neq; lia).
           replace (Nat.eqb (S k + j) 0) with false in Hlow
             by (symmetry; apply Nat.eqb_neq; lia).
           replace (rs - (s + sum (firstn j rest))) with (rs - s - sum (firstn j rest)) by lia.
           replace (sp - Z.of_nat (S j)) with (sp - 1 - Z.of_nat j) by lia.
           exact Hlow.
        -- intros [|j'] Hj'.
           ++ cbn [firstn nth]. rewrite sum_nil, Nat.add_0_r, Z.sub_0_r, Z.sub_0_r.
              exact Hok.
           ++ cbn [firstn nth]. rewrite sum_cons.
              specialize (Hbefore j' ltac:(lia)).
              replace (Nat.eqb (k + S j') 0) with false
                by (symmetry; apply Nat.eqb_neq; lia).
              replace (Nat.eqb (S k + j') 0) with false in Hbefore
                by (symmetry; apply Nat.eqb_neq; lia).
              replace (rs - (s + sum (firstn j' rest))) with (rs - s - sum (firstn j' rest)) by lia.
              replace (sp - Z.of_nat (S j')) with (sp - 1 - Z.of_nat j') by lia.
              exact Hbefore.
Qed.

Lemma check_stakes_pre_checks (stakes : list Z) (total : Z) (stakers : list str)
    (max_stakers : Z) :
  Rule.pre_checks stakes total stakers max_stakers ->
  check_stakes stakes total stakers max_stakers
  = check_stakes_loop 0 total max_stakers stakes.
Proof.
  intros (Hlen & Hne & Hmax & Hsum & Hnd). unfold check_stakes.
  replace (len stakers =? len stakes) with true
    by (symmetry; apply Z.eqb_eq; unfold len; congruence).
  replace (len stakers <? 1) with false
    by (symmetry; apply Z.ltb_ge; unfold len; lia).
  replace (len stakers >? max_stakers) with false
    by (symmetry; rewrite Z.gtb_ltb; apply Z.ltb_ge; lia).
  replace (sum stakes >? total) with false
    by (symmetry; rewrite Z.gtb_ltb; apply Z.ltb_ge; lia).
  replace (len_set stakers =? len stakers) with true
    by (symmetry; apply Z.eqb_eq, len_set_NoDup; exact Hnd).
  reflexivity.
Qed.

(** The structural pre-checks of [check_stakes] are made in the order
    lengths, emptiness, count, total, duplicates; each failure has a text of
    its own. *)
Lemma check_stakes_structural (stakes : list Z) (total : Z) (stakers : list str)
    (max_stakers : Z) :
  (length stakers <> length stakes ->
   check_stakes stakes total stakers max_stakers
   = Raise (ValueError (lit "s and S have different lengths")))
  /\ (length stakers = length stakes -> length stakers = 0%nat ->
      check_stakes stakes total stakers max_stakers
      = Raise (ValueError (lit "at least one s/S value pair is required")))
  /\ (length stakers = length stakes -> (1 <= length stakers)%nat ->
      max_stakers < len stakers ->
      check_stakes stakes total stakers max_stakers
      = Raise (ValueError (lit "too many stakers (" ++ str_of_int (len stakers)
                           ++ lit " > " ++ str_of_int max_stakers ++ lit ")")))
  /\ (length stakers = length stakes -> (1 <= length stakers)%nat ->
      len stakers <= max_stakers -> total < sum stakes ->
      check_stakes stakes total stakers max_stakers
      = Raise (ValueError (lit "total stake is too large ("
                           ++ str_of_int (sum stakes) ++ lit " > total)")))
  /\ (length stakers = length stakes -> (1 <= length stakers)%nat ->
      len stakers <= max_stakers -> sum stakes <= total -> ~ NoDup stakers ->
      check_stakes stakes total stakers max_stakers
      = Raise (ValueError (lit "duplicate staking addresses in staker list"))).
Proof.
  unfold check_stakes.
  destruct (Z.eqb_spec (len stakers) (len stakes)) as [He|Hne]; cbn [negb].
  2:{ split; [reflexivity|].
      repeat split; intros E; exfalso; apply Hne; unfold len; congruence. }
  split; [intros Hd; exfalso; apply Hd; unfold len in He; lia|].
  destruct (Z.ltb_spec (len stakers) 1) as [H0|H1].
  { split; [reflexivity|]. repeat split; intros; unfold len in H0; lia. }
  split; [intros; unfold len in H1; lia|].
  destruct (Z.gtb_spec (len stakers) max_stakers) as [Hm|Hm].
  { split; [reflexivity|]. repeat split; intros; lia. }
  split; [intros; lia|].
  destruct (Z.gtb_spec (sum stakes) total) as [Ht|Ht].
  { split; [reflexivity|]. intros; lia. }
  split; [intros; lia|].
  destruct (Z.eqb_spec (len_set stakers) (len stakers)) as [Hs|Hs]; cbn [negb].
  - intros _ _ _ _ Hnd. exfalso. apply Hnd, len_set_NoDup, Hs.
  - reflexivity.
Qed.

(** The acceptance half of C3: past the structural pre-checks,
    [check_stakes] accepts exactly the plans in which every amount reaches
    the minimum computed for its index (a quarter of the total at index 0,
    the unfilled stake divided by the open spots afterwards, rounded down);
    no division by zero occurs on the way. *)
Theorem check_stakes_accepts_iff (stakes : list Z) (total : Z)
    (stakers : list str) (max_stakers : Z) :
  Rule.pre_checks stakes total stakers max_stakers ->
  (check_stakes stakes total stakers max_stakers = Return tt
   <-> forall i, (i < length stakes)%nat ->
         Rule.required_min total max_stakers stakes i <= nth i stakes 0).
Proof.
  intros Hpre. rewrite (check_stakes_pre_checks _ _ _ _ Hpre).
  destruct Hpre as (Hlen & Hne & Hmax & Hsum & Hnd).
  unfold Rule.required_min, Rule.remaining_stake_at, Rule.remaining_spots_at.
  destruct (check_stakes_loop_spec stakes 0 total max_stakers) as [[Hr Hall]|[Hr Hex]].
  { unfold len in *. lia. }
  - change (Z.of_nat 0) with 0 in Hr. rewrite Hr.
    split; [intros _; exact Hall|reflexivity].
  - change (Z.of_nat 0) with 0 in Hr. rewrite Hr.
    split; [discriminate|]. intros Hall.
    destruct Hex as (j & Hj & Hlow & _). specialize (Hall j Hj).
    cbn [Nat.add] in Hlow. lia.
Qed.

(** C3.  Where [check_stakes] departs from the claim: a plan that passes
    the pre-checks and has an amount below the minimum of its index is
    refused, but always with the same exception, whose text is the
    unformatted template; the failure carries neither the index nor the
    computed minimum. *)
Theorem check_stakes_shortfall_unidentified (stakes : list Z) (total : Z)
    (stakers : list str) (max_stakers : Z) (i : nat) :
  Rule.pre_checks stakes total stakers max_stakers ->
  (i < length stakes)%nat ->
  nth i stakes 0 < Rule.required_min total max_stakers stakes i ->
  check_stakes stakes total stakers max_stakers
  = Raise (ValueError
      (lit "reserved stake [i] ({stakers[i]}) is too low ({stakes[i]} < {reqd})")).
Proof.
  intros Hpre Hi Hlow. pose proof Hpre as (Hlen & Hne & Hmax & Hsum & Hnd).
  rewrite (check_stakes_pre_checks _ _ _ _ Hpre).
  destruct (check_stakes_loop_spec stakes 0 total max_stakers) as [[Hr Hall]|[Hr Hex]].
  { unfold len in *. lia. }
  - specialize (Hall i Hi).
    unfold Rule.required_min, Rule.remaining_stake_at, Rule.remaining_spots_at in Hlow.
    cbn [Nat.add] in Hall. lia.
  - exact Hr.
Qed.

Lemma check_stakes_shortfall_unidentified_witness :
  Rule.required_min 100 10 [1] 0 = 25
  /\ Rule.required_min 100 10 [25; 1] 1 = 8
  /\ check_stakes [1] 100 [lit "a"] 10
     = Raise (ValueError
         (lit "reserved stake [i] ({stakers[i]}) is too low ({stakes[i]} < {reqd})"))
  /\ check_stakes [25; 1] 100 [lit "a"; lit "b"] 10
     = Raise (ValueError
         (lit "reserved stake [i] ({stakers[i]}) is too low ({stakes[i]} < {reqd})")).
Proof.
  split; [reflexivity|]. split; [reflexivity|]. split.
  - apply (check_stakes_shortfall_unidentified [1] 100 [lit "a"] 10 0).
    + unfold Rule.pre_checks, len. cbn [length Z.of_nat]. rewrite sum_cons, sum_nil.
      split; [reflexivity|]. split; [lia|]. split; [lia|]. split; [lia|].
      constructor; [intros []|constructor].
    + cbn [length]. lia.
    + vm_compute. reflexivity.
  - apply (check_stakes_shortfall_unidentified [25; 1] 100 [lit "a"; lit "b"] 10 1).
    + unfold Rule.pre_checks, len. cbn [length Z.of_nat]. rewrite !sum_cons, sum_nil.
      split; [reflexivity|]. split; [lia|]. split; [lia|]. split; [lia|].
      constructor; [intros [E|[]]; discriminate E|].
      constructor; [intros []|constructor].
    + cbn [length]. lia.
    + vm_compute. reflexivity.
Defined.

(** ** The stake stage of [/validate] *)

Lemma ceiling_division (a b : Z) :
  0 < b -> Rule.is_ceiling a b ((a + b - 1) / b).
Proof.
  intros Hb. unfold Rule.is_ceiling.
  pose proof (Z.div_mod (a + b - 1) b ltac:(lia)) as Hdm.
  pose proof (Z.mod_pos_bound (a + b - 1) b Hb) as Hm.
  nia.
Qed.

Lemma is_ceiling_unique (a b m m' : Z) :
  0 < b -> Rule.is_ceiling a b m -> Rule.is_ceiling a b m' -> m = m'.
Proof. unfold Rule.is_ceiling. intros Hb H H'. nia. Qed.

Section ValidationFacts.

Variables MAX_STAKE MAX_STAKERS : Z.
Variable to_checksum_address : bytes -> str.

Local Abbreviation rloop := (reserved_loop to_checksum_address).
Local Abbreviation vstakes :=
  (validate_stakes MAX_STAKE MAX_STAKERS to_checksum_address).
Local Abbreviation multi_checks := (Rule.multi_checks MAX_STAKE MAX_STAKERS).
Local Abbreviation min_at stake reserved :=
  (Rule.loop_min (MAX_STAKE - stake) (MAX_STAKERS - 1) reserved).

Lemma loop_min_cons (rs sp : Z) (a : bytes * Z) (rest : list (bytes * Z)) (j : nat) :
  Rule.loop_min rs sp (a :: rest) (S j) = Rule.loop_min (rs - snd a) (sp - 1) rest j.
Proof.
  unfold Rule.loop_min, Rule.remaining_stake_at, Rule.remaining_spots_at.
  cbn [map firstn]. rewrite sum_cons.
  replace (rs - (snd a + sum (firstn j (map snd rest))))
    with (rs - snd a - sum (firstn j (map snd rest))) by lia.
  replace (sp - Z.of_nat (S j)) with (sp - 1 - Z.of_nat j) by lia.
  reflexivity.
Qed.

Lemma loop_min_0 (rs sp : Z) (reserved : list (bytes * Z)) :
  Rule.loop_min rs sp reserved 0 = (rs + sp - 1) / sp.
Proof.
  unfold Rule.loop_min, Rule.remaining_stake_at, Rule.remaining_spots_at.
  cbn [firstn]. rewrite sum_nil. f_equal; lia.
Qed.

(** The loop, entered at index [k] with at least as many spots as there
    are contributors left, divides by no zero.  Either every contributor
    meets its minimum and the loop ends with the stake reduced by all the
    amounts and the spots by their number, or it returns the error of the
    first contributor that falls short. *)
Lemma reserved_loop_spec (reserved : list (bytes * Z)) : forall (k : nat) rs sp,
  len reserved <= sp ->
  (rloop (Z.of_nat k) rs sp reserved
   = Return (inr (rs - sum (map snd reserved), sp - len reserved))
   /\ forall j, (j < length reserved)%nat ->
        Rule.loop_min rs sp reserved j <= snd (nth j reserved ([], 0)))
  \/
  (exists j addr amt,
      nth_error reserved j = Some (addr, amt)
      /\ amt < Rule.loop_min rs sp reserved j
      /\ (forall j', (j' < j)%nat ->
            Rule.loop_min rs sp reserved j' <= snd (nth j' reserved ([], 0)))
      /\ rloop (Z.of_nat k) rs sp reserved
         = Return (inl (insufficient_res_stake (Z.of_nat (k + j) + 1)
                          (to_checksum_address addr)
                          (Rule.loop_min rs sp reserved j)))).
Proof.
  induction reserved as [|[addr amt] rest IH]; intros k rs sp Hsp.
  - left. split.
    + cbn [reserved_loop map]. unfold len. cbn [length]. rewrite sum_nil.
      do 3 f_equal; lia.
    + intros j Hj. cbn in Hj. lia.
  - unfold len in Hsp. cbn [length] in Hsp.
    cbn [reserved_loop]. unfold floordiv.
    replace (sp =? 0) with false by (symmetry; apply Z.eqb_neq; lia).
    cbn [bind]. rewrite <- (loop_min_0 rs sp ((addr, amt) :: rest)).
    destruct (Z.ltb_spec amt (Rule.loop_min rs sp ((addr, amt) :: rest) 0)) as [Hlow|Hok].
    + right. exists 0%nat, addr, amt. split; [reflexivity|].
      split; [exact Hlow|]. split; [intros j' Hj'; lia|].
      unfold eth_format. rewrite Nat.add_0_r. reflexivity.
    + replace (Z.of_nat k + 1) with (Z.of_nat (S k)) by lia.
      destruct (IH (S k) (rs - amt) (sp - 1)) as
        [[Hret Hall]|(j & a & m & Hnth & Hlow & Hbefore & Hret)].
      { unfold len. lia. }
      * left. split.
        -- rewrite Hret. cbn [map snd]. rewrite sum_cons. unfold len.
           cbn [length]. do 3 f_equal; lia.
        -- intros [|j] Hj; [exact Hok|].
           rewrite loop_min_cons. cbn [nth snd]. apply Hall.
           cbn [length] in Hj. lia.
      * right. exists (S j), a, m. split; [exact Hnth|].
        split; [rewrite loop_min_cons; exact Hlow|].
        split.
        -- intros [|j'] Hj'; [exact Hok|].
           rewrite loop_min_cons. cbn [nth snd]. apply Hbefore. lia.
        -- rewrite Hret, loop_min_cons. cbn [snd].
           replace (Z.of_nat (S k + j)) with (Z.of_nat (k + S j)) by lia.
           reflexivity.
Qed.

(** Whatever it is entered with, the loop returns no other error than
    [insufficient_res_stake]. *)
Lemma reserved_loop_error_kind (reserved : list (bytes * Z)) : forall i rs sp e,
  rloop i rs sp reserved = Return (inl e) ->
  exists index address minimum, e = insufficient_res_stake index address minimum.
Proof.
  induction reserved as [|[addr amt] rest IH]; intros i rs sp e H.
  - discriminate.
  - cbn [reserved_loop] in H. unfold floordiv in H.
    destruct (sp =? 0); [discriminate|]. cbn [bind] in H.
    destruct (amt <? _).
    + injection H as <-. eauto.
    + eapply IH. exact H.
Qed.

Lemma validate_stakes_multi (stake : Z) (reserved : list (bytes * Z)) :
  multi_checks stake reserved ->
  vstakes false stake reserved =
  (r <- rloop 0 (MAX_STAKE - stake) (MAX_STAKERS - 1) reserved ;;
   match r with
   | inl e => Return (error_response e)
   | inr (remaining_stake, remaining_spots) =>
       remaining_min_contribution <-
         floordiv (remaining_stake + remaining_spots - 1) remaining_spots ;;
       Return (success (Some (remaining_stake, remaining_spots,
                              remaining_min_contribution)))
   end).
Proof.
  intros (Hop & Htot & Hcnt). unfold validate_stakes, MIN_OP_STAKE.
  replace (stake <? MAX_STAKE / 4) with false by (symmetry; apply Z.ltb_ge; lia).
  replace (stake + sum (map snd reserved) >? MAX_STAKE) with false
    by (symmetry; rewrite Z.gtb_ltb; apply Z.ltb_ge; lia).
  replace (1 + len reserved >? MAX_STAKERS) with false
    by (symmetry; rewrite Z.gtb_ltb; apply Z.ltb_ge; lia).
  reflexivity.
Qed.

Lemma multi_checks_spots (stake : Z) (reserved : list (bytes * Z)) :
  multi_checks stake reserved -> len reserved <= MAX_STAKERS - 1.
Proof. intros (_ & _ & H). lia. Qed.

(** The first reserved contributor below its minimum is the one reported,
    under its 1-based index and with that minimum. *)
Lemma validate_first_shortfall (stake : Z) (reserved : list (bytes * Z))
    (i : nat) (addr : bytes) (amt : Z) :
  multi_checks stake reserved ->
  nth_error reserved i = Some (addr, amt) ->
  (forall j, (j < i)%nat -> min_at stake reserved j <= snd (nth j reserved ([], 0))) ->
  amt < min_at stake reserved i ->
  vstakes false stake reserved
  = Return (error_response
      (insufficient_res_stake (Z.of_nat i + 1) (to_checksum_address addr)
         (min_at stake reserved i))).
Proof.
  intros Hc Hnth Hbefore Hlow.
  rewrite (validate_stakes_multi _ _ Hc).
  assert (i < length reserved)%nat as Hi
    by (apply nth_error_Some; rewrite Hnth; discriminate).
  assert (nth i reserved ([], 0) = (addr, amt)) as Hn
    by (apply nth_error_nth; exact Hnth).
  destruct (reserved_loop_spec reserved 0 (MAX_STAKE - stake) (MAX_STAKERS - 1)
              (multi_checks_spots _ _ Hc))
    as [[_ Hall]|(j & a & m & Hnth' & Hlow' & Hbefore' & Hret)].
  - specialize (Hall i Hi). rewrite Hn in Hall. cbn [snd] in Hall. lia.
  - assert (nth j reserved ([], 0) = (a, m)) as Hn'
      by (apply nth_error_nth; exact Hnth').
    destruct (Nat.lt_trichotomy j i) as [Hlt|[Heq|Hgt]].
    + specialize (Hbefore j Hlt). rewrite Hn' in Hbefore. cbn [snd] in Hbefore. lia.
    + subst j. rewrite Hnth in Hnth'. injection Hnth' as <- <-.
      change (Z.of_nat 0) with 0 in Hret. rewrite Hret. reflexivity.
    + specialize (Hbefore' i Hgt). rewrite Hn in Hbefore'. cbn [snd] in Hbefore'. lia.
Qed.

(** When every reserved contributor meets its minimum, the loop ends with
    the unfilled stake reduced by every amount and the spots by one each. *)
Lemma validate_all_meet (stake : Z) (reserved : list (bytes * Z)) :
  multi_checks stake reserved ->
  (forall j, (j < length reserved)%nat ->
     min_at stake reserved j <= snd (nth j reserved ([], 0))) ->
  rloop 0 (MAX_STAKE - stake) (MAX_STAKERS - 1) reserved
  = Return (inr (MAX_STAKE - stake - sum (map snd reserved),
                 MAX_STAKERS - 1 - len reserved)).
Proof.
  intros Hc Hall.
  destruct (reserved_loop_spec reserved 0 (MAX_STAKE - stake) (MAX_STAKERS - 1)
              (multi_checks_spots _ _ Hc))
    as [[Hret _]|(j & a & m & Hnth & Hlow & _ & _)].
  - exact Hret.
  - assert (j < length reserved)%nat as Hj
      by (apply nth_error_Some; rewrite Hnth; discriminate).
    specialize (Hall j Hj).
    rewrite (nth_error_nth _ _ _ Hnth) in Hall. cbn [snd] in Hall. lia.
Qed.

(** With a spot to spare after the last reserved contributor, a plan whose
    contributors all meet their minimum is accepted. *)
Lemma validate_accepts (stake : Z) (reserved : list (bytes * Z)) :
  multi_checks stake reserved ->
  (forall j, (j < length reserved)%nat ->
     min_at stake reserved j <= snd (nth j reserved ([], 0))) ->
  1 + len reserved < MAX_STAKERS ->
  vstakes false stake reserved
  = Return (success (Some
      (MAX_STAKE - stake - sum (map snd reserved),
       MAX_STAKERS - 1 - len reserved,
       (MAX_STAKE - stake - sum (map snd reserved)
        + (MAX_STAKERS - 1 - len reserved) - 1)
       / (MAX_STAKERS - 1 - len reserved)))).
Proof.
  intros Hc Hall Hspare.
  rewrite (validate_stakes_multi _ _ Hc), (validate_all_meet _ _ Hc Hall).
  cbn [bind]. unfold floordiv.
  replace (MAX_STAKERS - 1 - len reserved =? 0) with false
    by (symmetry; apply Z.eqb_neq; lia).
  reflexivity.
Qed.

(** With every spot taken, the same plan makes the closing division divide
    by zero. *)
Lemma validate_full_plan_raises (stake : Z) (reserved : list (bytes * Z)) :
  multi_checks stake reserved ->
  (forall j, (j < length reserved)%nat ->
     min_at stake reserved j <= snd (nth j reserved ([], 0))) ->
  1 + len reserved = MAX_STAKERS ->
  vstakes false stake reserved = Raise ZeroDivisionError.
Proof.
  intros Hc Hall Hfull.
  rewrite (validate_stakes_multi _ _ Hc), (validate_all_meet _ _ Hc Hall).
  cbn [bind]. unfold floordiv.
  replace (MAX_STAKERS - 1 - len reserved =? 0) with true
    by (symmetry; apply Z.eqb_eq; lia).
  reflexivity.
Qed.

Lemma validate_too_many (stake : Z) (reserved : list (bytes * Z)) :
  MAX_STAKE / 4 <= stake ->
  stake + sum (map snd reserved) <= MAX_STAKE ->
  MAX_STAKERS < 1 + len reserved ->
  vstakes false stake reserved
  = Return (error_response (too_many (MAX_STAKERS - 1))).
Proof.
  intros Hop Htot Hcnt. unfold validate_stakes, MIN_OP_STAKE.
  replace (stake <? MAX_STAKE / 4) with false by (symmetry; apply Z.ltb_ge; lia).
  replace (stake + sum (map snd reserved) >? MAX_STAKE) with false
    by (symmetry; rewrite Z.gtb_ltb; apply Z.ltb_ge; lia).
  replace (1 + len reserved >? MAX_STAKERS) with true
    by (symmetry; rewrite Z.gtb_ltb; apply Z.ltb_lt; lia).
  reflexivity.
Qed.

(** What a multi-contributor registration went through when it is
    accepted. *)
Lemma validate_success_inv (stake : Z) (reserved : list (bytes * Z))
    (r : option (Z * Z * Z)) :
  vstakes false stake reserved = Return (success r) ->
  multi_checks stake reserved
  /\ (forall j, (j < length reserved)%nat ->
        min_at stake reserved j <= snd (nth j reserved ([], 0)))
  /\ 1 + len reserved < MAX_STAKERS.
Proof.
  intros H. unfold validate_stakes, MIN_OP_STAKE in H.
  destruct (Z.ltb_spec stake (MAX_STAKE / 4)) as [|Hop]; [discriminate|].
  destruct (Z.gtb_spec (stake + sum (map snd reserved)) MAX_STAKE) as [|Htot];
    [discriminate|].
  destruct (Z.gtb_spec (1 + len reserved) MAX_STAKERS) as [|Hcnt]; [discriminate|].
  assert (multi_checks stake reserved) as Hc by (repeat split; lia).
  split; [exact Hc|].
  destruct (reserved_loop_spec reserved 0 (MAX_STAKE - stake) (MAX_STAKERS - 1)
              (multi_checks_spots _ _ Hc))
    as [[Hret Hall]|(j & a & m & _ & _ & _ & Hret)];
    change (Z.of_nat 0) with 0 in Hret; rewrite Hret in H; cbn [bind] in H;
    [|discriminate].
  split; [exact Hall|].
  unfold floordiv in H.
  destruct (Z.eqb_spec (MAX_STAKERS - 1 - len reserved) 0); [discriminate|lia].
Qed.

(** ** The fairness invariant on [/validate] *)

Lemma sum_firstn_succ (l : list Z) : forall i,
  (i < length l)%nat -> sum (firstn (S i) l) = sum (firstn i l) + nth i l 0.
Proof.
  induction l as [|x l IH]; intros i Hi; [cbn in Hi; lia|].
  destruct i as [|i].
  - rewrite firstn_cons. cbn [firstn nth]. rewrite sum_cons, !sum_nil. lia.
  - rewrite (firstn_cons (S i)), (firstn_cons i). cbn [nth].
    rewrite !sum_cons, IH by (cbn in Hi; lia). lia.
Qed.

Lemma nth_map_snd (reserved : list (bytes * Z)) (i : nat) :
  nth i (map snd reserved) 0 = snd (nth i reserved ([], 0)).
Proof. apply (map_nth snd reserved ([], 0) i). Qed.

(** In an accepted plan the unfilled stake is never negative. *)
Lemma remaining_nonneg (stake : Z) (reserved : list (bytes * Z)) :
  multi_checks stake reserved ->
  (forall j, (j < length reserved)%nat ->
     min_at stake reserved j <= snd (nth j reserved ([], 0))) ->
  1 + len reserved < MAX_STAKERS ->
  forall d i, (i + d = length reserved)%nat ->
    0 <= Rule.remaining_stake_at (MAX_STAKE - stake) (map snd reserved) i.
Proof.
  intros (Hop & Htot & Hcnt) Hall Hspare.
  induction d as [|d IH]; intros i Hi; unfold Rule.remaining_stake_at.
  - rewrite Nat.add_0_r in Hi. subst i.
    rewrite <- (length_map snd reserved), firstn_all. lia.
  - specialize (IH (S i) ltac:(lia)). unfold Rule.remaining_stake_at in IH.
    rewrite sum_firstn_succ in IH by (rewrite length_map; lia).
    rewrite nth_map_snd in IH.
    specialize (Hall i ltac:(lia)).
    unfold Rule.loop_min, Rule.remaining_stake_at, Rule.remaining_spots_at in Hall.
    set (R := MAX_STAKE - stake - sum (firstn i (map snd reserved))) in *.
    set (sp := MAX_STAKERS - 1 - Z.of_nat i) in *.
    assert (2 <= sp) as Hsp by (unfold sp, len in *; lia).
    pose proof (ceiling_division R sp ltac:(lia)) as Hceil.
    unfold Rule.is_ceiling in Hceil.
    set (m := (R + sp - 1) / sp) in *.
    set (amt := snd (nth i reserved ([], 0))) in *.
    nia.
Qed.

(** At every prefix of an accepted plan a spot is left, the next minimum
    is not negative, and the open spots at that minimum cover what is
    unfilled. *)
Lemma validate_prefix_fair (stake : Z) (reserved : list (bytes * Z))
    (r : option (Z * Z * Z)) (i : nat) :
  vstakes false stake reserved = Return (success r) ->
  (i <= length reserved)%nat ->
  1 <= Rule.remaining_spots_at (MAX_STAKERS - 1) i
  /\ 0 <= min_at stake reserved i
  /\ MAX_STAKE <= stake + sum (firstn i (map snd reserved))
                  + Rule.remaining_spots_at (MAX_STAKERS - 1) i
                    * min_at stake reserved i
  /\ MAX_STAKE <= stake + sum (firstn i (map snd reserved))
                  + (MAX_STAKERS - Z.of_nat i) * min_at stake reserved i.
Proof.
  intros Hs Hi. destruct (validate_success_inv _ _ _ Hs) as (Hc & Hall & Hspare).
  pose proof (remaining_nonneg _ _ Hc Hall Hspare (length reserved - i) i ltac:(lia))
    as HR.
  unfold Rule.loop_min, Rule.remaining_stake_at, Rule.remaining_spots_at in *.
  set (R := MAX_STAKE - stake - sum (firstn i (map snd reserved))) in *.
  set (sp := MAX_STAKERS - 1 - Z.of_nat i) in *.
  assert (1 <= sp) as Hsp by (unfold sp, len in *; lia).
  pose proof (ceiling_division R sp ltac:(lia)) as Hceil.
  unfold Rule.is_ceiling in Hceil.
  set (m := (R + sp - 1) / sp) in *.
  assert (0 <= m) as Hm by nia.
  assert (MAX_STAKE - stake - sum (firstn i (map snd reserved)) = R) as HRdef
    by reflexivity.
  assert (MAX_STAKERS - 1 - Z.of_nat i = sp) as Hspdef by reflexivity.
  repeat split; try assumption; nia.
Qed.

End ValidationFacts.

(** One turn of the loop over the reserved contributors, with a spot open:
    the contributor is refused under its 1-based index when its amount is
    below the quotient of stake by spots rounded up, and otherwise the loop
    goes on with the stake reduced by the amount and one spot fewer. *)
Lemma reserved_loop_step (to_checksum_address : bytes -> str)
    (i rs sp : Z) (addr : bytes) (amt : Z) (rest : list (bytes * Z)) :
  0 < sp ->
  exists m, Rule.is_ceiling rs sp m
    /\ reserved_loop to_checksum_address i rs sp ((addr, amt) :: rest)
       = if amt <? m
         then Return (inl (insufficient_res_stake (i + 1) (to_checksum_address addr) m))
         else reserved_loop to_checksum_address (i + 1) (rs - amt) (sp - 1) rest.
Proof.
  intros Hsp. exists ((rs + sp - 1) / sp). split; [apply ceiling_division; exact Hsp|].
  cbn [reserved_loop]. unfold floordiv.
  replace (sp =? 0) with false by (symmetry; apply Z.eqb_neq; lia).
  reflexivity.
Qed.

(** C1.  In a multi-contributor registration that passed the operator,
    total and count checks, [/validate] scans the reserved contributors in
    order from [remaining_stake = MAX_STAKE - stake] and
    [remaining_spots = MAX_STAKERS - 1]: the spots stay positive, the
    minimum at each position is the unfilled stake divided by the open
    spots rounded up, the first contributor below its minimum is refused
    with [insufficient_res_stake] carrying its 1-based index and that
    minimum, and when none is below, the stake has been reduced by every
    amount and the spots by one for each.  With a requirement of
    120_000_000_000_000 and 10 stakers, an operator stake of
    30_000_000_000_000 is the operator minimum and leaves
    90_000_000_000_000 over 9 spots; a reserved contributor below
    10_000_000_000_000 is refused and one at that amount is accepted. *)
Theorem validate_reserved_minimum (to_checksum_address : bytes -> str) :
  (forall MAX_STAKE MAX_STAKERS stake reserved,
     Rule.multi_checks MAX_STAKE MAX_STAKERS stake reserved ->
     (forall i, (i < length reserved)%nat ->
        0 < Rule.remaining_spots_at (MAX_STAKERS - 1) i
        /\ Rule.is_ceiling
             (Rule.remaining_stake_at (MAX_STAKE - stake) (map snd reserved) i)
             (Rule.remaining_spots_at (MAX_STAKERS - 1) i)
             (Rule.loop_min (MAX_STAKE - stake) (MAX_STAKERS - 1) reserved i))
     /\ (forall i addr amt,
           nth_error reserved i = Some (addr, amt) ->
           (forall j, (j < i)%nat ->
              Rule.loop_min (MAX_STAKE - stake) (MAX_STAKERS - 1) reserved j
              <= snd (nth j reserved ([], 0))) ->
           amt < Rule.loop_min (MAX_STAKE - stake) (MAX_STAKERS - 1) reserved i ->
           validate_stakes MAX_STAKE MAX_STAKERS to_checksum_address false stake reserved
           = Return (error_response
               (insufficient_res_stake (Z.of_nat i + 1) (to_checksum_address addr)
                  (Rule.loop_min (MAX_STAKE - stake) (MAX_STAKERS - 1) reserved i))))
     /\ ((forall j, (j < length reserved)%nat ->
            Rule.loop_min (MAX_STAKE - stake) (MAX_STAKERS - 1) reserved j
            <= snd (nth j reserved ([], 0))) ->
         reserved_loop to_checksum_address 0 (MAX_STAKE - stake) (MAX_STAKERS - 1) reserved
         = Return (inr (MAX_STAKE - stake - sum (map snd reserved),
                        MAX_STAKERS - 1 - len reserved))))
  /\ (MIN_OP_STAKE 120000000000000 = 30000000000000
      /\ validate_stakes 120000000000000 10 to_checksum_address false
           30000000000000 []
         = Return (success (Some (90000000000000, 9, 10000000000000)))
      /\ (forall addr amt, amt < 10000000000000 ->
            validate_stakes 120000000000000 10 to_checksum_address false
              30000000000000 [(addr, amt)]
            = Return (error_response
                (insufficient_res_stake 1 (to_checksum_address addr) 10000000000000)))
      /\ (forall addr,
            validate_stakes 120000000000000 10 to_checksum_address false
              30000000000000 [(addr, 10000000000000)]
            = Return (success (Some (80000000000000, 8, 10000000000000))))).
Proof.
  split.
  - intros MAX_STAKE MAX_STAKERS stake reserved Hc. split; [|split].
    + intros i Hi.
      assert (0 < Rule.remaining_spots_at (MAX_STAKERS - 1) i) as Hsp.
      { destruct Hc as (_ & _ & Hcnt).
        unfold Rule.remaining_spots_at, len in *. lia. }
      split; [exact Hsp|]. unfold Rule.loop_min. apply ceiling_division. exact Hsp.
    + intros i addr amt. apply validate_first_shortfall. exact Hc.
    + apply validate_all_meet. exact Hc.
  - split; [reflexivity|]. split; [reflexivity|]. split.
    + intros addr amt Hlow.
      assert (Rule.multi_checks 120000000000000 10 30000000000000 [(addr, amt)]) as Hc.
      { unfold Rule.multi_checks, len. cbn [map snd length].
        rewrite sum_cons, sum_nil.
        change (120000000000000 / 4) with 30000000000000. cbn [Z.of_nat]. lia. }
      pose proof (validate_first_shortfall 120000000000000 10 to_checksum_address
                    30000000000000 [(addr, amt)] 0 addr amt Hc eq_refl) as H.
      rewrite loop_min_0 in H.
      change ((120000000000000 - 30000000000000 + (10 - 1) - 1) / (10 - 1))
        with 10000000000000 in H.
      apply H; [intros j Hj; lia|exact Hlow].
    + intros addr. reflexivity.
Qed.

Lemma validate_reserved_minimum_witness :
  Rule.multi_checks Sent.MAX_STAKE Sent.MAX_STAKERS 30000000000
    [([], 10000000000); ([], 5000000000)]
  /\ validate_stakes Sent.MAX_STAKE Sent.MAX_STAKERS (fun _ => lit "0x") false
       30000000000 [([], 10000000000); ([], 5000000000)]
     = Return (error_response (insufficient_res_stake 2 (lit "0x") 10000000000)).
Proof.
  assert (Rule.multi_checks Sent.MAX_STAKE Sent.MAX_STAKERS 30000000000
            [([], 10000000000); ([], 5000000000)]) as Hc
    by (vm_compute; repeat split; discriminate).
  split; [exact Hc|].
  pose proof (proj1 (validate_reserved_minimum (fun _ => lit "0x"))
                Sent.MAX_STAKE Sent.MAX_STAKERS 30000000000
                [([], 10000000000); ([], 5000000000)] Hc) as (_ & Hshort & _).
  apply (Hshort 1%nat [] 5000000000 eq_refl).
  - intros j Hj. assert (j = 0%nat) as -> by lia. vm_compute. discriminate.
  - vm_compute. reflexivity.
Defined.

(** ** Solo and operator checks of [/validate] *)

Section OperatorChecks.

Variables MAX_STAKE MAX_STAKERS : Z.
Variable is_valid_point : bytes -> bool.
Variable verify : bytes -> bytes -> bytes -> bool.
Variable is_address : str -> bool.
Variable to_checksum_address : bytes -> str.
Variable to_checksum_address_text : str -> option str.

Local Abbreviation vstakes :=
  (validate_stakes MAX_STAKE MAX_STAKERS to_checksum_address).
Local Abbreviation vreg :=
  (validate_registration MAX_STAKE MAX_STAKERS is_valid_point verify
     is_address to_checksum_address to_checksum_address_text).

(** Had the stake stage been reached by a solo registration, it would
    accept exactly the total that equals [MAX_STAKE]. *)
Lemma solo_stage_exact (stake : Z) (reserved : list (bytes * Z)) :
  (stake + sum (map snd reserved) = MAX_STAKE ->
   vstakes true stake reserved = Return (success None))
  /\ (stake + sum (map snd reserved) <> MAX_STAKE ->
      vstakes true stake reserved
      = Return (error_response
          (wrong_op_stake (stake + sum (map snd reserved)) MAX_STAKE))).
Proof.
  unfold validate_stakes.
  destruct (Z.eqb_spec (stake + sum (map snd reserved)) MAX_STAKE);
    split; intros; (reflexivity || contradiction).
Qed.

(** A multi-contributor registration is refused with
    [insufficient_op_stake] exactly when the operator's stake is below
    [MIN_OP_STAKE = MAX_STAKE // 4]. *)
Lemma multi_insufficient_op_stake_iff (stake : Z) (reserved : list (bytes * Z)) :
  (exists s m, vstakes false stake reserved
               = Return (error_response (insufficient_op_stake s m)))
  <-> stake < MAX_STAKE / 4.
Proof.
  unfold validate_stakes, MIN_OP_STAKE.
  destruct (Z.ltb_spec stake (MAX_STAKE / 4)) as [Hlt|Hge].
  - split; [intros _; exact Hlt|]. intros _. eauto.
  - split; [|lia]. intros (s & m & H). exfalso.
    destruct (_ >? _); [discriminate|]. destruct (_ >? _); [discriminate|].
    destruct (reserved_loop _ _ _ _ _) as [[e|[rs sp]]|] eqn:Hl; cbn [bind] in H.
    + apply reserved_loop_error_kind in Hl. destruct Hl as (? & ? & ? & ->).
      discriminate.
    + unfold floordiv in H. destruct (sp =? 0); discriminate.
    + discriminate.
Qed.

(** Past the operator check, it is refused with [too_much] exactly when
    operator and reserved stakes together exceed [MAX_STAKE]. *)
Lemma multi_too_much_iff (stake : Z) (reserved : list (bytes * Z)) :
  MAX_STAKE / 4 <= stake ->
  ((exists t m, vstakes false stake reserved
                = Return (error_response (too_much t m)))
   <-> MAX_STAKE < stake + sum (map snd reserved)).
Proof.
  intros Hop. unfold validate_stakes, MIN_OP_STAKE.
  replace (stake <? MAX_STAKE / 4) with false by (symmetry; apply Z.ltb_ge; lia).
  destruct (Z.gtb_spec (stake + sum (map snd reserved)) MAX_STAKE) as [Hgt|Hle].
  - split; [intros _; lia|]. intros _. eauto.
  - split; [|lia]. intros (t & m & H). exfalso.
    destruct (_ >? _); [discriminate|].
    destruct (reserved_loop _ _ _ _ _) as [[e|[rs sp]]|] eqn:Hl; cbn [bind] in H.
    + apply reserved_loop_error_kind in Hl. destruct Hl as (? & ? & ? & ->).
      discriminate.
    + unfold floordiv in H. destruct (sp =? 0); discriminate.
    + discriminate.
Qed.

(** The operator boundary: exactly [MIN_OP_STAKE] passes the operator
    check, one unit less does not. *)
Lemma multi_operator_boundary (reserved : list (bytes * Z)) :
  vstakes false (MAX_STAKE / 4 - 1) reserved
  = Return (error_response
      (insufficient_op_stake (MAX_STAKE / 4 - 1) (MAX_STAKE / 4)))
  /\ forall s m, vstakes false (MAX_STAKE / 4) reserved
                 <> Return (error_response (insufficient_op_stake s m)).
Proof.
  split.
  - unfold validate_stakes, MIN_OP_STAKE.
    replace (MAX_STAKE / 4 - 1 <? MAX_STAKE / 4) with true
      by (symmetry; apply Z.ltb_lt; lia).
    reflexivity.
  - intros s m H.
    assert (MAX_STAKE / 4 < MAX_STAKE / 4); [|lia].
    apply (multi_insufficient_op_stake_iff (MAX_STAKE / 4) reserved). eauto.
Qed.

Lemma check_fee_solo (fee : option str) :
  exists detail, check_fee true fee = Some (invalid_fee detail).
Proof. destruct fee; cbn; eauto. Qed.

(** C2.  Where [/validate] departs from the claim: no registration
    without a contract address gets as far as the stake stage.  It is never
    accepted and never refused with [wrong_op_stake]; once its keys and
    signature pass and it names no reserved contributor, it is refused
    with [invalid_fee], whatever its stake. *)
Theorem validate_solo_stops_at_fee (params : validate_params) :
  contract (keys params) = None ->
  (forall r, vreg params <> Return (success r))
  /\ (forall s q, vreg params <> Return (error_response (wrong_op_stake s q)))
  /\ (check_reg_keys_sigs is_valid_point verify (keys params) = Return tt ->
      res_addr params = [] ->
      exists detail, vreg params = Return (error_response (invalid_fee detail))).
Proof.
  intros Hsolo. unfold validate_registration. rewrite Hsolo.
  destruct (check_reg_keys_sigs _ _ _) as [[]|e].
  - destruct (res_addr params) as [|a l]; cbn [length Nat.eqb negb andb].
    + destruct (check_fee_solo (fee params)) as (detail & ->).
      repeat split; try discriminate. intros _ _. eauto.
    + repeat split; try discriminate.
  - destruct e; repeat split; try discriminate.
Qed.

End OperatorChecks.

Lemma validate_solo_stops_at_fee_witness :
  contract (keys (Sample.solo_request Sent.MAX_STAKE)) = None
  /\ validate_stakes Sent.MAX_STAKE Sent.MAX_STAKERS Sample.plain_checksum
       true Sent.MAX_STAKE [] = Return (success None)
  /\ validate_registration Sent.MAX_STAKE Sent.MAX_STAKERS
       Sample.any_point Sample.any_signature Sample.any_address
       Sample.plain_checksum Sample.plain_checksum_text
       (Sample.solo_request Sent.MAX_STAKE)
     <> Return (success None)
  /\ validate_registration Sent.MAX_STAKE Sent.MAX_STAKERS
       Sample.any_point Sample.any_signature Sample.any_address
       Sample.plain_checksum Sample.plain_checksum_text
       (Sample.solo_request (Sent.MAX_STAKE - 1))
     = Return (error_response
         (invalid_fee (lit "fee is required for a multi-contribution registration"))).
Proof.
  split; [reflexivity|]. split; [reflexivity|]. split.
  - apply (validate_solo_stops_at_fee Sent.MAX_STAKE Sent.MAX_STAKERS
             Sample.any_point Sample.any_signature Sample.any_address
             Sample.plain_checksum Sample.plain_checksum_text
             (Sample.solo_request Sent.MAX_STAKE) eq_refl).
  - vm_compute. reflexivity.
Defined.

(** ** The number of stakers in [/validate] *)

(** C5.  A registration past the operator and total checks with
    [MAX_STAKERS + 1] contributors in all is refused with [too_many].  With
    exactly [MAX_STAKERS], each reserved contributor meeting its minimum,
    [/validate] does not return: the closing computation of
    [remaining_min_contribution] divides by the zero spots that are left. *)
Theorem validate_max_stakers (MAX_STAKE MAX_STAKERS : Z)
    (to_checksum_address : bytes -> str) (stake : Z) (reserved : list (bytes * Z)) :
  MAX_STAKE / 4 <= stake ->
  stake + sum (map snd reserved) <= MAX_STAKE ->
  (1 + len reserved = MAX_STAKERS + 1 ->
   validate_stakes MAX_STAKE MAX_STAKERS to_checksum_address false stake reserved
   = Return (error_response (too_many (MAX_STAKERS - 1))))
  /\ (1 + len reserved = MAX_STAKERS ->
      (forall j, (j < length reserved)%nat ->
         Rule.loop_min (MAX_STAKE - stake) (MAX_STAKERS - 1) reserved j
         <= snd (nth j reserved ([], 0))) ->
      validate_stakes MAX_STAKE MAX_STAKERS to_checksum_address false stake reserved
      = Raise ZeroDivisionError).
Proof.
  intros Hop Htot. split.
  - intros Hcnt. apply validate_too_many; lia.
  - intros Hcnt Hall. apply validate_full_plan_raises; [|exact Hall|exact Hcnt].
    repeat split; lia.
Qed.

Lemma validate_max_stakers_witness :
  Sent.MAX_STAKE / 4 <= 30000000000
  /\ 30000000000 + sum (map snd Sample.full_plan) <= Sent.MAX_STAKE
  /\ 1 + len Sample.full_plan = Sent.MAX_STAKERS
  /\ validate_stakes Sent.MAX_STAKE Sent.MAX_STAKERS Sample.plain_checksum
       false 30000000000 Sample.full_plan
     = Raise ZeroDivisionError.
Proof.
  assert (Sent.MAX_STAKE / 4 <= 30000000000) as Hop by (vm_compute; discriminate).
  assert (30000000000 + sum (map snd Sample.full_plan) <= Sent.MAX_STAKE) as Htot
    by (vm_compute; discriminate).
  assert (1 + len Sample.full_plan = Sent.MAX_STAKERS) as Hcnt by reflexivity.
  split; [exact Hop|]. split; [exact Htot|]. split; [exact Hcnt|].
  apply (proj2 (validate_max_stakers Sent.MAX_STAKE Sent.MAX_STAKERS
                  Sample.plain_checksum 30000000000 Sample.full_plan Hop Htot) Hcnt).
  intros j Hj.
  do 9 (destruct j as [|j]; [vm_compute; discriminate|]).
  cbn in Hj. lia.
Defined.

(** ** The fairness invariant *)

Lemma firstn_app_le (l1 l2 : list Z) (i : nat) :
  (i <= length l1)%nat -> firstn i (l1 ++ l2) = firstn i l1.
Proof.
  intros Hi. rewrite firstn_app.
  replace (i - length l1)%nat with 0%nat by lia.
  cbn [firstn]. apply app_nil_r.
Qed.

(** A plan that [check_stakes] accepts with a spot to spare is completed
    by one more contributor who supplies all of the unfilled stake. *)
Lemma check_stakes_completable (stakes : list Z) (total : Z)
    (stakers : list str) (max_stakers : Z) (fresh : str) :
  Rule.pre_checks stakes total stakers max_stakers ->
  check_stakes stakes total stakers max_stakers = Return tt ->
  len stakes < max_stakers ->
  ~ In fresh stakers ->
  check_stakes (stakes ++ [total - sum stakes]) total (stakers ++ [fresh]) max_stakers
  = Return tt
  /\ sum (stakes ++ [total - sum stakes]) = total.
Proof.
  intros Hpre Hacc Hspare Hfresh.
  pose proof Hpre as (Hlen & Hne & Hmax & Hsum & Hnd).
  assert (sum (stakes ++ [total - sum stakes]) = total) as Htot
    by (rewrite sum_app, sum_cons, sum_nil; lia).
  split; [|exact Htot].
  assert (Rule.pre_checks (stakes ++ [total - sum stakes]) total
            (stakers ++ [fresh]) max_stakers) as Hpre'.
  { unfold Rule.pre_checks, len in *. rewrite !length_app. cbn [length].
    repeat split; try lia.
    apply NoDup_app; [exact Hnd|repeat constructor; intros []|].
    intros a Ha [<-|[]]. contradiction. }
  apply (check_stakes_accepts_iff _ _ _ _ Hpre').
  pose proof (proj1 (check_stakes_accepts_iff _ _ _ _ Hpre) Hacc) as Hall.
  intros i Hi. rewrite length_app in Hi. cbn [length] in Hi.
  unfold Rule.required_min, Rule.remaining_stake_at, Rule.remaining_spots_at in *.
  destruct (Nat.eq_dec i (length stakes)) as [->|Hne'].
  - rewrite firstn_app_le, firstn_all by lia.
    rewrite app_nth2, Nat.sub_diag by lia. cbn [nth].
    apply Z.div_le_upper_bound.
    + destruct (Nat.eqb (length stakes) 0); unfold len in *; lia.
    + destruct (Nat.eqb (length stakes) 0); unfold len in *; nia.
  - rewrite firstn_app_le, app_nth1 by lia. apply Hall. lia.
Qed.

(** A plan that [check_stakes] accepts with every one of two or more
    spots taken is fully funded. *)
Lemma check_stakes_full_plan_funded (stakes : list Z) (total : Z)
    (stakers : list str) (max_stakers : Z) :
  Rule.pre_checks stakes total stakers max_stakers ->
  check_stakes stakes total stakers max_stakers = Return tt ->
  len stakes = max_stakers ->
  2 <= max_stakers ->
  sum stakes = total.
Proof.
  intros Hpre Hacc Hfull Htwo.
  pose proof Hpre as (Hlen & Hne & Hmax & Hsum & Hnd).
  pose proof (proj1 (check_stakes_accepts_iff _ _ _ _ Hpre) Hacc) as Hall.
  unfold len in *.
  destruct (length stakes) as [|[|n]] eqn:Hn; [lia|lia|].
  specialize (Hall (S n) ltac:(lia)).
  unfold Rule.required_min, Rule.remaining_stake_at, Rule.remaining_spots_at in Hall.
  cbn [Nat.eqb] in Hall.
  replace (max_stakers - Z.of_nat (S n)) with 1 in Hall by lia.
  rewrite Z.div_1_r in Hall.
  pose proof (sum_firstn_succ stakes (S n) ltac:(lia)) as Hs.
  rewrite <- Hn, firstn_all in Hs. lia.
Qed.

(** C4, as stated, fails on [check_stakes], whose minimum is rounded down.
    It accepts an operator who leaves one unit unfilled; the next
    contributor's minimum is then 0, and the filled stake plus the open
    spots at that minimum stays below the requirement, whether the spots
    are counted as [max_stakers - i] or as the nine really left.  Called
    with a single spot, it also accepts an operator's quarter alone, after
    which three quarters are unfilled and no contributor can be added. *)
Lemma check_stakes_floor_falls_short :
  check_stakes [Sent.MAX_STAKE - 1] Sent.MAX_STAKE [lit "operator"] Sent.MAX_STAKERS
  = Return tt
  /\ Rule.required_min Sent.MAX_STAKE Sent.MAX_STAKERS [Sent.MAX_STAKE - 1] 1 = 0
  /\ ~ (Sent.MAX_STAKE
        <= sum (firstn 1 [Sent.MAX_STAKE - 1])
           + (Sent.MAX_STAKERS - 0)
             * Rule.required_min Sent.MAX_STAKE Sent.MAX_STAKERS [Sent.MAX_STAKE - 1] 1)
  /\ ~ (Sent.MAX_STAKE
        <= sum (firstn 1 [Sent.MAX_STAKE - 1])
           + Rule.remaining_spots_at Sent.MAX_STAKERS 1
             * Rule.required_min Sent.MAX_STAKE Sent.MAX_STAKERS [Sent.MAX_STAKE - 1] 1)
  /\ check_stakes [25] 100 [lit "operator"] 1 = Return tt
  /\ forall amount staker,
       check_stakes [25; amount] 100 [lit "operator"; staker] 1
       = Raise (ValueError (lit "too many stakers (2 > 1)")).
Proof.
  split; [vm_compute; reflexivity|]. split; [vm_compute; reflexivity|].
  split; [vm_compute; intros H; apply H; reflexivity|].
  split; [vm_compute; intros H; apply H; reflexivity|].
  split; [vm_compute; reflexivity|].
  intros amount staker. reflexivity.
Qed.

(** C4, amended.  At every prefix of a plan that [/validate] accepts, a
    spot is left, the next minimum (rounded up) is not negative, and the
    filled stake plus the open spots at that minimum reaches [MAX_STAKE],
    the spots counted either way.  For [check_stakes], whose minimum is
    rounded down, the open spots at one unit above the minimum exceed what
    is unfilled, and a plan accepted with a spot to spare is completed by
    one more contributor supplying all of the unfilled stake, while a plan
    accepted with all of two or more spots taken is fully funded. *)
Theorem accepted_plans_fair :
  (forall MAX_STAKE MAX_STAKERS to_checksum_address stake reserved r i,
     validate_stakes MAX_STAKE MAX_STAKERS to_checksum_address false stake reserved
     = Return (success r) ->
     (i <= length reserved)%nat ->
     1 <= Rule.remaining_spots_at (MAX_STAKERS - 1) i
     /\ 0 <= Rule.loop_min (MAX_STAKE - stake) (MAX_STAKERS - 1) reserved i
     /\ MAX_STAKE <= stake + sum (firstn i (map snd reserved))
                     + Rule.remaining_spots_at (MAX_STAKERS - 1) i
                       * Rule.loop_min (MAX_STAKE - stake) (MAX_STAKERS - 1) reserved i
     /\ MAX_STAKE <= stake + sum (firstn i (map snd reserved))
                     + (MAX_STAKERS - Z.of_nat i)
                       * Rule.loop_min (MAX_STAKE - stake) (MAX_STAKERS - 1) reserved i)
  /\ (forall stakes total stakers max_stakers i,
        Rule.pre_checks stakes total stakers max_stakers ->
        check_stakes stakes total stakers max_stakers = Return tt ->
        (1 <= i <= length stakes)%nat ->
        Z.of_nat i < max_stakers ->
        total < sum (firstn i stakes)
                + Rule.remaining_spots_at max_stakers i
                  * (Rule.required_min total max_stakers stakes i + 1))
  /\ (forall stakes total stakers max_stakers fresh,
        Rule.pre_checks stakes total stakers max_stakers ->
        check_stakes stakes total stakers max_stakers = Return tt ->
        len stakes < max_stakers ->
        ~ In fresh stakers ->
        check_stakes (stakes ++ [total - sum stakes]) total (stakers ++ [fresh])
          max_stakers = Return tt
        /\ sum (stakes ++ [total - sum stakes]) = total)
  /\ (forall stakes total stakers max_stakers,
        Rule.pre_checks stakes total stakers max_stakers ->
        check_stakes stakes total stakers max_stakers = Return tt ->
        len stakes = max_stakers ->
        2 <= max_stakers ->
        sum stakes = total).
Proof.
  split; [|split; [|split]].
  - intros MAX_STAKE MAX_STAKERS tca stake reserved r i Hs Hi.
    exact (validate_prefix_fair MAX_STAKE MAX_STAKERS tca stake reserved r i Hs Hi).
  - intros stakes total stakers max_stakers i _ _ Hi Hsp.
    unfold Rule.required_min, Rule.remaining_stake_at, Rule.remaining_spots_at.
    replace (Nat.eqb i 0) with false by (symmetry; apply Nat.eqb_neq; lia).
    set (R := total - sum (firstn i stakes)).
    set (sp := max_stakers - Z.of_nat i).
    assert (0 < sp) as Hpos by (unfold sp; lia).
    pose proof (Z.div_mod R sp ltac:(lia)) as Hdm.
    pose proof (Z.mod_pos_bound R sp Hpos) as Hm.
    assert (R = total - sum (firstn i stakes)) as HR by reflexivity.
    clearbody R. nia.
  - intros stakes total stakers max_stakers fresh.
    apply check_stakes_completable.
  - exact check_stakes_full_plan_funded.
Qed.

Lemma accepted_plans_fair_witness :
  validate_stakes Sent.MAX_STAKE Sent.MAX_STAKERS Sample.plain_checksum false
    30000000000 [(Sample.zeros 20, 45000000001)]
  = Return (success (Some (44999999999, 8, 5625000000)))
  /\ Sent.MAX_STAKE
     <= 30000000000 + sum (firstn 1 (map snd [(Sample.zeros 20, 45000000001)]))
        + Rule.remaining_spots_at (Sent.MAX_STAKERS - 1) 1
          * Rule.loop_min (Sent.MAX_STAKE - 30000000000) (Sent.MAX_STAKERS - 1)
              [(Sample.zeros 20, 45000000001)] 1.
Proof.
  assert (validate_stakes Sent.MAX_STAKE Sent.MAX_STAKERS Sample.plain_checksum false
            30000000000 [(Sample.zeros 20, 45000000001)]
          = Return (success (Some (44999999999, 8, 5625000000)))) as Hs
    by (vm_compute; reflexivity).
  split; [exact Hs|].
  apply (proj1 accepted_plans_fair Sent.MAX_STAKE Sent.MAX_STAKERS
           Sample.plain_checksum 30000000000 [(Sample.zeros 20, 45000000001)]
           _ 1%nat Hs).
  cbn [length]. lia.
Defined.

(** ** [check_reg_keys_sigs] *)

Lemma len_eqb {A} (l : list A) (n : nat) :
  (len l =? Z.of_nat n) = Nat.eqb (length l) n.
Proof.
  unfold len. destruct (Nat.eqb_spec (length l) n) as [->|Hne].
  - apply Z.eqb_refl.
  - apply Z.eqb_neq. lia.
Qed.

Lemma check_reg_keys_sigs_unfold (is_valid_point : bytes -> bool)
    (verify : bytes -> bytes -> bytes -> bool) (params : reg_params) :
  check_reg_keys_sigs is_valid_point verify params =
  let ok := KeyChecks.passes is_valid_point verify params in
  if negb (ok KeyChecks.PrimaryKey) then
    Raise (SNSignatureValidationError (KeyChecks.check_error KeyChecks.PrimaryKey))
  else if negb (ok KeyChecks.SecondaryKey) then
    Raise (SNSignatureValidationError (KeyChecks.check_error KeyChecks.SecondaryKey))
  else if negb (ok KeyChecks.OperatorAddress) then
    Raise (SNSignatureValidationError (KeyChecks.check_error KeyChecks.OperatorAddress))
  else if negb (ok KeyChecks.ContractAddress) then
    Raise (SNSignatureValidationError (KeyChecks.check_error KeyChecks.ContractAddress))
  else if negb (Nat.eqb (length (sig_ed25519 params)) 64) then
    Raise (ValueError (lit "The signature must be exactly 64 bytes long"))
  else if negb (verify (pubkey_ed25519 params) (KeyChecks.signed_message params)
                  (sig_ed25519 params)) then
    Raise (SNSignatureValidationError (KeyChecks.check_error KeyChecks.PrimarySignature))
  else Return tt.
Proof.
  unfold check_reg_keys_sigs, KeyChecks.passes, KeyChecks.signed_message.
  cbv zeta.
  change 32 with (Z.of_nat 32). change 64 with (Z.of_nat 64).
  change 20 with (Z.of_nat 20). rewrite !len_eqb.
  rewrite negb_andb.
  destruct (contract params) as [c|]; [rewrite len_eqb|];
    repeat (match goal with |- context [if ?b then _ else _] => destruct b end;
            cbn [negb orb andb]; try reflexivity).
Qed.

(** C7.  [check_reg_keys_sigs] returns exactly when the five checks pass
    (primary pubkey of 32 bytes and a valid point, secondary pubkey of 64
    bytes, operator address of 20 bytes, contract address, when present,
    of 20 bytes, primary signature verified over primary pubkey followed
    by secondary pubkey) and raises exactly when one fails.  A failure of
    one of the first four raises the error of the first that fails, in
    that order, and so does a signature of 64 bytes that is rejected; the
    five errors differ from one another.  But a signature that is not 64
    bytes long, the first four checks passed, does not fail with the
    invalid-signature error: the [ValueError] of the signature library is
    raised, which the handler of [BadSignatureError] does not catch and
    which is no [SNSignatureValidationError]. *)
Theorem check_reg_keys_sigs_order (is_valid_point : bytes -> bool)
    (verify : bytes -> bytes -> bytes -> bool) (params : reg_params) :
  (check_reg_keys_sigs is_valid_point verify params = Return tt
   <-> forall c, KeyChecks.passes is_valid_point verify params c = true)
  /\ ((exists e, check_reg_keys_sigs is_valid_point verify params = Raise e)
      <-> exists c, KeyChecks.passes is_valid_point verify params c = false)
  /\ (forall c,
        c <> KeyChecks.PrimarySignature ->
        KeyChecks.passes is_valid_point verify params c = false ->
        (forall c', (KeyChecks.rank c' < KeyChecks.rank c)%nat ->
           KeyChecks.passes is_valid_point verify params c' = true) ->
        check_reg_keys_sigs is_valid_point verify params
        = Raise (SNSignatureValidationError (KeyChecks.check_error c)))
  /\ ((forall c, c <> KeyChecks.PrimarySignature ->
                 KeyChecks.passes is_valid_point verify params c = true) ->
      (length (sig_ed25519 params) = 64%nat ->
       verify (pubkey_ed25519 params) (KeyChecks.signed_message params)
         (sig_ed25519 params) = false ->
       check_reg_keys_sigs is_valid_point verify params
       = Raise (SNSignatureValidationError
                  (KeyChecks.check_error KeyChecks.PrimarySignature)))
      /\ (length (sig_ed25519 params) <> 64%nat ->
          KeyChecks.passes is_valid_point verify params KeyChecks.PrimarySignature
          = false
          /\ exists msg,
               check_reg_keys_sigs is_valid_point verify params
               = Raise (ValueError msg)
               /\ forall reason,
                    ValueError msg <> SNSignatureValidationError reason))
  /\ (forall c c', KeyChecks.check_error c = KeyChecks.check_error c' -> c = c')
  /\ KeyChecks.signed_message params = pubkey_ed25519 params ++ pubkey_bls params.
Proof.
  rewrite check_reg_keys_sigs_unfold. cbv zeta.
  set (ok := KeyChecks.passes is_valid_point verify params).
  assert (ok KeyChecks.PrimarySignature
          = (Nat.eqb (length (sig_ed25519 params)) 64
             && verify (pubkey_ed25519 params) (KeyChecks.signed_message params)
                  (sig_ed25519 params))) as Hsig by reflexivity.
  split; [|split; [|split; [|split; [|split]]]].
  - split.
    + intros H c.
      destruct (ok KeyChecks.PrimaryKey) eqn:H1; [|discriminate].
      destruct (ok KeyChecks.SecondaryKey) eqn:H2; [|discriminate].
      destruct (ok KeyChecks.OperatorAddress) eqn:H3; [|discriminate].
      destruct (ok KeyChecks.ContractAddress) eqn:H4; [|discriminate].
      cbn [negb] in H.
      destruct (Nat.eqb (length (sig_ed25519 params)) 64) eqn:H5; [|discriminate].
      destruct (verify _ _ _) eqn:H6; [|discriminate].
      destruct c; try assumption; rewrite Hsig; reflexivity.
    + intros H. rewrite !H. cbn [negb].
      pose proof (H KeyChecks.PrimarySignature) as H5. rewrite Hsig in H5.
      apply andb_prop in H5. destruct H5 as [-> ->]. reflexivity.
  - split.
    + intros (e & He).
      destruct (ok KeyChecks.PrimaryKey) eqn:H1; [|eauto].
      destruct (ok KeyChecks.SecondaryKey) eqn:H2; [|eauto].
      destruct (ok KeyChecks.OperatorAddress) eqn:H3; [|eauto].
      destruct (ok KeyChecks.ContractAddress) eqn:H4; [|eauto].
      exists KeyChecks.PrimarySignature. rewrite Hsig. cbn [negb] in He.
      destruct (Nat.eqb (length (sig_ed25519 params)) 64); [|reflexivity].
      destruct (verify _ _ _); [discriminate|reflexivity].
    + intros (c & Hc).
      destruct (ok KeyChecks.PrimaryKey) eqn:H1; [|cbn [negb]; eauto].
      destruct (ok KeyChecks.SecondaryKey) eqn:H2; [|cbn [negb]; eauto].
      destruct (ok KeyChecks.OperatorAddress) eqn:H3; [|cbn [negb]; eauto].
      destruct (ok KeyChecks.ContractAddress) eqn:H4; [|cbn [negb]; eauto].
      cbn [negb].
      destruct (Nat.eqb (length (sig_ed25519 params)) 64) eqn:H5;
        [|cbn [negb]; eauto].
      destruct (verify _ _ _) eqn:H6; [|cbn [negb]; eauto].
      destruct c; try congruence. rewrite Hsig in Hc. discriminate.
  - intros c Hne Hc Hbefore.
    destruct c; [| | | |destruct Hne; reflexivity];
      cbn [KeyChecks.rank] in Hbefore;
      repeat match goal with
        | |- context [ok ?c'] =>
            first [ rewrite Hc
                  | rewrite (Hbefore c') by (cbn [KeyChecks.rank]; lia) ];
            cbn [negb]
        end; reflexivity.
  - intros Hfour.
    rewrite (Hfour KeyChecks.PrimaryKey), (Hfour KeyChecks.SecondaryKey),
      (Hfour KeyChecks.OperatorAddress), (Hfour KeyChecks.ContractAddress)
      by discriminate.
    cbn [negb]. split.
    + intros Hlen Hv. rewrite Hlen, Hv. reflexivity.
    + intros Hlen. apply Nat.eqb_neq in Hlen. rewrite Hsig, Hlen.
      split; [reflexivity|]. eexists. split; [reflexivity|].
      intros reason. discriminate.
  - intros c c' H. destruct c, c'; try reflexivity; vm_compute in H; discriminate.
  - reflexivity.
Qed.

Lemma check_reg_keys_sigs_order_witness :
  length (sig_ed25519 Inputs.long_signature_keys) <> 64%nat
  /\ KeyChecks.passes Sample.any_point Sample.any_signature
       Inputs.long_signature_keys KeyChecks.PrimarySignature = false
  /\ exists msg,
       check_reg_keys_sigs Sample.any_point Sample.any_signature
         Inputs.long_signature_keys = Raise (ValueError msg)
       /\ forall reason, ValueError msg <> SNSignatureValidationError reason.
Proof.
  assert (length (sig_ed25519 Inputs.long_signature_keys) <> 64%nat) as Hlen.
  { vm_compute. discriminate. }
  split; [exact Hlen|].
  destruct (check_reg_keys_sigs_order Sample.any_point Sample.any_signature
              Inputs.long_signature_keys) as (_ & _ & _ & Hsig & _).
  apply Hsig; [|exact Hlen].
  intros c Hc. destruct c; try reflexivity. destruct Hc. reflexivity.
Defined.

(** ** The registration store *)

Lemma bytes_eqb_eq (a : bytes) : forall b, bytes_eqb a b = true <-> a = b.
Proof.
  induction a as [|x a IH]; intros [|y b]; cbn [bytes_eqb];
    try (split; [discriminate|congruence]); [split; reflexivity|].
  rewrite andb_true_iff, IH. split.
  - intros [Hxy ->]. apply Byte.byte_dec_bl in Hxy. congruence.
  - intros H. injection H as -> ->. split; [apply Byte.byte_dec_lb|]; reflexivity.
Qed.

Lemma in_slot_key (pk pk' : bytes) (solo solo' : bool) (r : row) :
  Slots.in_slot pk solo r = true -> Slots.in_slot pk' solo' r = true ->
  pk = pk' /\ solo = solo'.
Proof.
  unfold Slots.in_slot. rewrite !andb_true_iff, !bytes_eqb_eq.
  intros [<- H1] [<- H2]. apply eqb_prop in H1, H2. split; congruence.
Qed.

Lemma in_slot_own (r : row) :
  Slots.in_slot (row_pubkey_ed25519 r) (is_null (row_contract r)) r = true.
Proof.
  unfold Slots.in_slot. rewrite eqb_reflx, andb_true_r. apply bytes_eqb_eq.
  reflexivity.
Qed.

Lemma unique_conflict_in_slot (new old : row) :
  unique_conflict new old
  = Slots.in_slot (row_pubkey_ed25519 new) (is_null (row_contract new)) old.
Proof. reflexivity. Qed.

(** [INSERT OR REPLACE] leaves the new row alone in its slot and does not
    touch the other slots. *)
Lemma slot_rows_insert (new : row) (db : table) (pk : bytes) (solo : bool) :
  Slots.slot_rows pk solo (insert_or_replace new db)
  = if Slots.in_slot pk solo new then [new] else Slots.slot_rows pk solo db.
Proof.
  unfold Slots.slot_rows, insert_or_replace. rewrite filter_app. cbn [filter].
  destruct (Slots.in_slot pk solo new) eqn:Hnew.
  - destruct (in_slot_key _ _ _ _ _ Hnew (in_slot_own new)) as [-> ->].
    replace (filter _ (filter _ db)) with (@nil row); [reflexivity|].
    symmetry. induction db as [|r db IH]; [reflexivity|]. cbn [filter].
    rewrite unique_conflict_in_slot.
    destruct (Slots.in_slot _ _ r) eqn:Hr; cbn [negb]; [exact IH|].
    cbn [filter]. rewrite Hr. exact IH.
  - rewrite app_nil_r. induction db as [|r db IH]; [reflexivity|]. cbn [filter].
    rewrite unique_conflict_in_slot.
    destruct (Slots.in_slot _ _ r) eqn:Hr; cbn [negb].
    + destruct (Slots.in_slot pk solo r) eqn:Hr'; [|exact IH].
      destruct (in_slot_key _ _ _ _ _ Hr' Hr) as [-> ->].
      rewrite in_slot_own in Hnew. discriminate.
    + cbn [filter]. rewrite IH. reflexivity.
Qed.

Lemma insert_or_replace_unique (new : row) (db : table) :
  Slots.at_most_one_per_slot db ->
  Slots.at_most_one_per_slot (insert_or_replace new db).
Proof.
  intros Hdb pk solo. rewrite slot_rows_insert.
  destruct (Slots.in_slot pk solo new); [cbn; lia|apply Hdb].
Qed.

(** [ORDER BY timestamp DESC] *)

Lemma insert_desc_length (r : row) (rows : list row) :
  length (insert_desc r rows) = S (length rows).
Proof.
  induction rows as [|r' rows IH]; [reflexivity|]. cbn [insert_desc].
  destruct (_ <? _); cbn [length]; [reflexivity|]. rewrite IH. reflexivity.
Qed.

Lemma insert_desc_count (P : row -> bool) (r : row) (rows : list row) :
  length (filter P (insert_desc r rows)) = length (filter P (r :: rows)).
Proof.
  induction rows as [|r' rows IH]; [reflexivity|]. cbn [insert_desc].
  destruct (_ <? _); [reflexivity|]. cbn [filter] in *.
  destruct (P r'), (P r); cbn [length] in *; lia.
Qed.

Lemma insert_desc_In (r x : row) (rows : list row) :
  In x (insert_desc r rows) <-> x = r \/ In x rows.
Proof.
  induction rows as [|r' rows IH]; cbn [insert_desc].
  - cbn. intuition congruence.
  - destruct (_ <? _); cbn [In] in *; [intuition congruence|].
    rewrite IH. intuition congruence.
Qed.

Lemma order_by_length (rows : list row) :
  length (order_by_timestamp_desc rows) = length rows.
Proof.
  induction rows as [|r rows IH]; [reflexivity|].
  unfold order_by_timestamp_desc in *. cbn [fold_right length].
  rewrite insert_desc_length, IH. reflexivity.
Qed.

Lemma order_by_count (P : row -> bool) (rows : list row) :
  length (filter P (order_by_timestamp_desc rows)) = length (filter P rows).
Proof.
  induction rows as [|r rows IH]; [reflexivity|].
  unfold order_by_timestamp_desc in *. cbn [fold_right].
  rewrite insert_desc_count. cbn [filter].
  destruct (P r); cbn [length]; rewrite IH; reflexivity.
Qed.

Section NewestFirst.

Variable g : row -> registration.
Hypothesis g_timestamp : forall r, reg_timestamp (g r) = row_timestamp r.

Lemma insert_desc_sorted (r : row) (rows : list row) :
  Slots.newest_first (map g rows) ->
  Slots.newest_first (map g (insert_desc r rows)).
Proof.
  induction rows as [|r' rows IH]; intros Hs.
  - cbn. split; [intros ? []|exact I].
  - cbn [insert_desc]. destruct (Z.ltb_spec (row_timestamp r') (row_timestamp r)) as [Hlt|Hge].
    + cbn [map Slots.newest_first] in *. destruct Hs as [Hhd Htl].
      split; [|split; assumption].
      intros x [<-|Hx]; rewrite !g_timestamp; [lia|].
      specialize (Hhd x Hx). rewrite g_timestamp in Hhd. lia.
    + cbn [map Slots.newest_first] in *. destruct Hs as [Hhd Htl].
      split; [|apply IH; exact Htl].
      intros x Hx. apply in_map_iff in Hx. destruct Hx as (y & <- & Hy).
      apply insert_desc_In in Hy. destruct Hy as [->|Hy].
      * rewrite !g_timestamp. lia.
      * apply Hhd. apply in_map. exact Hy.
Qed.

Lemma order_by_sorted (rows : list row) :
  Slots.newest_first (map g (order_by_timestamp_desc rows)).
Proof.
  induction rows as [|r rows IH]; [exact I|].
  unfold order_by_timestamp_desc in *. cbn [fold_right].
  apply insert_desc_sorted. exact IH.
Qed.

End NewestFirst.

Lemma pubkey_rows_split (pk : bytes) (db : table) :
  length (filter (fun r => bytes_eqb (row_pubkey_ed25519 r) pk) db)
  = (length (Slots.slot_rows pk true db) + length (Slots.slot_rows pk false db))%nat.
Proof.
  unfold Slots.slot_rows, Slots.in_slot.
  induction db as [|r db IH]; [reflexivity|]. cbn [filter].
  destruct (bytes_eqb (row_pubkey_ed25519 r) pk); cbn [andb]; [|exact IH].
  destruct (is_null (row_contract r)); cbn [Bool.eqb length]; rewrite IH; lia.
Qed.

Lemma filter_map_length {A B} (P : B -> bool) (f : A -> B) (l : list A) :
  length (filter P (map f l)) = length (filter (fun a => P (f a)) l).
Proof.
  induction l as [|a l IH]; [reflexivity|]. cbn [map filter].
  destruct (P (f a)); cbn [length]; rewrite IH; reflexivity.
Qed.

Lemma filter_filter_length {A} (P Q : A -> bool) (l : list A) :
  length (filter P (filter Q l)) = length (filter (fun a => Q a && P a) l).
Proof.
  induction l as [|a l IH]; [reflexivity|]. cbn [filter].
  destruct (Q a); cbn [andb filter]; [|exact IH].
  destruct (P a); cbn [length]; rewrite IH; reflexivity.
Qed.

(** What [load_registrations] returns from a table with at most one row
    per slot. *)
Lemma load_registrations_spec (db : table) (pk : bytes) :
  Slots.at_most_one_per_slot db ->
  match load_registrations db pk with
  | Return regs =>
      (1 <= length regs <= 2)%nat
      /\ (length (filter Slots.is_solo regs) <= 1)%nat
      /\ (length (filter Slots.is_contract regs) <= 1)%nat
      /\ Slots.newest_first regs
  | Raise e => e = NotFound
  end.
Proof.
  intros Hdb. unfold load_registrations.
  set (g := fun r => registration_of_row pk (row_operator r) r).
  set (rows := filter (fun r => bytes_eqb (row_pubkey_ed25519 r) pk) db).
  destruct (Nat.eqb_spec (length (map g (order_by_timestamp_desc rows))) 0) as [|Hne];
    [reflexivity|].
  rewrite length_map, order_by_length in *.
  pose proof (pubkey_rows_split pk db) as Hsplit. fold rows in Hsplit.
  pose proof (Hdb pk true) as Hsolo. pose proof (Hdb pk false) as Hcontract.
  split; [lia|].
  assert (forall r, Slots.is_solo (g r) = is_null (row_contract r)) as Hgs.
  { intros r. unfold Slots.is_solo, g, registration_of_row. cbn [reg_type].
    destruct (is_null (row_contract r)); [reflexivity|].
    destruct (str_eq_dec _ _) as [E|]; [discriminate E|reflexivity]. }
  assert (forall r, Slots.is_contract (g r) = negb (is_null (row_contract r))) as Hgc.
  { intros r. unfold Slots.is_contract, g, registration_of_row. cbn [reg_type].
    destruct (is_null (row_contract r)); [|reflexivity].
    destruct (str_eq_dec _ _) as [E|]; [discriminate E|reflexivity]. }
  split; [|split].
  - rewrite filter_map_length, order_by_count. unfold rows.
    rewrite filter_filter_length.
    etransitivity; [|exact Hsolo]. apply Nat.eq_le_incl.
    unfold Slots.slot_rows, Slots.in_slot. f_equal. apply filter_ext.
    intros r. rewrite Hgs. destruct (is_null (row_contract r)); reflexivity.
  - rewrite filter_map_length, order_by_count. unfold rows.
    rewrite filter_filter_length.
    etransitivity; [|exact Hcontract]. apply Nat.eq_le_incl.
    unfold Slots.slot_rows, Slots.in_slot. f_equal. apply filter_ext.
    intros r. rewrite Hgc. destruct (is_null (row_contract r)); reflexivity.
  - apply order_by_sorted. reflexivity.
Qed.

Section Store.

Variable is_valid_point : bytes -> bool.
Variable verify : bytes -> bytes -> bytes -> bool.
Variable to_checksum_address : bytes -> str.

Local Abbreviation store :=
  (store_registration is_valid_point verify to_checksum_address).
Local Abbreviation store_run :=
  (store_all is_valid_point verify to_checksum_address).

(** A submission leaves the table as it was or puts one row in with
    [INSERT OR REPLACE]. *)
Lemma store_registration_table (now : Z) (db : table) (sn_pubkey : bytes)
    (parsed : outcome reg_params) :
  fst (store now db sn_pubkey parsed) = db
  \/ exists r, fst (store now db sn_pubkey parsed) = insert_or_replace r db.
Proof.
  unfold store_registration.
  destruct parsed as [params|e]; cbn [bind].
  - destruct (check_reg_keys_sigs _ _ _); cbn [bind fst].
    + right. eauto.
    + left. destruct (isinstance_ValueError e); reflexivity.
  - left. destruct (isinstance_ValueError e); reflexivity.
Qed.

Lemma store_all_unique (subs : list (Z * bytes * outcome reg_params)) :
  forall db, Slots.at_most_one_per_slot db ->
             Slots.at_most_one_per_slot (store_run subs db).
Proof.
  induction subs as [|[[now pk] parsed] subs IH]; intros db Hdb; [exact Hdb|].
  cbn [store_all]. apply IH.
  destruct (store_registration_table now db pk parsed) as [->|[r ->]];
    [exact Hdb|apply insert_or_replace_unique; exact Hdb].
Qed.

(** C8.  After any run of submissions to [/store] from the empty table,
    each slot (pubkey, solo or contract) holds at most one row, and
    [load_registrations] returns for a pubkey one or two registrations, at
    most one solo and at most one contract, newest timestamp first (or 404
    when there is none).  A submission that is stored becomes the only row
    of its slot, stamped with the time of the submission, and leaves the
    other slots as they were. *)
Theorem registrations_dual_slot :
  (forall subs,
     Slots.at_most_one_per_slot (store_run subs [])
     /\ forall pk,
          match load_registrations (store_run subs []) pk with
          | Return regs =>
              (1 <= length regs <= 2)%nat
              /\ (length (filter Slots.is_solo regs) <= 1)%nat
              /\ (length (filter Slots.is_contract regs) <= 1)%nat
              /\ Slots.newest_first regs
          | Raise e => e = NotFound
          end)
  /\ (forall now db pk params db' resp,
        store now db pk (Return params) = (db', Return resp) ->
        exists r,
          row_timestamp r = now
          /\ row_pubkey_ed25519 r = pk
          /\ row_contract r = contract params
          /\ Slots.slot_rows pk (is_null (contract params)) db' = [r]
          /\ forall pk' solo',
               Slots.in_slot pk' solo' r = false ->
               Slots.slot_rows pk' solo' db' = Slots.slot_rows pk' solo' db).
Proof.
  split.
  - intros subs.
    assert (Slots.at_most_one_per_slot (store_run subs [])) as Hu.
    { apply store_all_unique. intros pk solo. cbn. lia. }
    split; [exact Hu|]. intros pk. apply load_registrations_spec. exact Hu.
  - intros now db pk params db' resp H. unfold store_registration in H.
    cbn [bind] in H.
    destruct (check_reg_keys_sigs _ _ _) as [[]|e]; cbn [bind] in H.
    2:{ destruct (isinstance_ValueError e); discriminate. }
    injection H as <- _.
    match goal with |- context [insert_or_replace ?r db] => exists r end.
    split; [reflexivity|]. split; [reflexivity|]. split; [reflexivity|].
    split.
    + rewrite slot_rows_insert.
      match goal with |- context [Slots.in_slot ?p ?s ?r] =>
        change (Slots.in_slot p s r)
          with (Slots.in_slot (row_pubkey_ed25519 r) (is_null (row_contract r)) r)
      end.
      rewrite in_slot_own. reflexivity.
    + intros pk' solo' Hn. rewrite slot_rows_insert, Hn. reflexivity.
Qed.

(** C10.  Where [/store] departs from the claim: a request that fails to
    parse, or whose keys or signature fail a check, leaves [/store] by the
    exception itself, re-raised by the handler; the table is unchanged and
    no error result is ever returned. *)
Theorem store_registration_raises (now : Z) (db : table) (sn_pubkey : bytes) :
  (forall e, store now db sn_pubkey (Raise e) = (db, Raise e))
  /\ (forall params e,
        check_reg_keys_sigs is_valid_point verify
          (set_pubkey_ed25519 sn_pubkey params) = Raise e ->
        store now db sn_pubkey (Return params) = (db, Raise e))
  /\ (forall parsed msg,
        snd (store now db sn_pubkey parsed) <> Return (store_error msg)).
Proof.
  split; [|split].
  - intros e. unfold store_registration. cbn [bind].
    destruct (isinstance_ValueError e); reflexivity.
  - intros params e He. unfold store_registration. cbn [bind]. rewrite He.
    cbn [bind]. destruct (isinstance_ValueError e); reflexivity.
  - intros parsed msg. unfold store_registration.
    destruct parsed as [params|e]; cbn [bind].
    + destruct (check_reg_keys_sigs _ _ _) as [[]|e]; cbn [bind snd].
      * discriminate.
      * destruct (isinstance_ValueError e); discriminate.
    + destruct (isinstance_ValueError e); discriminate.
Qed.

End Store.

Lemma registrations_dual_slot_witness :
  store_registration Sample.any_point Sample.any_signature Sample.plain_checksum
    1700000001 [Sample.stored_row] (Sample.zeros 32)
    (Return (Sample.sample_keys None))
  = ([{| row_pubkey_ed25519 := Sample.zeros 32;
         row_pubkey_bls := Sample.zeros 64;
         row_sig_ed25519 := Sample.zeros 64;
         row_sig_bls := Sample.zeros 128;
         row_operator := Sample.zeros 20;
         row_contract := None;
         row_timestamp := 1700000001 |}],
     Return (stored (lit "solo") (lit "0x") None
               (set_pubkey_ed25519 (Sample.zeros 32) (Sample.sample_keys None))))
  /\ exists r, row_timestamp r = 1700000001
       /\ Slots.slot_rows (Sample.zeros 32) true
            [{| row_pubkey_ed25519 := Sample.zeros 32;
                row_pubkey_bls := Sample.zeros 64;
                row_sig_ed25519 := Sample.zeros 64;
                row_sig_bls := Sample.zeros 128;
                row_operator := Sample.zeros 20;
                row_contract := None;
                row_timestamp := 1700000001 |}] = [r].
Proof.
  assert (store_registration Sample.any_point Sample.any_signature Sample.plain_checksum
            1700000001 [Sample.stored_row] (Sample.zeros 32)
            (Return (Sample.sample_keys None))
          = ([{| row_pubkey_ed25519 := Sample.zeros 32;
                 row_pubkey_bls := Sample.zeros 64;
                 row_sig_ed25519 := Sample.zeros 64;
                 row_sig_bls := Sample.zeros 128;
                 row_operator := Sample.zeros 20;
                 row_contract := None;
                 row_timestamp := 1700000001 |}],
             Return (stored (lit "solo") (lit "0x") None
                       (set_pubkey_ed25519 (Sample.zeros 32) (Sample.sample_keys None)))))
    as Hs by (vm_compute; reflexivity).
  split; [exact Hs|].
  destruct (proj2 (registrations_dual_slot Sample.any_point Sample.any_signature
                     Sample.plain_checksum) _ _ _ _ _ _ Hs)
    as (r & Ht & _ & _ & Hslot & _).
  exists r. split; [exact Ht|exact Hslot].
Defined.

Lemma store_registration_raises_witness :
  check_reg_keys_sigs Sample.any_point Sample.no_signature
    (set_pubkey_ed25519 (Sample.zeros 32) (Sample.sample_keys None))
  = Raise (SNSignatureValidationError (lit "Ed25519 signature is invalid"))
  /\ store_registration Sample.any_point Sample.no_signature Sample.plain_checksum
       1700000001 [] (Sample.zeros 32) (Return (Sample.sample_keys None))
     = ([], Raise (SNSignatureValidationError (lit "Ed25519 signature is invalid"))).
Proof.
  assert (check_reg_keys_sigs Sample.any_point Sample.no_signature
            (set_pubkey_ed25519 (Sample.zeros 32) (Sample.sample_keys None))
          = Raise (SNSignatureValidationError (lit "Ed25519 signature is invalid")))
    as Hc by (vm_compute; reflexivity).
  split; [exact Hc|].
  apply (proj1 (proj2 (store_registration_raises Sample.any_point Sample.no_signature
                         Sample.plain_checksum 1700000001 [] (Sample.zeros 32)))
           _ _ Hc).
Defined.

(** ** [operator_registrations] *)

Lemma scan_nodes_returns (nodes : list node) (sn_pubkey : bytes) :
  (forall n, In n nodes -> exists b, fromhex (node_pubkey_ed25519 n) = Return b) ->
  scan_nodes nodes sn_pubkey = Return tt.
Proof.
  induction nodes as [|n nodes IH]; intros Hhex; [reflexivity|].
  cbn [scan_nodes]. destruct (Hhex n (or_introl eq_refl)) as [b ->]. cbn [bind].
  assert (scan_nodes nodes sn_pubkey = Return tt) as Hrest
    by (apply IH; intros n' Hn'; apply Hhex; right; exact Hn').
  destruct (bytes_eqb b sn_pubkey); [destruct (node_active n)|]; exact Hrest.
Qed.

Lemma operator_rows_all (app_nodes : option (list node)) (op : bytes)
    (cur : list row) :
  (forall nodes, app_nodes = Some nodes ->
     forall n, In n nodes -> exists b, fromhex (node_pubkey_ed25519 n) = Return b) ->
  forall reg_array,
    operator_rows app_nodes op cur reg_array
    = Return (reg_array
              ++ map (fun r => registration_of_row (row_pubkey_ed25519 r) op r) cur).
Proof.
  intros Hhex. induction cur as [|r cur IH]; intros reg_array.
  - cbn. rewrite app_nil_r. reflexivity.
  - cbn [operator_rows map].
    assert (match app_nodes with
            | Some nodes => scan_nodes nodes (row_pubkey_ed25519 r)
            | None => Return tt
            end = Return tt) as ->.
    { destruct app_nodes as [nodes|]; [|reflexivity].
      apply scan_nodes_returns. apply Hhex. reflexivity. }
    cbn [bind]. rewrite IH, <- app_assoc. reflexivity.
Qed.

(** C9.  Where [operator_registrations] departs from the claim: whatever
    nodes the latest snapshot holds, active or not, the listing is every
    stored registration of the operator wallet, newest first.  The scan of
    the snapshot drops nothing. *)
Theorem operator_registrations_keeps_active (db : table) (nodes : list node)
    (op : str) (op_bytes : bytes) :
  fromhex (skipn 2 op) = Return op_bytes ->
  (forall n, In n nodes -> exists b, fromhex (node_pubkey_ed25519 n) = Return b) ->
  operator_registrations db (Some nodes) op
  = Return (map (fun r => registration_of_row (row_pubkey_ed25519 r) op_bytes r)
              (order_by_timestamp_desc
                 (filter (fun r => bytes_eqb (row_operator r) op_bytes) db))).
Proof.
  intros Hop Hhex. unfold operator_registrations. rewrite Hop. cbn [bind].
  rewrite operator_rows_all; [reflexivity|].
  intros nodes' E. injection E as <-. exact Hhex.
Qed.

Lemma operator_registrations_keeps_active_witness :
  fromhex (node_pubkey_ed25519 Sample.active_node)
  = Return (row_pubkey_ed25519 Sample.stored_row)
  /\ node_active Sample.active_node = true
  /\ operator_registrations [Sample.stored_row] (Some [Sample.active_node])
       Sample.operator_wallet
     = Return [registration_of_row (Sample.zeros 32) (Sample.zeros 20)
                 Sample.stored_row].
Proof.
  split; [vm_compute; reflexivity|]. split; [reflexivity|].
  assert (fromhex (skipn 2 Sample.operator_wallet) = Return (Sample.zeros 20)) as Hop
    by (vm_compute; reflexivity).
  rewrite (operator_registrations_keeps_active [Sample.stored_row]
             [Sample.active_node] Sample.operator_wallet (Sample.zeros 20) Hop).
  - vm_compute. reflexivity.
  - intros n [<-|[]]. exists (Sample.zeros 32). vm_compute. reflexivity.
Defined.

(** ** Worked examples *)

Example format_currency_whole_units :
  format_currency Sent.MAX_STAKE 9 = lit "120".
Proof. vm_compute. reflexivity. Qed.

Example format_currency_fraction :
  format_currency 1500000000 9 = lit "1.5"
  /\ format_currency 1000000023 9 = lit "1.000000023".
Proof. vm_compute. split; reflexivity. Qed.

Example parse_currency_pads_and_truncates :
  parse_currency (lit "stake") (lit "1.23") 9 = Return 1230000000
  /\ parse_currency (lit "stake") (lit "1.23456") 2 = Return 123
  /\ parse_currency (lit "stake") (lit "1.234") 2 = Return 123.
Proof. vm_compute. repeat split; reflexivity. Qed.

Example parse_currency_rejects :
  parse_currency (lit "stake") (lit "1.2.3") 9
  = Raise (ParseError (lit "stake") (lit "Invalid currency amount"))
  /\ parse_currency (lit "stake") (lit "1,5") 9
     = Raise (ParseError (lit "stake") (lit "Invalid currency amount"))
  /\ parse_currency (lit "stake") (lit ".5") 9
     = Raise (ParseError (lit "stake") (lit "Invalid currency amount")).
Proof. vm_compute. repeat split; reflexivity. Qed.

(** The scenario of C1 at the requirement [sent.py] itself hard-codes
    (120_000000000 atomic units, 10 stakers): the same shape, a thousand
    times smaller. *)
Example validate_scenario_source_constants :
  Sent.MIN_OP_STAKE = 30000000000
  /\ validate_stakes Sent.MAX_STAKE Sent.MAX_STAKERS Sample.plain_checksum false
       30000000000 []
     = Return (success (Some (90000000000, 9, 10000000000)))
  /\ validate_stakes Sent.MAX_STAKE Sent.MAX_STAKERS Sample.plain_checksum false
       30000000000 [(Sample.zeros 20, 9999999999)]
     = Return (error_response (insufficient_res_stake 1 (lit "0x") 10000000000))
  /\ validate_stakes Sent.MAX_STAKE Sent.MAX_STAKERS Sample.plain_checksum false
       30000000000 [(Sample.zeros 20, 10000000000)]
     = Return (success (Some (80000000000, 8, 10000000000)))
  /\ validate_stakes Sent.MAX_STAKE Sent.MAX_STAKERS Sample.plain_checksum false
       30000000000000 []
     = Return (error_response (too_much 30000000000000 Sent.MAX_STAKE)).
Proof. vm_compute. repeat split; reflexivity. Qed.

(** ** The endpoint from end to end *)

Section Endpoint.

Variables MAX_STAKE MAX_STAKERS : Z.
Variable is_valid_point : bytes -> bool.
Variable verify : bytes -> bytes -> bytes -> bool.
Variable is_address : str -> bool.
Variable to_checksum_address : bytes -> str.
Variable to_checksum_address_text : str -> option str.

(** A multi-contributor request whose keys, fee and reserved lists are in
    order gets the answer of the stake stage. *)
Lemma validate_registration_stake_stage (params : validate_params)
    (c : bytes) (reserved : list (bytes * Z)) :
  check_reg_keys_sigs is_valid_point verify (keys params) = Return tt ->
  contract (keys params) = Some c ->
  check_fee false (fee params) = None ->
  length (res_addr params) = length (res_stake params) ->
  parse_reserved is_address to_checksum_address_text 0
    (combine (res_addr params) (res_stake params)) = Return (inr reserved) ->
  validate_registration MAX_STAKE MAX_STAKERS is_valid_point verify is_address
    to_checksum_address to_checksum_address_text params
  = validate_stakes MAX_STAKE MAX_STAKERS to_checksum_address false
      (stake params) reserved.
Proof.
  intros Hkeys Hc Hfee Hlen Hres. unfold validate_registration.
  rewrite Hkeys, Hc. cbn [andb]. rewrite Hfee.
  replace (len (res_addr params) =? len (res_stake params)) with true
    by (symmetry; apply Z.eqb_eq; unfold len; congruence).
  cbn [negb]. rewrite Hres. reflexivity.
Qed.

End Endpoint.

Example validate_registration_runs :
  validate_registration Sent.MAX_STAKE Sent.MAX_STAKERS
    Sample.any_point Sample.any_signature Sample.any_address
    Sample.plain_checksum Sample.plain_checksum_text
    (Sample.multi_request [lit "10"; lit "45.000000001"])
  = Return (success (Some (34999999999, 7, 5000000000)))
  /\ validate_registration Sent.MAX_STAKE Sent.MAX_STAKERS
       Sample.any_point Sample.any_signature Sample.any_address
       Sample.plain_checksum Sample.plain_checksum_text
       (Sample.multi_request [lit "10"; lit "9.999999999"])
     = Return (error_response (insufficient_res_stake 2 (lit "0x") 10000000000))
  /\ validate_registration Sent.MAX_STAKE Sent.MAX_STAKERS
       Sample.any_point Sample.no_signature Sample.any_address
       Sample.plain_checksum Sample.plain_checksum_text
       (Sample.multi_request [lit "10"])
     = Return (error_response (signature (lit "Ed25519 signature is invalid"))).
Proof. vm_compute. repeat split; reflexivity. Qed.

(** Ten contributors in all, each at its minimum: the request of C5. *)
Example validate_registration_full_plan :
  validate_registration Sent.MAX_STAKE Sent.MAX_STAKERS
    Sample.any_point Sample.any_signature Sample.any_address
    Sample.plain_checksum Sample.plain_checksum_text
    (Sample.multi_request (repeat (lit "10") 9))
  = Raise ZeroDivisionError.
Proof. vm_compute. reflexivity. Qed.

(** A request without a contract address, at exactly the requirement and
    one unit off on either side: the requests of C2. *)
Example validate_registration_solo :
  forall stake,
    In stake [Sent.MAX_STAKE; Sent.MAX_STAKE - 1; Sent.MAX_STAKE + 1] ->
    validate_registration Sent.MAX_STAKE Sent.MAX_STAKERS
      Sample.any_point Sample.any_signature Sample.any_address
      Sample.plain_checksum Sample.plain_checksum_text
      (Sample.solo_request stake)
    = Return (error_response
        (invalid_fee (lit "fee is required for a multi-contribution registration"))).
Proof.
  intros stake [<-|[<-|[<-|[]]]]; vm_compute; reflexivity.
Qed.

(** A signature of 66 bytes: the [ValueError] of the signature library
    leaves [/validate], which catches [SNSignatureValidationError] only,
    and no "signature" error is answered. *)
Example validate_registration_long_signature :
  validate_registration Sent.MAX_STAKE Sent.MAX_STAKERS
    Sample.any_point Sample.any_signature Sample.any_address
    Sample.plain_checksum Sample.plain_checksum_text
    {| keys := Inputs.long_signature_keys;
       stake := Sent.MAX_STAKE;
       res_addr := [];
       res_stake := [];
       fee := None |}
  = Raise (ValueError (lit "The signature must be exactly 64 bytes long")).
Proof. vm_compute. reflexivity. Qed.

(** * Further properties *)

(** ** Hexadecimal text *)

Lemma fromhex_hex_byte (x : Byte.byte) (rest : str) :
  fromhex (hex_digit (Byte.to_N x / 16) :: hex_digit (Byte.to_N x mod 16) :: rest)
  = (r <- fromhex rest ;; Return (x :: r)).
Proof. destruct x; reflexivity. Qed.

(** X1.  The pubkey converter of the routes is lossless on bytes: turning a
    byte string into its URL text with [to_url] and back with [to_python]
    returns the byte string. *)
Theorem hex64_to_python_to_url (b : bytes) :
  Hex64Converter.to_python (Hex64Converter.to_url b) = Return b.
Proof.
  unfold Hex64Converter.to_python, Hex64Converter.to_url.
  induction b as [|x b IH]; [reflexivity|].
  cbn [hex]. rewrite fromhex_hex_byte, IH. reflexivity.
Qed.

Lemma hexdigit_facts (c : ascii) :
  is_hexdigit c = true ->
  is_space c = false /\ exists h, hex_val c = Some h /\ (h < 16)%N.
Proof.
  intros H.
  destruct c as [[] [] [] [] [] [] [] []]; try discriminate H;
    (split; [reflexivity|eexists; split; reflexivity]).
Qed.

Lemma fromhex_hexdigits (n : nat) : forall s,
  length s = (2 * n)%nat -> forallb is_hexdigit s = true ->
  exists b, fromhex s = Return b /\ length b = n.
Proof.
  induction n as [|n IH]; intros s Hl Hd.
  - destruct s; [|discriminate Hl]. exists []. split; reflexivity.
  - destruct s as [|c [|d s]]; try (cbn in Hl; lia).
    cbn [forallb] in Hd. apply andb_prop in Hd. destruct Hd as [Hc Hd].
    apply andb_prop in Hd. destruct Hd as [Hd Hs].
    destruct (hexdigit_facts c Hc) as (Hsp & h & Hh & Hhb).
    destruct (hexdigit_facts d Hd) as (_ & l & Hl' & Hlb).
    destruct (IH s ltac:(cbn in Hl; lia) Hs) as (b & Hb & Hbl).
    cbn [fromhex]. rewrite Hsp, Hh, Hl'.
    destruct (Byte.of_N (16 * h + l)) as [x|] eqn:Hx.
    + rewrite Hb. cbn [bind]. exists (x :: b). split; [reflexivity|cbn; lia].
    + apply Byte.of_N_None_iff in Hx. lia.
Qed.

(** X2.  Every path text that the converter's pattern lets through (64
    hexadecimal digits) is turned by [to_python] into exactly 32 bytes: the
    conversion does not fail and the pubkey that [store_registration] and
    [load_registrations] receive has the size of an Ed25519 key. *)
Theorem hex64_to_python_32_bytes (value : str) :
  Hex64Converter.regex_fullmatch value = true ->
  exists b, Hex64Converter.to_python value = Return b /\ length b = 32%nat.
Proof.
  unfold Hex64Converter.regex_fullmatch, Hex64Converter.to_python.
  intros H. apply andb_prop in H. destruct H as [Hl Hd].
  apply Nat.eqb_eq in Hl. apply fromhex_hexdigits; [rewrite Hl; reflexivity|exact Hd].
Qed.

Lemma hex64_to_python_32_bytes_witness :
  Hex64Converter.regex_fullmatch (repeat "a"%char 64) = true
  /\ exists b, Hex64Converter.to_python (repeat "a"%char 64) = Return b
               /\ length b = 32%nat.
Proof.
  split; [reflexivity|].
  apply (hex64_to_python_32_bytes (repeat "a"%char 64)). reflexivity.
Defined.

(** ** [raw_eth_addr] *)

Section RawEthAddr.

Variable is_address : str -> bool.

Lemma raw_eth_addr_returns_20 (k v : str) (b : bytes) :
  raw_eth_addr is_address k v = Return b -> length b = 20%nat.
Proof.
  unfold raw_eth_addr.
  destruct (eth_re_fullmatch v) eqn:Hre; [|discriminate].
  destruct (is_address v); cbn [negb]; [|discriminate].
  unfold eth_re_fullmatch in Hre.
  destruct v as [|c0 [|cx rest]]; try discriminate Hre.
  apply andb_prop in Hre. destruct Hre as [Hre Hd].
  apply andb_prop in Hre. destruct Hre as [_ Hl]. apply Nat.eqb_eq in Hl.
  cbn [skipn].
  destruct (fromhex_hexdigits 20 rest ltac:(rewrite Hl; reflexivity) Hd)
    as (b' & -> & Hb).
  intros H. injection H as <-. exact Hb.
Qed.

(** X3.  [raw_eth_addr] returns only addresses of exactly 20 bytes, and
    only for text that matches [0x] followed by 40 hexadecimal digits and
    passes the checksum test; any other text raises [ParseError] under the
    field it was given, "not an ETH address" when the pattern fails and
    "ETH address checksum failed" when only the checksum does. *)
Theorem raw_eth_addr_outcomes (k v : str) :
  match raw_eth_addr is_address k v with
  | Return b =>
      length b = 20%nat /\ eth_re_fullmatch v = true /\ is_address v = true
  | Raise e =>
      (eth_re_fullmatch v = false
       /\ e = ParseError k (lit "not an ETH address"))
      \/ (eth_re_fullmatch v = true /\ is_address v = false
          /\ e = ParseError k (lit "ETH address checksum failed"))
  end.
Proof.
  destruct (raw_eth_addr is_address k v) as [b|e] eqn:Hr.
  - split; [apply (raw_eth_addr_returns_20 k v b Hr)|].
    unfold raw_eth_addr in Hr.
    destruct (eth_re_fullmatch v); [|discriminate Hr].
    destruct (is_address v); [split; reflexivity|discriminate Hr].
  - unfold raw_eth_addr in Hr.
    destruct (eth_re_fullmatch v) eqn:Hre.
    + destruct (is_address v) eqn:Ha; cbn [negb] in Hr.
      * exfalso. unfold eth_re_fullmatch in Hre.
        destruct v as [|c0 [|cx rest]]; try discriminate Hre.
        apply andb_prop in Hre. destruct Hre as [Hre Hd].
        apply andb_prop in Hre. destruct Hre as [_ Hl]. apply Nat.eqb_eq in Hl.
        destruct (fromhex_hexdigits 20 rest ltac:(rewrite Hl; reflexivity) Hd)
          as (b' & Hb' & _).
        cbn [skipn] in Hr. rewrite Hb' in Hr. discriminate Hr.
      * injection Hr as <-. right. repeat split.
    + injection Hr as <-. left. split; reflexivity.
Qed.

End RawEthAddr.

(** ** The checks on parsed parameters *)

(** X4.  When the pubkey comes from the URL converter and the operator and
    contract addresses from [raw_eth_addr], as in [store_registration], the
    checks of [check_reg_keys_sigs] on their sizes cannot fail.  It raises
    in four cases only: a validation error for a pubkey that is no valid
    point, for a BLS pubkey that is not 64 bytes long and for a signature
    of 64 bytes that does not verify, and the [ValueError] of the
    signature library for a signature that is not 64 bytes long. *)
Theorem check_reg_keys_sigs_on_parsed (is_valid_point : bytes -> bool)
    (verify : bytes -> bytes -> bytes -> bool) (is_address : str -> bool)
    (value operator_text : str) (params : reg_params) (e : exn) :
  Hex64Converter.regex_fullmatch value = true ->
  Hex64Converter.to_python value = Return (pubkey_ed25519 params) ->
  raw_eth_addr is_address (lit "operator") operator_text = Return (operator params) ->
  (forall c, contract params = Some c ->
     exists contract_text,
       raw_eth_addr is_address (lit "contract") contract_text = Return c) ->
  check_reg_keys_sigs is_valid_point verify params = Raise e ->
  (e = SNSignatureValidationError (lit "Ed25519 pubkey is invalid")
   /\ is_valid_point (pubkey_ed25519 params) = false)
  \/ (e = SNSignatureValidationError (lit "BLS pubkey is invalid")
      /\ length (pubkey_bls params) <> 64%nat)
  \/ ((exists msg, e = ValueError msg)
      /\ length (sig_ed25519 params) <> 64%nat)
  \/ (e = SNSignatureValidationError (lit "Ed25519 signature is invalid")
      /\ length (sig_ed25519 params) = 64%nat
      /\ verify (pubkey_ed25519 params)
           (pubkey_ed25519 params ++ pubkey_bls params) (sig_ed25519 params)
         = false).
Proof.
  intros Hre Hpk Hop Hc.
  assert (length (pubkey_ed25519 params) = 32%nat) as Hbl.
  { unfold Hex64Converter.regex_fullmatch in Hre. apply andb_prop in Hre.
    destruct Hre as [Hl Hd]. apply Nat.eqb_eq in Hl.
    destruct (fromhex_hexdigits 32 value ltac:(rewrite Hl; reflexivity) Hd)
      as (b & Hb & Hbl).
    unfold Hex64Converter.to_python in Hpk. rewrite Hpk in Hb.
    injection Hb as <-. exact Hbl. }
  pose proof (raw_eth_addr_returns_20 is_address _ _ _ Hop) as Hol.
  assert (match contract params with
          | Some c => Nat.eqb (length c) 20
          | None => true
          end = true) as Hcl.
  { destruct (contract params) as [c|]; [|reflexivity].
    destruct (Hc c eq_refl) as (t & Ht).
    rewrite (raw_eth_addr_returns_20 is_address _ _ _ Ht). reflexivity. }
  rewrite check_reg_keys_sigs_unfold. cbv zeta.
  unfold KeyChecks.passes, KeyChecks.signed_message. rewrite Hbl, Hol, Hcl.
  cbn [Nat.eqb andb negb].
  destruct (is_valid_point (pubkey_ed25519 params)) eqn:Hv; cbn [negb].
  2:{ intros H. injection H as <-. left. split; reflexivity. }
  destruct (Nat.eqb_spec (length (pubkey_bls params)) 64) as [|Hne]; cbn [negb].
  2:{ intros H. injection H as <-. right. left. split; [reflexivity|exact Hne]. }
  destruct (Nat.eqb_spec (length (sig_ed25519 params)) 64) as [Hsl|Hsl];
    cbn [negb].
  2:{ intros H. injection H as <-. right. right. left.
      split; [eexists; reflexivity|exact Hsl]. }
  destruct (verify _ _ _) eqn:Hs; cbn [negb]; [discriminate|].
  intros H. injection H as <-. right. right. right. repeat split; assumption.
Qed.

Lemma check_reg_keys_sigs_on_parsed_witness :
  check_reg_keys_sigs Sample.any_point Sample.no_signature (Sample.sample_keys None)
  = Raise (SNSignatureValidationError (lit "Ed25519 signature is invalid"))
  /\ Sample.no_signature (Sample.zeros 32) (Sample.zeros 32 ++ Sample.zeros 64)
       (Sample.zeros 64) = false.
Proof.
  assert (check_reg_keys_sigs Sample.any_point Sample.no_signature
            (Sample.sample_keys None)
          = Raise (SNSignatureValidationError (lit "Ed25519 signature is invalid")))
    as He by (vm_compute; reflexivity).
  split; [exact He|].
  destruct (check_reg_keys_sigs_on_parsed Sample.any_point Sample.no_signature
              Sample.any_address (repeat "0"%char 64) Sample.operator_wallet
              (Sample.sample_keys None) _
              ltac:(reflexivity) ltac:(vm_compute; reflexivity)
              ltac:(vm_compute; reflexivity)
              ltac:(intros c Hc; discriminate Hc) He)
    as [[_ H]|[[_ H]|[[_ H]|[_ [_ H]]]]].
  - discriminate H.
  - exfalso. apply H. reflexivity.
  - exfalso. apply H. reflexivity.
  - exact H.
Defined.

(** ** More on the currency codec *)

Lemma fullmatch_digits_inv (s : str) :
  fullmatch_digits s = true -> s <> [] /\ forallb is_digit s = true.
Proof.
  unfold fullmatch_digits. intros H. apply andb_prop in H. destruct H as [Hn Hd].
  split; [|exact Hd]. intros ->. discriminate Hn.
Qed.

Lemma digits_value_nonneg (s : str) : forall a, 0 <= a -> 0 <= digits_value a s.
Proof.
  induction s as [|c s IH]; intros a Ha; [exact Ha|].
  cbn [digits_value]. apply IH. unfold digit_val. lia.
Qed.

Lemma split_inv (sep : ascii) (s : str) :
  (forall p, split sep s = [p] -> s = p)
  /\ (forall p q, split sep s = [p; q] -> s = p ++ sep :: q)
  /\ split sep s <> [].
Proof.
  induction s as [|x s (IH1 & IH2 & IH3)]; cbn [split].
  - repeat split; try discriminate. intros p H. injection H as <-. reflexivity.
  - destruct (Ascii.eqb_spec x sep) as [->|Hne].
    + split; [|split; [|discriminate]].
      * intros p H. injection H as _ H. contradiction.
      * intros p q H. injection H as <- H. rewrite (IH1 _ H). reflexivity.
    + destruct (split sep s) as [|p0 ps] eqn:Hs; [contradiction|].
      split; [|split; [|discriminate]].
      * intros p H. injection H as <- ->. rewrite (IH1 _ eq_refl). reflexivity.
      * intros p q H. injection H as <- ->. rewrite (IH2 _ _ eq_refl). reflexivity.
Qed.

Lemma firstn_repeat_le (c : ascii) (n : nat) : forall k,
  (k <= n)%nat -> firstn k (repeat c n) = repeat c k.
Proof.
  induction n as [|n IH]; intros [|k] Hk; try reflexivity; [lia|].
  cbn [repeat firstn]. rewrite IH by lia. reflexivity.
Qed.

(** The fractional digits as [parse_currency] reads them: the first
    [decimal] of them, zeros filling what is missing. *)
Lemma fraction_digits (d : nat) (f : str) :
  (if (d <? length f)%nat then firstn d f
   else if (length f <? d)%nat then ljust d zero f
   else f) = firstn d (f ++ repeat zero d).
Proof.
  rewrite firstn_app.
  destruct (Nat.ltb_spec d (length f)) as [Hlt|Hge].
  - replace (d - length f)%nat with 0%nat by lia.
    cbn [firstn]. rewrite app_nil_r. reflexivity.
  - rewrite (firstn_all2 f) by lia. rewrite firstn_repeat_le by lia.
    destruct (Nat.ltb_spec (length f) d) as [Hlt|Hge']; [reflexivity|].
    replace (d - length f)%nat with 0%nat by lia. cbn [repeat].
    rewrite app_nil_r. reflexivity.
Qed.

Lemma parse_currency_pieces (k w f : str) (d : nat) :
  fullmatch_digits w = true -> fullmatch_digits f = true ->
  parse_currency k (w ++ dot :: f) d
  = (frac <- int_of_str (firstn d (f ++ repeat zero d)) ;;
     Return (digits_value 0 w * 10 ^ Z.of_nat d + frac)).
Proof.
  intros Hw Hf.
  destruct (fullmatch_digits_inv w Hw) as [Hwn Hwd].
  destruct (fullmatch_digits_inv f Hf) as [Hfn Hfd].
  unfold parse_currency.
  rewrite split_app_sep by (apply digits_no_dot; exact Hwd).
  rewrite split_no_sep by (apply digits_no_dot; exact Hfd).
  cbn [length forallb nth tl]. rewrite Hw, Hf.
  change (2 <? 2)%nat with false. cbn [andb negb orb].
  unfold int_of_str at 1. rewrite Hw. cbn [bind].
  rewrite fraction_digits. reflexivity.
Qed.

Lemma int_of_fraction (d : nat) (f : str) :
  (1 <= d)%nat -> forallb is_digit f = true ->
  int_of_str (firstn d (f ++ repeat zero d))
  = Return (digits_value 0 (firstn d (f ++ repeat zero d))).
Proof.
  intros Hd Hf. apply int_of_str_digits.
  - intros E. apply (f_equal (@length ascii)) in E.
    rewrite length_firstn, length_app, repeat_length in E. cbn in E. lia.
  - assert (forallb is_digit (f ++ repeat zero d) = true) as Hall.
    { rewrite forallb_app, Hf. cbn [andb]. apply forallb_forall.
      intros c Hc. apply repeat_spec in Hc. subst c. reflexivity. }
    rewrite <- (firstn_skipn d (f ++ repeat zero d)), forallb_app in Hall.
    apply andb_prop in Hall. tauto.
Qed.

Lemma parse_currency_fraction (k w f : str) (d : nat) :
  (1 <= d)%nat ->
  fullmatch_digits w = true -> fullmatch_digits f = true ->
  parse_currency k (w ++ dot :: f) d
  = Return (digits_value 0 w * 10 ^ Z.of_nat d
            + digits_value 0 (firstn d (f ++ repeat zero d))).
Proof.
  intros Hd Hw Hf. rewrite parse_currency_pieces by assumption.
  rewrite int_of_fraction by (try assumption; apply fullmatch_digits_inv; assumption).
  reflexivity.
Qed.

(** X5.  What [parse_currency] computes on well-formed text, for one or
    more decimals: "w" is [w] whole units; "w.f" is [w] whole units plus
    the first [decimal] digits of [f], zeros standing for missing ones.
    Digits beyond the [decimal]-th are dropped, not rounded. *)
Theorem parse_currency_value (k w f g : str) (d : nat) :
  (1 <= d)%nat ->
  fullmatch_digits w = true -> fullmatch_digits f = true ->
  forallb is_digit g = true ->
  parse_currency k w d = Return (digits_value 0 w * 10 ^ Z.of_nat d)
  /\ parse_currency k (w ++ dot :: f) d
     = Return (digits_value 0 w * 10 ^ Z.of_nat d
               + digits_value 0 (firstn d (f ++ repeat zero d)))
  /\ ((d <= length f)%nat ->
      parse_currency k (w ++ dot :: f ++ g) d = parse_currency k (w ++ dot :: f) d).
Proof.
  intros Hd Hw Hf Hg.
  destruct (fullmatch_digits_inv w Hw) as [Hwn Hwd].
  destruct (fullmatch_digits_inv f Hf) as [Hfn Hfd].
  split; [|split].
  - unfold parse_currency.
    rewrite split_no_sep by (apply digits_no_dot; exact Hwd).
    cbn [length forallb nth tl]. rewrite Hw.
    change (2 <? 1)%nat with false. cbn [andb negb orb].
    unfold int_of_str. rewrite Hw. cbn [bind]. f_equal. lia.
  - apply parse_currency_fraction; assumption.
  - intros Hlen.
    assert (fullmatch_digits (f ++ g) = true) as Hfg.
    { apply fullmatch_digits_intro.
      - intros E. apply app_eq_nil in E. tauto.
      - rewrite forallb_app, Hfd, Hg. reflexivity. }
    rewrite !parse_currency_pieces by assumption.
    rewrite <- app_assoc, !firstn_app.
    replace (d - length f)%nat with 0%nat by lia. reflexivity.
Qed.

Lemma parse_currency_value_witness :
  parse_currency (lit "stake") (lit "1.23456") 2 = Return 123
  /\ parse_currency (lit "stake") (lit "1.23" ++ lit "456") 2
     = parse_currency (lit "stake") (lit "1.23") 2.
Proof.
  destruct (parse_currency_value (lit "stake") (lit "1") (lit "23") (lit "456") 2
              ltac:(lia) eq_refl eq_refl eq_refl) as (_ & _ & Htrunc).
  split; [|exact (Htrunc ltac:(cbn; lia))].
  destruct (parse_currency_value (lit "stake") (lit "1") (lit "23456") [] 2
              ltac:(lia) eq_refl eq_refl eq_refl) as (_ & Hv & _).
  exact Hv.
Defined.

Lemma int_limited_within (max_str_digits : nat) (s : str) :
  exceeds_limit max_str_digits (length s) = false ->
  int_limited max_str_digits s = int_of_str s.
Proof. unfold int_limited. intros ->. rewrite andb_false_r. reflexivity. Qed.

Lemma int_limited_beyond (max_str_digits : nat) (s : str) :
  fullmatch_digits s = true ->
  exceeds_limit max_str_digits (length s) = true ->
  exists msg, int_limited max_str_digits s = Raise (ValueError msg).
Proof. unfold int_limited. intros -> ->. eexists. reflexivity. Qed.

Lemma exceeds_limit_none (digits : nat) : exceeds_limit 0 digits = false.
Proof.
  unfold exceeds_limit. change (0 <? 0)%nat with false.
  rewrite andb_false_r. reflexivity.
Qed.

Lemma parse_currency_limited_none (k val : str) (d : nat) :
  parse_currency_limited 0 k val d = parse_currency k val d.
Proof.
  unfold parse_currency_limited, parse_currency.
  destruct (_ || _); [reflexivity|].
  rewrite int_limited_within by apply exceeds_limit_none.
  destruct (int_of_str _); cbn [bind]; [|reflexivity].
  destruct (tl (split dot val)); [reflexivity|].
  rewrite int_limited_within by apply exceeds_limit_none. reflexivity.
Qed.

(** X6.  What leaves [parse_currency], for one or more decimals and an
    interpreter whose limit on decimal conversions is [max_str_digits]
    (0 for none), on text of characters below code point 256, where the
    only digits are 0 to 9.  It returns a non-negative amount, and then
    the text was digits or digits, a point and digits; or it raises
    [ParseError] under the field it was given with the reason "Invalid
    currency amount"; or, on well-formed text whose whole part (or whose
    cut or padded fraction, of [decimal] digits) has more digits than the
    limit allows, it lets the [ValueError] of [int] escape, which is no
    [ParseError].  Without a limit only the first two are left. *)
Theorem parse_currency_outcomes (max_str_digits : nat) (k val : str) (d : nat) :
  (1 <= d)%nat ->
  match parse_currency_limited max_str_digits k val d with
  | Return n =>
      0 <= n
      /\ (fullmatch_digits val = true
          \/ exists w f, val = w ++ dot :: f
               /\ fullmatch_digits w = true /\ fullmatch_digits f = true)
  | Raise e =>
      e = ParseError k (lit "Invalid currency amount")
      \/ exists msg,
           e = ValueError msg
           /\ ((fullmatch_digits val = true
                /\ exceeds_limit max_str_digits (length val) = true)
               \/ exists w f,
                    val = w ++ dot :: f
                    /\ fullmatch_digits w = true /\ fullmatch_digits f = true
                    /\ (exceeds_limit max_str_digits (length w) = true
                        \/ exceeds_limit max_str_digits d = true))
  end.
Proof.
  intros Hd. unfold parse_currency_limited.
  assert (0 < 10 ^ Z.of_nat d) as Hpow by (apply Z.pow_pos_nonneg; lia).
  destruct (split_inv dot val) as (H1 & H2 & H3).
  destruct (split dot val) as [|p [|q [|r rest]]] eqn:Hs; [contradiction| | |].
  - cbn [length forallb nth tl]. change (2 <? 1)%nat with false.
    destruct (fullmatch_digits p) eqn:Hp; cbn [andb negb orb]; [|left; reflexivity].
    rewrite (H1 p eq_refl).
    destruct (exceeds_limit max_str_digits (length p)) eqn:Hx.
    + destruct (int_limited_beyond _ _ Hp Hx) as [msg ->]. cbn [bind].
      right. exists msg. split; [reflexivity|]. left.
      split; first [assumption|reflexivity].
    + rewrite (int_limited_within _ _ Hx). unfold int_of_str. rewrite Hp.
      cbn [bind]. split; [|left; first [exact Hp|reflexivity]].
      pose proof (digits_value_nonneg p 0 ltac:(lia)). nia.
  - cbn [length forallb nth tl]. change (2 <? 2)%nat with false.
    destruct (fullmatch_digits p) eqn:Hp; cbn [andb negb orb]; [|left; reflexivity].
    destruct (fullmatch_digits q) eqn:Hq; cbn [andb negb orb]; [|left; reflexivity].
    rewrite (H2 p q eq_refl). rewrite fraction_digits.
    destruct (exceeds_limit max_str_digits (length p)) eqn:Hx.
    { destruct (int_limited_beyond _ _ Hp Hx) as [msg ->]. cbn [bind].
      right. exists msg. split; [reflexivity|]. right. exists p, q.
      split; [reflexivity|]. split; [first [assumption|reflexivity]|].
      split; [first [assumption|reflexivity]|].
      left. first [assumption|reflexivity]. }
    rewrite (int_limited_within _ _ Hx). unfold int_of_str at 1. rewrite Hp.
    cbn [bind].
    assert (length (firstn d (q ++ repeat zero d)) = d) as Hlen.
    { rewrite length_firstn, length_app, repeat_length. lia. }
    assert (fullmatch_digits (firstn d (q ++ repeat zero d)) = true) as Hfd.
    { apply fullmatch_digits_intro.
      - intros E. rewrite E in Hlen. cbn in Hlen. lia.
      - assert (forallb is_digit (q ++ repeat zero d) = true) as Hall.
        { rewrite forallb_app. destruct (fullmatch_digits_inv q Hq) as [_ ->].
          cbn [andb]. apply forallb_forall.
          intros c Hc. apply repeat_spec in Hc. subst c. reflexivity. }
        rewrite <- (firstn_skipn d (q ++ repeat zero d)), forallb_app in Hall.
        apply andb_prop in Hall. tauto. }
    destruct (exceeds_limit max_str_digits d) eqn:Hxd.
    { destruct (int_limited_beyond max_str_digits _ Hfd) as [msg ->];
        [rewrite Hlen; exact Hxd|]. cbn [bind].
      right. exists msg. split; [reflexivity|]. right. exists p, q.
      split; [reflexivity|]. split; [first [assumption|reflexivity]|].
      split; [first [assumption|reflexivity]|].
      right. first [assumption|reflexivity]. }
    rewrite int_limited_within by (rewrite Hlen; exact Hxd).
    unfold int_of_str. rewrite Hfd. cbn [bind].
    split; [|right; exists p, q; split; [reflexivity|];
             split; first [assumption|reflexivity]].
    pose proof (digits_value_nonneg p 0 ltac:(lia)).
    pose proof (digits_value_nonneg (firstn d (q ++ repeat zero d)) 0 ltac:(lia)).
    nia.
  - cbn [length]. left. reflexivity.
Qed.

Lemma parse_currency_outcomes_witness :
  parse_currency_limited 4300 (lit "stake") (lit "12a") 9
  = Raise (ParseError (lit "stake") (lit "Invalid currency amount")).
Proof.
  pose proof (parse_currency_outcomes 4300 (lit "stake") (lit "12a") 9 ltac:(lia))
    as H.
  destruct (parse_currency_limited 4300 (lit "stake") (lit "12a") 9) as [n|e] eqn:E.
  - vm_compute in E. discriminate E.
  - destruct H as [->|(msg & -> & _)]; [reflexivity|].
    vm_compute in E. discriminate E.
Defined.

(** X7.  With no decimals at all, text with a fractional part is not
    truncated: the empty fraction that is left goes to [int] and the
    [ValueError] of [int] escapes in place of a [ParseError]. *)
Theorem parse_currency_no_decimals (k w f : str) :
  fullmatch_digits w = true -> fullmatch_digits f = true ->
  exists msg, parse_currency k (w ++ dot :: f) 0 = Raise (ValueError msg)
              /\ parse_currency k w 0 = Return (digits_value 0 w).
Proof.
  intros Hw Hf. eexists. split.
  - rewrite parse_currency_pieces by assumption. cbn [firstn]. reflexivity.
  - destruct (fullmatch_digits_inv w Hw) as [Hwn Hwd].
    unfold parse_currency.
    rewrite split_no_sep by (apply digits_no_dot; exact Hwd).
    cbn [length forallb nth tl]. rewrite Hw.
    change (2 <? 1)%nat with false. cbn [andb negb orb].
    unfold int_of_str. rewrite Hw. cbn [bind]. f_equal.
    change (10 ^ Z.of_nat 0) with 1. lia.
Qed.

Lemma parse_currency_no_decimals_witness :
  exists msg, parse_currency (lit "stake") (lit "1.5") 0 = Raise (ValueError msg)
              /\ parse_currency (lit "stake") (lit "1") 0 = Return 1.
Proof.
  exact (parse_currency_no_decimals (lit "stake") (lit "1") (lit "5") eq_refl eq_refl).
Defined.

Lemma rstrip_last (c d0 : ascii) (s : str) :
  rstrip c s <> [] -> last (rstrip c s) d0 <> c.
Proof.
  induction s as [|x s IH]; cbn [rstrip]; [congruence|].
  destruct (rstrip c s) as [|y r] eqn:Hr.
  - destruct (Ascii.eqb_spec x c) as [|Hne]; [congruence|]. intros _. exact Hne.
  - intros _. change (last (x :: y :: r) d0) with (last (y :: r) d0).
    apply IH. discriminate.
Qed.

(** X8.  The shape of what [format_currency] prints for a non-negative
    amount: the whole units alone when nothing is left over them, and
    otherwise the whole units, a point and between one and [decimal]
    digits of which the last is not 0.  It never ends in a point or in a
    superfluous zero. *)
Theorem format_currency_shape (x : Z) (d : nat) :
  0 <= x ->
  (x mod 10 ^ Z.of_nat d = 0
   /\ format_currency x d = str_of_int (x / 10 ^ Z.of_nat d))
  \/ (x mod 10 ^ Z.of_nat d <> 0
      /\ exists F,
           format_currency x d = str_of_int (x / 10 ^ Z.of_nat d) ++ dot :: F
           /\ (1 <= length F <= d)%nat
           /\ forallb is_digit F = true
           /\ last F dot <> zero).
Proof.
  intros Hx.
  assert (0 < 10 ^ Z.of_nat d) as Hb by (apply Z.pow_pos_nonneg; lia).
  pose proof (Z.mod_pos_bound x _ Hb) as Hr.
  destruct (Z.eq_dec (x mod 10 ^ Z.of_nat d) 0) as [Hz|Hnz].
  - left. split; [exact Hz|]. apply format_currency_whole. exact Hz.
  - right. split; [exact Hnz|].
    assert (1 <= d)%nat as Hd.
    { destruct d; [|lia]. cbn in Hnz. rewrite Z.mod_1_r in Hnz. lia. }
    set (p := zero_pad d (x mod 10 ^ Z.of_nat d)).
    exists (rstrip zero p). rewrite format_currency_frac by exact Hnz. fold p.
    split; [reflexivity|].
    assert (length p = d) as Hpl by (apply zero_pad_length; [lia|exact Hd]).
    assert (rstrip zero p <> []) as Hne.
    { intros E. apply rstrip_nil_value in E. unfold p in E.
      rewrite zero_pad_value in E by lia. lia. }
    pose proof (rstrip_ljust zero p) as [_ Hle]. rewrite Hpl in Hle.
    split; [|split].
    + split; [|exact Hle]. destruct (rstrip zero p); [congruence|cbn; lia].
    + apply rstrip_forallb. apply zero_pad_digits. lia.
    + apply rstrip_last. exact Hne.
Qed.

Lemma format_currency_shape_witness :
  1500000000 mod 10 ^ Z.of_nat 9 <> 0
  /\ exists F, format_currency 1500000000 9
               = str_of_int (1500000000 / 10 ^ Z.of_nat 9) ++ dot :: F
               /\ (1 <= length F <= 9)%nat
               /\ forallb is_digit F = true
               /\ last F dot <> zero.
Proof.
  destruct (format_currency_shape 1500000000 9 ltac:(lia)) as [[Hz _]|H].
  - vm_compute in Hz. discriminate Hz.
  - exact H.
Defined.

(** ** [parse_int_field] *)

Lemma digit_char_val (c : ascii) :
  is_digit c = true -> digit_char (digit_val c) = c /\ 0 <= digit_val c <= 9.
Proof.
  unfold is_digit, digit_char, digit_val. intros H.
  apply andb_prop in H. destruct H as [H1 H2].
  apply Nat.leb_le in H1, H2. split; [|lia].
  rewrite Nat2Z.id. replace (48 + (nat_of_ascii c - 48))%nat with (nat_of_ascii c) by lia.
  apply ascii_nat_embedding.
Qed.

Lemma digits_value_ge (s : str) : forall a, 0 <= a -> a <= digits_value a s.
Proof.
  induction s as [|c s IH]; intros a Ha; [cbn; lia|].
  cbn [digits_value]. specialize (IH (10 * a + digit_val c)).
  unfold digit_val in *. lia.
Qed.

(** Text in the canonical form: digits, at least one, no leading zero
    before another digit. *)
Lemma digits_fuel_canonical (s : str) : forall f,
  s <> [] -> forallb is_digit s = true ->
  ((1 < length s)%nat -> hd zero s <> zero) ->
  (1 <= f)%nat -> digits_value 0 s < 10 ^ Z.of_nat f ->
  digits_fuel f (digits_value 0 s) [] = s.
Proof.
  induction s as [|c s' IH] using rev_ind; intros f Hne Hd Hlead Hf Hv; [congruence|].
  rewrite forallb_app in Hd. apply andb_prop in Hd. destruct Hd as [Hd' Hc].
  cbn [forallb] in Hc. rewrite andb_true_r in Hc.
  destruct (digit_char_val c Hc) as [Hcc Hcr].
  rewrite digits_value_app in *. cbn [digits_value] in *.
  destruct f as [|f]; [lia|]. rewrite digits_fuel_step.
  destruct s' as [|c0 t].
  - cbn [digits_value] in *.
    replace (10 * 0 + digit_val c) with (digit_val c) in * by lia.
    destruct (Z.ltb_spec (digit_val c) 10); [|lia].
    rewrite Z.mod_small by lia. rewrite Hcc. reflexivity.
  - assert (hd zero (c0 :: t) <> zero) as Hc0.
    { apply Hlead. rewrite length_app. cbn. lia. }
    cbn [hd] in Hc0.
    assert (is_digit c0 = true) as Hd0 by (cbn [forallb] in Hd'; apply andb_prop in Hd'; tauto).
    destruct (digit_char_val c0 Hd0) as [Hcc0 Hcr0].
    assert (1 <= digits_value 0 (c0 :: t)) as Hge.
    { cbn [digits_value]. pose proof (digits_value_ge t (10 * 0 + digit_val c0) ltac:(lia)).
      assert (digit_val c0 <> 0); [|lia].
      intros E. rewrite E in Hcc0. apply Hc0. rewrite <- Hcc0. reflexivity. }
    set (v' := digits_value 0 (c0 :: t)) in *.
    destruct (Z.ltb_spec (10 * v' + digit_val c) 10); [lia|].
    replace ((10 * v' + digit_val c) / 10) with v'
      by (apply Z.div_unique with (r := digit_val c); lia).
    replace ((10 * v' + digit_val c) mod 10) with (digit_val c)
      by (apply Z.mod_unique with (q := v'); lia).
    rewrite Hcc. f_equal.
    rewrite Nat2Z.inj_succ, Z.pow_succ_r in Hv by lia.
    assert (v' < 10 ^ Z.of_nat f) as Hv' by lia.
    apply IH; try assumption; [discriminate| |].
    + intros _. exact Hc0.
    + destruct f; [cbn in Hv'; lia|lia].
Qed.

Lemma str_of_int_canonical (s : str) :
  s <> [] -> forallb is_digit s = true ->
  ((1 < length s)%nat -> hd zero s <> zero) ->
  str_of_int (digits_value 0 s) = s.
Proof.
  intros Hne Hd Hlead.
  pose proof (digits_value_nonneg s 0 ltac:(lia)) as Hv.
  rewrite str_of_int_nonneg by exact Hv. unfold str_of_nonneg.
  apply digits_fuel_canonical; try assumption; [lia|].
  apply fuel_enough. exact Hv.
Qed.

Lemma digits_fuel_lead (f : nat) : forall m,
  1 <= m < 10 ^ Z.of_nat f -> hd zero (digits_fuel f m []) <> zero.
Proof.
  induction f as [|f IH]; intros m Hm; [cbn in Hm; lia|].
  rewrite digits_fuel_step. destruct (Z.ltb_spec m 10) as [Hlt|Hge].
  - cbn [hd]. rewrite Z.mod_small by lia. intros E.
    pose proof (digit_val_char m ltac:(lia)) as Hv. rewrite E in Hv.
    vm_compute in Hv. lia.
  - rewrite Nat2Z.inj_succ, Z.pow_succ_r in Hm by lia.
    assert (1 <= m / 10 < 10 ^ Z.of_nat f) as Hq.
    { split; [apply Z.div_le_lower_bound; lia|apply Z.div_lt_upper_bound; lia]. }
    specialize (IH _ Hq).
    destruct (digits_fuel f (m / 10) []) as [|y r] eqn:E; [|exact IH].
    destruct f; [cbn in Hq; lia|].
    rewrite digits_fuel_step in E. destruct (_ <? _); [discriminate E|].
    apply app_eq_nil in E. destruct E as [_ E]. discriminate E.
Qed.

(** X9.  [parse_int_field], under an interpreter whose limit on decimal
    conversions is [max_str_digits] (0 for none), returns [n] exactly for
    the text that is the plain decimal writing of [n] (no sign, no leading
    zero, no padding) with [n] inside the inclusive range it was given and
    no more digits than the limit allows.  Such a writing of more digits
    raises the [ValueError] of [int], which is no [ParseError]; every
    other text that is refused raises [ParseError] under the field. *)
Theorem parse_int_field_accepts (max_str_digits : nat) (k v : str)
    (imin imax n : Z) :
  (parse_int_field max_str_digits k v (imin, imax) = Return n
   <-> v = str_of_int n /\ 0 <= n /\ imin <= n <= imax
       /\ exceeds_limit max_str_digits (length v) = false)
  /\ (v = str_of_int n -> 0 <= n ->
      exceeds_limit max_str_digits (length v) = true ->
      exists msg,
        parse_int_field max_str_digits k v (imin, imax) = Raise (ValueError msg))
  /\ (forall e, parse_int_field max_str_digits k v (imin, imax) = Raise e ->
        (exists reason, e = ParseError k reason)
        \/ (exists msg m,
              e = ValueError msg /\ v = str_of_int m /\ 0 <= m
              /\ exceeds_limit max_str_digits (length v) = true)).
Proof.
  assert (forall m, 0 <= m ->
            Nat.eqb (length (str_of_int m)) 0
            || negb (forallb is_digit (str_of_int m))
            || ((1 <? length (str_of_int m))%nat
                && Ascii.eqb (hd zero (str_of_int m)) zero) = false) as Hguard.
  { intros m Hm. pose proof (str_of_int_nonempty m Hm) as Hne.
    replace (Nat.eqb (length (str_of_int m)) 0) with false
      by (destruct (str_of_int m); [congruence|reflexivity]).
    rewrite str_of_int_digits by exact Hm. cbn [negb orb].
    destruct (Z.eq_dec m 0) as [->|Hnz]; [reflexivity|].
    apply andb_false_iff. right. apply Ascii.eqb_neq.
    rewrite str_of_int_nonneg by exact Hm. apply digits_fuel_lead.
    split; [lia|apply fuel_enough; exact Hm]. }
  assert (Nat.eqb (length v) 0 || negb (forallb is_digit v)
          || ((1 <? length v)%nat && Ascii.eqb (hd zero v) zero) = false ->
          fullmatch_digits v = true /\ v = str_of_int (digits_value 0 v)
          /\ 0 <= digits_value 0 v) as Hcanon.
  { intros Hg. apply orb_false_iff in Hg. destruct Hg as [Hg Hz].
    apply orb_false_iff in Hg. destruct Hg as [Hl Hd].
    apply Nat.eqb_neq in Hl. apply negb_false_iff in Hd.
    assert (v <> []) as Hne by (intros ->; apply Hl; reflexivity).
    split; [apply fullmatch_digits_intro; assumption|].
    split; [|apply digits_value_nonneg; lia].
    symmetry. apply str_of_int_canonical; [exact Hne|exact Hd|].
    intros Hlen Hhd. apply andb_false_iff in Hz. destruct Hz as [Hz|Hz].
    - apply Nat.ltb_ge in Hz. lia.
    - rewrite Hhd, Ascii.eqb_refl in Hz. discriminate Hz. }
  unfold parse_int_field. split; [|split].
  - split.
    + destruct (_ || _) eqn:Hg; [discriminate|].
      destruct (Hcanon eq_refl) as (Hfm & Hv & Hnn).
      destruct (exceeds_limit max_str_digits (length v)) eqn:Hx.
      { destruct (int_limited_beyond _ _ Hfm Hx) as [msg ->]. discriminate. }
      rewrite (int_limited_within _ _ Hx). unfold int_of_str. rewrite Hfm.
      cbn [bind].
      destruct (Z.leb_spec imin (digits_value 0 v)) as [Hlo|]; cbn [andb];
        [|discriminate].
      destruct (Z.leb_spec (digits_value 0 v) imax) as [Hhi|]; [|discriminate].
      intros Hret. injection Hret as <-. repeat split; assumption || lia.
    + intros (-> & Hn & [Hmin Hmax] & Hx).
      rewrite (Hguard n Hn). rewrite (int_limited_within _ _ Hx).
      unfold int_of_str. rewrite (fullmatch_str_of_int n Hn). cbn [bind].
      rewrite str_of_int_value by exact Hn.
      replace (imin <=? n) with true by (symmetry; apply Z.leb_le; lia).
      replace (n <=? imax) with true by (symmetry; apply Z.leb_le; lia).
      reflexivity.
  - intros -> Hn Hx. rewrite (Hguard n Hn).
    destruct (int_limited_beyond _ _ (fullmatch_str_of_int n Hn) Hx) as [msg ->].
    exists msg. reflexivity.
  - intros e H.
    destruct (_ || _) eqn:Hg; [injection H as <-; left; eauto|].
    destruct (Hcanon eq_refl) as (Hfm & Hv & Hnn).
    destruct (exceeds_limit max_str_digits (length v)) eqn:Hx.
    + destruct (int_limited_beyond _ _ Hfm Hx) as [msg Hm]. rewrite Hm in H.
      cbn [bind] in H. injection H as <-. right.
      exists msg, (digits_value 0 v). auto.
    + rewrite (int_limited_within _ _ Hx) in H. unfold int_of_str in H.
      rewrite Hfm in H. cbn [bind] in H.
      destruct ((imin <=? digits_value 0 v) && (digits_value 0 v <=? imax));
        [discriminate|]. injection H as <-. left. eauto.
Qed.

Lemma parse_int_field_accepts_witness :
  parse_int_field 4300 (lit "fee") (lit "10000") (0, 10000) = Return 10000
  /\ exists reason,
       parse_int_field 4300 (lit "fee") (lit "010") (0, 10000)
       = Raise (ParseError (lit "fee") reason).
Proof.
  split.
  - apply (proj2 (proj1 (parse_int_field_accepts 4300 (lit "fee") (lit "10000")
                           0 10000 10000))).
    split; [reflexivity|]. split; [lia|]. split; [lia|reflexivity].
  - destruct (parse_int_field 4300 (lit "fee") (lit "010") (0, 10000)) as [n|e] eqn:E.
    + vm_compute in E. discriminate E.
    + destruct (proj2 (proj2 (parse_int_field_accepts 4300 (lit "fee") (lit "010")
                                0 10000 0)) e E)
        as [(reason & ->)|(msg & m & -> & _)].
      * exists reason. reflexivity.
      * vm_compute in E. discriminate E.
Defined.

(** ** More on the stake checkers *)

(** X10.  [check_stakes] never divides by zero and raises nothing but
    [ValueError], whatever it is called with (also zero or negative
    [max_stakers]); and a plan it accepts has passed every structural
    check: as many stakers as stakes, at least one and at most
    [max_stakers], a sum within the total and no staker twice. *)
Theorem check_stakes_outcomes (stakes : list Z) (total : Z) (stakers : list str)
    (max_stakers : Z) :
  (check_stakes stakes total stakers max_stakers = Return tt
   /\ Rule.pre_checks stakes total stakers max_stakers)
  \/ exists msg, check_stakes stakes total stakers max_stakers
                 = Raise (ValueError msg).
Proof.
  unfold check_stakes.
  destruct (Z.eqb_spec (len stakers) (len stakes)) as [Hlen|]; cbn [negb];
    [|right; eauto].
  destruct (Z.ltb_spec (len stakers) 1) as [|Hne]; [right; eauto|].
  destruct (Z.gtb_spec (len stakers) max_stakers) as [|Hmax]; [right; eauto|].
  destruct (Z.gtb_spec (sum stakes) total) as [|Hsum]; [right; eauto|].
  destruct (Z.eqb_spec (len_set stakers) (len stakers)) as [Hnd|]; cbn [negb];
    [|right; eauto].
  destruct (check_stakes_loop_spec stakes 0 total max_stakers ltac:(lia))
    as [[Hr _]|[Hr _]]; change (Z.of_nat 0) with 0 in Hr; rewrite Hr.
  - left. split; [reflexivity|]. unfold Rule.pre_checks, len in *.
    repeat split; try lia. apply len_set_NoDup. exact Hnd.
  - right. eauto.
Qed.

Section StakeStage.

Variables MAX_STAKE MAX_STAKERS : Z.
Variable to_checksum_address : bytes -> str.

Local Abbreviation stage :=
  (validate_stakes MAX_STAKE MAX_STAKERS to_checksum_address).

(** X11.  The stake stage of [/validate], up to the point where it hands
    its answer to [error_response] or [json_response], on reserved
    addresses of 20 bytes as the parsing loop hands them on.  Its own
    computation raises in one case only: a multi-contributor registration
    past the operator, total and count checks in which every reserved
    contributor meets its minimum and every spot is taken; what it raises
    then is [ZeroDivisionError].  In every other case it reaches one of
    its [return] statements, with an error code and its fields or with the
    success result.  What [error_response] and [json_response] then do
    with the answer (formatting the amounts, serialising, fetching the
    network info) is outside the statement; formatting an amount of more
    digits than the interpreter's limit allows raises there. *)
Theorem validate_stakes_raises_iff (solo : bool) (stake : Z)
    (reserved : list (bytes * Z)) (e : exn) :
  Forall (fun r => length (fst r) = 20%nat) reserved ->
  stage solo stake reserved = Raise e
  <-> solo = false
      /\ Rule.multi_checks MAX_STAKE MAX_STAKERS stake reserved
      /\ (forall j, (j < length reserved)%nat ->
            Rule.loop_min (MAX_STAKE - stake) (MAX_STAKERS - 1) reserved j
            <= snd (nth j reserved ([], 0)))
      /\ 1 + len reserved = MAX_STAKERS
      /\ e = ZeroDivisionError.
Proof.
  intros _. split.
  - intros H. destruct solo.
    + unfold validate_stakes in H. destruct (negb _); discriminate H.
    + split; [reflexivity|]. unfold validate_stakes, MIN_OP_STAKE in H.
      destruct (Z.ltb_spec stake (MAX_STAKE / 4)) as [|Hop]; [discriminate|].
      destruct (Z.gtb_spec (stake + sum (map snd reserved)) MAX_STAKE) as [|Htot];
        [discriminate|].
      destruct (Z.gtb_spec (1 + len reserved) MAX_STAKERS) as [|Hcnt]; [discriminate|].
      assert (Rule.multi_checks MAX_STAKE MAX_STAKERS stake reserved) as Hc
        by (repeat split; lia).
      split; [exact Hc|].
      destruct (reserved_loop_spec to_checksum_address reserved 0
                  (MAX_STAKE - stake) (MAX_STAKERS - 1) ltac:(lia))
        as [[Hret Hall]|(j & a & m & _ & _ & _ & Hret)];
        change (Z.of_nat 0) with 0 in Hret; rewrite Hret in H; cbn [bind] in H;
        [|discriminate].
      split; [exact Hall|]. unfold floordiv in H.
      destruct (Z.eqb_spec (MAX_STAKERS - 1 - len reserved) 0) as [Hz|];
        [|discriminate].
      injection H as <-. split; [lia|reflexivity].
  - intros (-> & Hc & Hall & Hfull & ->).
    apply validate_full_plan_raises; assumption.
Qed.

End StakeStage.

Lemma validate_stakes_raises_iff_witness :
  validate_stakes Sent.MAX_STAKE Sent.MAX_STAKERS Sample.plain_checksum false
    30000000000 Sample.full_plan = Raise ZeroDivisionError
  /\ 1 + len Sample.full_plan = Sent.MAX_STAKERS.
Proof.
  assert (validate_stakes Sent.MAX_STAKE Sent.MAX_STAKERS Sample.plain_checksum false
            30000000000 Sample.full_plan = Raise ZeroDivisionError) as Hr
    by (vm_compute; reflexivity).
  split; [exact Hr|].
  assert (Forall (fun r : bytes * Z => length (fst r) = 20%nat) Sample.full_plan)
    as Haddr by (repeat constructor).
  destruct (proj1 (validate_stakes_raises_iff Sent.MAX_STAKE Sent.MAX_STAKERS
                     Sample.plain_checksum false 30000000000 Sample.full_plan
                     ZeroDivisionError Haddr) Hr) as (_ & _ & _ & Hfull & _).
  exact Hfull.
Defined.

(** ** More on [/validate] *)

Lemma int_of_str_nonneg (s : str) (n : Z) : int_of_str s = Return n -> 0 <= n.
Proof.
  unfold int_of_str. destruct (fullmatch_digits s); [|discriminate].
  intros H. injection H as <-. apply digits_value_nonneg. lia.
Qed.

Lemma int_of_str_raise (s : str) (e : exn) :
  int_of_str s = Raise e -> isinstance_ValueError e = true.
Proof.
  unfold int_of_str. destruct (fullmatch_digits s); [discriminate|].
  intros H. injection H as <-. reflexivity.
Qed.

Lemma parse_currency_return_nonneg (k val : str) (d : nat) (n : Z) :
  parse_currency k val d = Return n -> 0 <= n.
Proof.
  unfold parse_currency. destruct (_ || _); [discriminate|].
  destruct (int_of_str (nth 0 (split dot val) [])) as [whole|] eqn:Hw;
    cbn [bind]; [|discriminate].
  apply int_of_str_nonneg in Hw.
  assert (0 < 10 ^ Z.of_nat d) by (apply Z.pow_pos_nonneg; lia).
  destruct (tl (split dot val)) as [|f rest]; cbn [bind].
  - intros H'. injection H' as <-. nia.
  - destruct (int_of_str _) as [frac|] eqn:Hf; cbn [bind]; [|discriminate].
    apply int_of_str_nonneg in Hf. intros H'. injection H' as <-. nia.
Qed.

Lemma parse_currency_raise_kind (k val : str) (d : nat) (e : exn) :
  parse_currency k val d = Raise e -> isinstance_ValueError e = true.
Proof.
  unfold parse_currency.
  destruct (_ || _); [intros H; injection H as <-; reflexivity|].
  destruct (int_of_str (nth 0 (split dot val) [])) as [whole|e0] eqn:Hw; cbn [bind].
  - destruct (tl (split dot val)) as [|f rest]; cbn [bind]; [discriminate|].
    match goal with
    | |- context [int_of_str ?x] => destruct (int_of_str x) as [frac|e1] eqn:Hf
    end; cbn [bind]; [discriminate|].
    intros H. injection H as <-. exact (int_of_str_raise _ _ Hf).
  - intros H. injection H as <-. exact (int_of_str_raise _ _ Hw).
Qed.

Lemma fromhex_pair (c d : ascii) (s : str) :
  fromhex (c :: d :: s) =
  if is_space c then fromhex (d :: s)
  else match hex_val c, hex_val d with
       | Some h, Some l =>
           match Byte.of_N (16 * h + l) with
           | Some b => rest <- fromhex s ;; Return (b :: rest)
           | None => Raise (ValueError (lit "non-hexadecimal number found in fromhex() arg"))
           end
       | _, _ => Raise (ValueError (lit "non-hexadecimal number found in fromhex() arg"))
       end.
Proof. reflexivity. Qed.

Lemma fromhex_single (c : ascii) :
  fromhex [c] =
  if is_space c then Return []
  else Raise (ValueError (lit "non-hexadecimal number found in fromhex() arg")).
Proof. reflexivity. Qed.

Lemma fromhex_raise_kind_bounded (n : nat) : forall s e,
  (length s <= n)%nat -> fromhex s = Raise e -> isinstance_ValueError e = true.
Proof.
  induction n as [|n IH]; intros s e Hl.
  - destruct s; [discriminate|cbn in Hl; lia].
  - destruct s as [|c [|d s]].
    + discriminate.
    + rewrite fromhex_single. destruct (is_space c); [discriminate|].
      intros H. injection H as <-. reflexivity.
    + rewrite fromhex_pair. destruct (is_space c).
      * apply IH. cbn in *. lia.
      * destruct (hex_val c), (hex_val d);
          try (intros H; injection H as <-; reflexivity).
        destruct (Byte.of_N _); [|intros H; injection H as <-; reflexivity].
        destruct (fromhex s) as [r|e'] eqn:Hs; cbn [bind]; [discriminate|].
        intros H. injection H as <-. apply (IH s); [cbn in *; lia|exact Hs].
Qed.

Lemma fromhex_raise_kind (s : str) (e : exn) :
  fromhex s = Raise e -> isinstance_ValueError e = true.
Proof. apply (fromhex_raise_kind_bounded (length s)). lia. Qed.

Section ValidateEndpoint.

Variables MAX_STAKE MAX_STAKERS : Z.
Variable is_valid_point : bytes -> bool.
Variable verify : bytes -> bytes -> bytes -> bool.
Variable is_address : str -> bool.
Variable to_checksum_address : bytes -> str.
Variable to_checksum_address_text : str -> option str.

Local Abbreviation endpoint :=
  (validate_registration MAX_STAKE MAX_STAKERS is_valid_point verify
     is_address to_checksum_address to_checksum_address_text).
Local Abbreviation reserved_of :=
  (parse_reserved is_address to_checksum_address_text).

Lemma raw_eth_addr_raise_kind (k v : str) (e : exn) :
  raw_eth_addr is_address k v = Raise e -> isinstance_ValueError e = true.
Proof.
  unfold raw_eth_addr. destruct (eth_re_fullmatch v).
  - destruct (negb _); [intros H; injection H as <-; reflexivity|].
    apply fromhex_raise_kind.
  - intros H. injection H as <-. reflexivity.
Qed.

(** X12.  What the loop that parses the reserved contributors hands on.
    When it succeeds there is one entry for each address and stake given,
    every address 20 bytes long and no amount negative.  When it answers
    with an error, that is [invalid_res_addr] or [invalid_res_stake] under
    the 1-based position of an entry.  The one exception it can raise is
    the [TypeError] of [eth_format]. *)
Theorem parse_reserved_outcomes (pairs : list (str * str)) : forall i,
  match reserved_of i pairs with
  | Return (inr reserved) =>
      length reserved = length pairs
      /\ Forall (fun r => length (fst r) = 20%nat /\ 0 <= snd r) reserved
  | Return (inl e) =>
      exists address j,
        i + 1 <= j <= i + len pairs
        /\ (e = invalid_res_addr address j \/ e = invalid_res_stake address j)
  | Raise e => exists msg, e = TypeError msg
  end.
Proof.
  induction pairs as [|[addr stake] rest IH]; intros i.
  - cbn. split; [reflexivity|constructor].
  - cbn [parse_reserved]. unfold len. cbn [length].
    destruct (raw_eth_addr is_address (lit "res_addr") addr) as [eth|e] eqn:Ha.
    + destruct (parse_currency (lit "res_stake") stake 9) as [amt|e] eqn:Hs.
      * specialize (IH (i + 1)).
        destruct (reserved_of (i + 1) rest) as [[e|reserved]|e]; cbn [bind].
        -- destruct IH as (address & j & Hj & He). exists address, j.
           split; [unfold len in Hj; lia|exact He].
        -- destruct IH as (Hl & Hall). split; [cbn; lia|].
           constructor; [|exact Hall]. cbn [fst snd].
           split; [exact (raw_eth_addr_returns_20 is_address _ _ _ Ha)|].
           exact (parse_currency_return_nonneg _ _ _ _ Hs).
        -- exact IH.
      * rewrite (parse_currency_raise_kind _ _ _ _ Hs).
        unfold eth_format_text. destruct (to_checksum_address_text addr) as [a|];
          cbn [bind]; [|eauto].
        exists a, (i + 1). split; [lia|right; reflexivity].
    + rewrite (raw_eth_addr_raise_kind _ _ _ Ha).
      unfold eth_format_text. destruct (to_checksum_address_text addr) as [a|];
        cbn [bind]; [|eauto].
      exists a, (i + 1). split; [lia|left; reflexivity].
Qed.

(** X13.  What [/validate] reports with a success.  Only a registration
    with a contract address succeeds, and its report carries the stake
    that is still unfilled, the spots still open and the minimum of the
    next contributor: the unfilled stake is what operator and reserved
    contributors leave of [MAX_STAKE] and is not negative, one spot at
    least is open, and the minimum is the unfilled stake divided by the
    open spots, rounded up. *)
Theorem validate_success_report (params : validate_params)
    (r : option (Z * Z * Z)) :
  endpoint params = Return (success r) ->
  contract (keys params) <> None
  /\ exists reserved remaining_stake remaining_spots remaining_min,
       reserved_of 0 (combine (res_addr params) (res_stake params))
       = Return (inr reserved)
       /\ r = Some (remaining_stake, remaining_spots, remaining_min)
       /\ stake params + sum (map snd reserved) + remaining_stake = MAX_STAKE
       /\ 0 <= remaining_stake
       /\ remaining_spots = MAX_STAKERS - 1 - len reserved
       /\ 1 <= remaining_spots
       /\ Rule.is_ceiling remaining_stake remaining_spots remaining_min.
Proof.
  unfold validate_registration.
  destruct (check_reg_keys_sigs _ _ _) as [[]|e]; [|destruct e; discriminate].
  destruct (contract (keys params)) as [c|] eqn:Hc.
  2:{ cbn [andb]. destruct (negb _); [discriminate|].
      destruct (check_fee_solo (fee params)) as (detail & ->). discriminate. }
  cbn [andb]. destruct (check_fee false (fee params)); [discriminate|].
  destruct (negb _); [discriminate|].
  destruct (reserved_of 0 _) as [[e|reserved]|e] eqn:Hres; cbn [bind];
    try discriminate.
  intros Hs. split; [discriminate|].
  destruct (validate_success_inv _ _ _ _ _ _ Hs) as (Hchk & Hall & Hspare).
  rewrite (validate_accepts _ _ _ _ _ Hchk Hall Hspare) in Hs.
  injection Hs as <-.
  do 4 eexists. split; [reflexivity|]. split; [reflexivity|].
  pose proof (remaining_nonneg _ _ _ _ Hchk Hall Hspare 0 (length reserved)
                ltac:(lia)) as Hnn.
  unfold Rule.remaining_stake_at in Hnn.
  rewrite <- (length_map snd reserved), firstn_all in Hnn.
  split; [lia|]. split; [lia|]. split; [reflexivity|]. split; [lia|].
  apply ceiling_division. lia.
Qed.


End ValidateEndpoint.

Lemma validate_success_report_witness :
  validate_registration Sent.MAX_STAKE Sent.MAX_STAKERS
    Sample.any_point Sample.any_signature Sample.any_address
    Sample.plain_checksum Sample.plain_checksum_text
    (Sample.multi_request [lit "10"; lit "45.000000001"])
  = Return (success (Some (34999999999, 7, 5000000000)))
  /\ contract (keys (Sample.multi_request [lit "10"; lit "45.000000001"])) <> None.
Proof.
  assert (validate_registration Sent.MAX_STAKE Sent.MAX_STAKERS
            Sample.any_point Sample.any_signature Sample.any_address
            Sample.plain_checksum Sample.plain_checksum_text
            (Sample.multi_request [lit "10"; lit "45.000000001"])
          = Return (success (Some (34999999999, 7, 5000000000)))) as Hs
    by (vm_compute; reflexivity).
  split; [exact Hs|].
  exact (proj1 (validate_success_report Sent.MAX_STAKE Sent.MAX_STAKERS
                  Sample.any_point Sample.any_signature Sample.any_address
                  Sample.plain_checksum Sample.plain_checksum_text _ _ Hs)).
Defined.


(** ** More on the registration store *)

Lemma order_by_In (x : row) (rows : list row) :
  In x (order_by_timestamp_desc rows) <-> In x rows.
Proof.
  induction rows as [|r rows IH]; [reflexivity|].
  unfold order_by_timestamp_desc in *. cbn [fold_right].
  rewrite insert_desc_In, IH. cbn [In]. intuition congruence.
Qed.

Section StoreMore.

Variable is_valid_point : bytes -> bool.
Variable verify : bytes -> bytes -> bytes -> bool.
Variable to_checksum_address : bytes -> str.

Local Abbreviation store :=
  (store_registration is_valid_point verify to_checksum_address).

(** X15.  What [/store] has stored, [/registrations/<pubkey>] gives back:
    after a submission that succeeds, [load_registrations] for the same
    pubkey returns a list (no 404) that holds the registration just made,
    with the keys, signatures, operator and contract submitted, its type
    and the time of the submission. *)
Theorem store_then_load (now : Z) (db db' : table) (sn_pubkey : bytes)
    (params : reg_params) (resp : store_response) :
  store now db sn_pubkey (Return params) = (db', Return resp) ->
  exists regs,
    load_registrations db' sn_pubkey = Return regs
    /\ In {| reg_type := if is_null (contract params)
                         then lit "solo" else lit "contract";
             reg_pubkey_ed25519 := sn_pubkey;
             reg_pubkey_bls := pubkey_bls params;
             reg_sig_ed25519 := sig_ed25519 params;
             reg_sig_bls := sig_bls params;
             reg_operator := operator params;
             reg_timestamp := now;
             reg_contract := contract params |} regs.
Proof.
  intros H. unfold store_registration in H. cbn [bind] in H.
  destruct (check_reg_keys_sigs _ _ _) as [[]|e]; cbn [bind] in H.
  2:{ destruct (isinstance_ValueError e); discriminate. }
  injection H as <- _. unfold load_registrations.
  match goal with |- context [insert_or_replace ?r db] => set (new := r) end.
  set (rows := filter _ (insert_or_replace new db)).
  assert (In new rows) as Hin.
  { unfold rows. apply filter_In. split.
    - unfold insert_or_replace. apply in_or_app. right. left. reflexivity.
    - apply bytes_eqb_eq. reflexivity. }
  apply order_by_In in Hin.
  set (g := fun r => registration_of_row sn_pubkey (row_operator r) r).
  assert (In (g new) (map g (order_by_timestamp_desc rows))) as Hg
    by (apply in_map; exact Hin).
  destruct (map g (order_by_timestamp_desc rows)) as [|r0 rs] eqn:Hm;
    [contradiction|].
  cbn [length Nat.eqb]. eexists. split; [reflexivity|]. exact Hg.
Qed.

(** X16.  Nothing gets into the table unchecked: after any run of
    submissions from the empty table, every row has a pubkey of 32 bytes
    that is a valid point, a BLS pubkey of 64 bytes, an operator (and, if
    present, a contract) address of 20 bytes, and a signature that verifies
    over the two pubkeys. *)
Theorem stored_rows_checked (subs : list (Z * bytes * outcome reg_params)) :
  Forall (row_checked is_valid_point verify)
    (store_all is_valid_point verify to_checksum_address subs []).
Proof.
  assert (forall db, Forall (row_checked is_valid_point verify) db ->
            Forall (row_checked is_valid_point verify)
              (store_all is_valid_point verify to_checksum_address subs db)) as Hgen.
  { induction subs as [|[[now pk] parsed] subs IH]; intros db Hdb; [exact Hdb|].
    cbn [store_all]. apply IH. unfold store_registration.
    destruct parsed as [params|e]; cbn [bind].
    2:{ destruct (isinstance_ValueError e); exact Hdb. }
    destruct (check_reg_keys_sigs _ _ _) as [[]|e] eqn:Hchk; cbn [bind fst].
    2:{ destruct (isinstance_ValueError e); exact Hdb. }
    unfold insert_or_replace. apply Forall_app. split.
    - apply Forall_forall. intros r Hr. apply filter_In in Hr.
      rewrite Forall_forall in Hdb. apply Hdb. tauto.
    - constructor; [|constructor].
      rewrite check_reg_keys_sigs_unfold in Hchk. cbv zeta in Hchk.
      unfold KeyChecks.passes, KeyChecks.signed_message in Hchk.
      cbn [pubkey_ed25519 pubkey_bls operator contract sig_ed25519
           set_pubkey_ed25519] in Hchk.
      unfold row_checked.
      cbn [row_pubkey_ed25519 row_pubkey_bls row_operator row_contract
           row_sig_ed25519 pubkey_ed25519 pubkey_bls operator contract
           sig_ed25519 set_pubkey_ed25519].
      destruct (Nat.eqb_spec (length pk) 32); cbn [andb negb] in Hchk;
        [|discriminate].
      destruct (is_valid_point pk); cbn [negb] in Hchk; [|discriminate].
      destruct (Nat.eqb_spec (length (pubkey_bls params)) 64); cbn [negb] in Hchk;
        [|discriminate].
      destruct (Nat.eqb_spec (length (operator params)) 20); cbn [negb] in Hchk;
        [|discriminate].
      destruct (contract params) as [c|].
      + destruct (Nat.eqb_spec (length c) 20); cbn [negb] in Hchk; [|discriminate].
        destruct (Nat.eqb (length (sig_ed25519 params)) 64); cbn [negb] in Hchk;
          [|discriminate].
        destruct (verify _ _ _); [|discriminate].
        repeat split; try assumption; try reflexivity.
        intros c' E. injection E as <-. assumption.
      + cbn [negb] in Hchk.
        destruct (Nat.eqb (length (sig_ed25519 params)) 64); cbn [negb] in Hchk;
          [|discriminate].
        destruct (verify _ _ _); [|discriminate].
        repeat split; try assumption; try reflexivity.
        intros c' E. discriminate E. }
  apply Hgen. constructor.
Qed.

End StoreMore.

Lemma store_then_load_witness :
  exists regs,
    load_registrations
      [{| row_pubkey_ed25519 := Sample.zeros 32;
          row_pubkey_bls := Sample.zeros 64;
          row_sig_ed25519 := Sample.zeros 64;
          row_sig_bls := Sample.zeros 128;
          row_operator := Sample.zeros 20;
          row_contract := None;
          row_timestamp := 1700000001 |}]
      (Sample.zeros 32) = Return regs
    /\ In {| reg_type := lit "solo";
             reg_pubkey_ed25519 := Sample.zeros 32;
             reg_pubkey_bls := Sample.zeros 64;
             reg_sig_ed25519 := Sample.zeros 64;
             reg_sig_bls := Sample.zeros 128;
             reg_operator := Sample.zeros 20;
             reg_timestamp := 1700000001;
             reg_contract := None |} regs.
Proof.
  eapply (store_then_load Sample.any_point Sample.any_signature
            Sample.plain_checksum 1700000001 [Sample.stored_row] _
            (Sample.zeros 32) (Sample.sample_keys None)).
  vm_compute. reflexivity.
Defined.

Lemma scan_nodes_outcome (nodes : list node) (sn_pubkey : bytes) :
  scan_nodes nodes sn_pubkey = Return tt
  \/ exists e, scan_nodes nodes sn_pubkey = Raise e.
Proof.
  destruct (scan_nodes nodes sn_pubkey) as [[]|e]; [left; reflexivity|right; eauto].
Qed.

Lemma operator_rows_return (app_nodes : option (list node)) (op : bytes)
    (cur : list row) : forall reg_array regs,
  operator_rows app_nodes op cur reg_array = Return regs ->
  regs = reg_array
         ++ map (fun r => registration_of_row (row_pubkey_ed25519 r) op r) cur.
Proof.
  induction cur as [|r cur IH]; intros reg_array regs H.
  - cbn in H. injection H as <-. rewrite app_nil_r. reflexivity.
  - cbn [operator_rows] in H.
    destruct (match app_nodes with
              | Some nodes => scan_nodes nodes (row_pubkey_ed25519 r)
              | None => Return tt
              end) as [[]|e]; cbn [bind] in H; [|discriminate].
    rewrite (IH _ _ H), <- app_assoc. reflexivity.
Qed.

(** X17.  A listing that [operator_registrations] returns is the
    operator's rows and nothing else: one entry for each stored row of that
    operator, every entry under that operator, newest timestamp first.
    Without a node snapshot the wallet texts of the route (an ETH address
    pattern) always get a listing, empty if the operator is unknown, where
    [load_registrations] answers 404. *)
Theorem operator_registrations_listing (db : table)
    (app_nodes : option (list node)) (op : str) :
  (forall regs,
     operator_registrations db app_nodes op = Return regs ->
     exists op_bytes,
       fromhex (skipn 2 op) = Return op_bytes
       /\ length regs
          = length (filter (fun r => bytes_eqb (row_operator r) op_bytes) db)
       /\ Forall (fun reg => reg_operator reg = op_bytes) regs
       /\ Slots.newest_first regs)
  /\ (eth_re_fullmatch op = true ->
      exists regs, operator_registrations db None op = Return regs)
  /\ (eth_re_fullmatch op = true ->
      operator_registrations [] app_nodes op = Return []).
Proof.
  split; [|split].
  - intros regs H. unfold operator_registrations in H.
    destruct (fromhex (skipn 2 op)) as [op_bytes|e]; cbn [bind] in H; [|discriminate].
    exists op_bytes. split; [reflexivity|].
    apply operator_rows_return in H. cbn [app] in H. subst regs.
    split; [rewrite length_map, order_by_length; reflexivity|].
    split; [apply Forall_forall; intros reg Hreg; apply in_map_iff in Hreg;
            destruct Hreg as (r & <- & _); reflexivity|].
    apply order_by_sorted. reflexivity.
  - intros Hre. unfold operator_registrations, eth_re_fullmatch in *.
    destruct op as [|c0 [|cx rest]]; try discriminate Hre.
    apply andb_prop in Hre. destruct Hre as [Hre Hd].
    apply andb_prop in Hre. destruct Hre as [_ Hl]. apply Nat.eqb_eq in Hl.
    destruct (fromhex_hexdigits 20 rest ltac:(rewrite Hl; reflexivity) Hd)
      as (b & Hb & _).
    cbn [skipn]. rewrite Hb. cbn [bind]. rewrite operator_rows_all; [eauto|].
    intros nodes E. discriminate E.
  - intros Hre. unfold operator_registrations, eth_re_fullmatch in *.
    destruct op as [|c0 [|cx rest]]; try discriminate Hre.
    apply andb_prop in Hre. destruct Hre as [Hre Hd].
    apply andb_prop in Hre. destruct Hre as [_ Hl]. apply Nat.eqb_eq in Hl.
    destruct (fromhex_hexdigits 20 rest ltac:(rewrite Hl; reflexivity) Hd)
      as (b & Hb & _).
    cbn [skipn]. rewrite Hb. reflexivity.
Qed.

Lemma operator_registrations_listing_witness :
  eth_re_fullmatch Sample.operator_wallet = true
  /\ operator_registrations [] (Some [Sample.active_node]) Sample.operator_wallet
     = Return []
  /\ load_registrations [] (Sample.zeros 32) = Raise NotFound.
Proof.
  split; [reflexivity|]. split; [|reflexivity].
  apply (proj2 (proj2 (operator_registrations_listing []
                         (Some [Sample.active_node]) Sample.operator_wallet))).
  reflexivity.
Defined.

(** ** [get_sns] *)

Lemma sum_nonneg (l : list Z) : Forall (fun x => 0 <= x) l -> 0 <= sum l.
Proof.
  induction 1 as [|x l Hx _ IH]; [rewrite sum_nil; lia|].
  rewrite sum_cons. lia.
Qed.

Lemma count_locked_nonneg (cs : list contributor_state) : 0 <= count_locked cs.
Proof.
  unfold count_locked. apply sum_nonneg. apply Forall_forall.
  intros x Hx. apply in_map_iff in Hx. destruct Hx as (c & <- & _).
  destruct (locked_contributions c); unfold len; lia.
Qed.

Lemma get_sns_loop_lists (height : Z) (sn_states : list sn_state) :
  forall awaiting active inactive,
    get_sns_loop height sn_states awaiting active inactive
    = (awaiting
       ++ map (fun sn => sn_entry_of sn None None)
            (filter (fun sn => negb (sn_active sn) && negb (sn_funded sn)) sn_states),
       active
       ++ map (fun sn => sn_entry_of sn None None) (filter sn_active sn_states),
       inactive
       ++ map (fun sn => sn_entry_of sn
                           (Some (Z.max (sn_earned_downtime_blocks sn) 0))
                           (Some (height - sn_state_height sn)))
            (filter (fun sn => negb (sn_active sn) && sn_funded sn) sn_states)).
Proof.
  induction sn_states as [|sn rest IH]; intros awaiting active inactive.
  - cbn. rewrite !app_nil_r. reflexivity.
  - cbn [get_sns_loop filter].
    destruct (sn_active sn), (sn_funded sn); cbn [negb andb map];
      rewrite IH, <- ?app_assoc; reflexivity.
Qed.

(** X18.  [get_sns] sorts every state of the snapshot into exactly one of
    its three lists, by its flags and in the order of the snapshot: active
    ones, funded ones that are not active, and the rest (awaiting).  Each
    entry carries what is still open and still required of the staking
    requirement and a count of locked contributions that is not negative;
    the funded-but-inactive ones alone carry the decommission figures, the
    remaining blocks never below zero.  A reply without the key gives
    three empty lists. *)
Theorem get_sns_classifies (service_node_states : option (list sn_state))
    (height : Z) :
  let sn_states := match service_node_states with
                   | Some l => l
                   | None => []
                   end in
  let awaiting := fst (fst (get_sns service_node_states height)) in
  let active := snd (fst (get_sns service_node_states height)) in
  let inactive := snd (get_sns service_node_states height) in
  map sn_given awaiting
  = filter (fun sn => negb (sn_active sn) && negb (sn_funded sn)) sn_states
  /\ map sn_given active = filter sn_active sn_states
  /\ map sn_given inactive
     = filter (fun sn => negb (sn_active sn) && sn_funded sn) sn_states
  /\ (length awaiting + length active + length inactive = length sn_states)%nat
  /\ Forall (fun e =>
        contribution_open e + sn_total_reserved (sn_given e)
        = sn_staking_requirement (sn_given e)
        /\ contribution_required e + sn_total_contributed (sn_given e)
           = sn_staking_requirement (sn_given e)
        /\ 0 <= num_contributions e)
       (awaiting ++ active ++ inactive)
  /\ Forall (fun e => decomm_blocks_remaining e = None /\ decomm_blocks e = None)
       (awaiting ++ active)
  /\ Forall (fun e =>
        exists remaining,
          decomm_blocks_remaining e = Some remaining
          /\ 0 <= remaining
          /\ sn_earned_downtime_blocks (sn_given e) <= remaining
          /\ decomm_blocks e = Some (height - sn_state_height (sn_given e)))
       inactive.
Proof.
  cbv zeta. unfold get_sns.
  set (l := match service_node_states with Some l => l | None => [] end).
  rewrite get_sns_loop_lists. cbn [fst snd app].
  assert (forall (f : sn_state -> sn_entry) (xs : list sn_state),
            (forall sn, sn_given (f sn) = sn) -> map sn_given (map f xs) = xs) as Hmap.
  { intros f xs Hf. rewrite map_map. rewrite <- (map_id xs) at 2.
    apply map_ext. exact Hf. }
  split; [apply Hmap; reflexivity|].
  split; [apply Hmap; reflexivity|].
  split; [apply Hmap; reflexivity|].
  split.
  { rewrite !length_map. clear. induction l as [|sn l IH]; [reflexivity|].
    cbn [filter length]. destruct (sn_active sn), (sn_funded sn);
      cbn [negb andb length]; lia. }
  split.
  { rewrite !Forall_app. repeat split; apply Forall_forall; intros e He;
      apply in_map_iff in He; destruct He as (sn & <- & _);
      cbn [sn_entry_of contribution_open contribution_required num_contributions
           sn_given];
      repeat split; try lia; apply count_locked_nonneg. }
  split.
  { rewrite Forall_app. split; apply Forall_forall; intros e He;
      apply in_map_iff in He; destruct He as (sn & <- & _); split; reflexivity. }
  apply Forall_forall. intros e He. apply in_map_iff in He.
  destruct He as (sn & <- & _). eexists. split; [reflexivity|].
  cbn [sn_entry_of sn_given decomm_blocks sn_earned_downtime_blocks]. repeat split; lia.
Qed.

(** ** Dictionaries *)

Lemma pydict_str_eqb_eq (a b : str) : PyDict.str_eqb a b = true <-> a = b.
Proof.
  unfold PyDict.str_eqb. destruct (str_eq_dec a b); split; congruence.
Qed.

Lemma pydict_str_eqb_refl (a : str) : PyDict.str_eqb a a = true.
Proof. apply pydict_str_eqb_eq. reflexivity. Qed.

Lemma pydict_str_eqb_neq (a b : str) : a <> b -> PyDict.str_eqb a b = false.
Proof.
  intros H. unfold PyDict.str_eqb. destruct (str_eq_dec a b); congruence.
Qed.

Lemma pydict_get_set_same {V} (k : str) (v : V) (d : PyDict.dict V) :
  PyDict.get k (PyDict.set k v d) = Some v.
Proof.
  induction d as [|[k' v'] d IH]; cbn [PyDict.set PyDict.get].
  - rewrite pydict_str_eqb_refl. reflexivity.
  - destruct (PyDict.str_eqb k' k) eqn:E; cbn [PyDict.get]; rewrite E;
      [reflexivity | exact IH].
Qed.

Lemma pydict_get_set_other {V} (k k' : str) (v : V) (d : PyDict.dict V) :
  k <> k' -> PyDict.get k' (PyDict.set k v d) = PyDict.get k' d.
Proof.
  intros Hk. induction d as [|[k0 v0] d IH]; cbn [PyDict.set PyDict.get].
  - rewrite pydict_str_eqb_neq by exact Hk. reflexivity.
  - destruct (PyDict.str_eqb k0 k) eqn:E; cbn [PyDict.get].
    + apply pydict_str_eqb_eq in E. subst k0.
      rewrite pydict_str_eqb_neq by exact Hk. reflexivity.
    + rewrite IH. reflexivity.
Qed.

Lemma pydict_keys_set {V} (k : str) (v : V) (d : PyDict.dict V) (a : str) :
  In a (map fst (PyDict.set k v d)) <-> a = k \/ In a (map fst d).
Proof.
  induction d as [|[k0 v0] d IH]; cbn [PyDict.set map fst In].
  - intuition.
  - destruct (PyDict.str_eqb k0 k) eqn:E; cbn [map fst In].
    + apply pydict_str_eqb_eq in E. subst k0. intuition.
    + rewrite IH. intuition.
Qed.

Lemma pydict_mem_keys {V} (k : str) (d : PyDict.dict V) :
  PyDict.mem k d = true <-> In k (map fst d).
Proof.
  unfold PyDict.mem. induction d as [|[k0 v0] d IH]; cbn [PyDict.get map fst In].
  - split; [discriminate | tauto].
  - destruct (PyDict.str_eqb k0 k) eqn:E.
    + apply pydict_str_eqb_eq in E. tauto.
    + rewrite IH. split; [tauto|]. intros [H|H]; [|exact H].
      apply pydict_str_eqb_eq in H. congruence.
Qed.

Lemma pydict_mem_set {V} (k k' : str) (v : V) (d : PyDict.dict V) :
  PyDict.mem k' (PyDict.set k v d) = true <-> k' = k \/ PyDict.mem k' d = true.
Proof. rewrite !pydict_mem_keys. apply pydict_keys_set. Qed.

Lemma pydict_list_at_set_same {A} (k : str) (l : list A)
    (d : PyDict.dict (list A)) :
  PyDict.list_at k (PyDict.set k l d) = l.
Proof. unfold PyDict.list_at. rewrite pydict_get_set_same. reflexivity. Qed.

Lemma pydict_list_at_set_other {A} (k k' : str) (l : list A)
    (d : PyDict.dict (list A)) :
  k <> k' -> PyDict.list_at k' (PyDict.set k l d) = PyDict.list_at k' d.
Proof.
  intros H. unfold PyDict.list_at. rewrite pydict_get_set_other by exact H.
  reflexivity.
Qed.

(** Making an empty list for a key that has none changes no list. *)
Lemma pydict_list_at_fresh {A} (k w : str) (d : PyDict.dict (list A)) :
  PyDict.mem k d = false ->
  PyDict.list_at w (PyDict.set k [] d) = PyDict.list_at w d.
Proof.
  intros Hm. destruct (str_eq_dec k w) as [->|Hne].
  - rewrite pydict_list_at_set_same. unfold PyDict.list_at.
    unfold PyDict.mem in Hm. destruct (PyDict.get w d); [discriminate|reflexivity].
  - apply pydict_list_at_set_other. exact Hne.
Qed.

(** ** [update_service_nodes] *)

Section IndexFacts.

Variable to_checksum_address_text : str -> option str.

Local Abbreviation wallet_key_of' := (wallet_key_of to_checksum_address_text).
Local Abbreviation index_node' := (index_node to_checksum_address_text).
Local Abbreviation index_nodes' := (index_nodes to_checksum_address_text).
Local Abbreviation index_contract' := (index_contract to_checksum_address_text).
Local Abbreviation index_contracts' := (index_contracts to_checksum_address_text).

Lemma contributor_keys_In (node : service_node) (a : str) :
  In a (contributor_keys node) <-> In a (map fst (contributors node)).
Proof.
  unfold contributor_keys.
  assert (forall l (d : PyDict.dict Z),
            In a (map fst (fold_left (fun d c => PyDict.set (fst c) (snd c) d) l d))
            <-> In a (map fst d) \/ In a (map fst l)) as H.
  { induction l as [|c l IH]; intros d; cbn [fold_left map In].
    - tauto.
    - rewrite IH, pydict_keys_set. intuition. }
  rewrite H. cbn [map In]. tauto.
Qed.

Lemma wallet_key_of_raise (a : str) (e : exn) :
  wallet_key_of' a = Raise e ->
  length a = 40%nat /\ to_checksum_address_text a = None
  /\ exists msg, e = TypeError msg.
Proof.
  unfold wallet_key_of, eth_format_text.
  destruct (Nat.eqb (length a) 40) eqn:E; [|discriminate].
  apply Nat.eqb_eq in E.
  destruct (to_checksum_address_text a); [discriminate|].
  intros H. injection H as <-. eauto.
Qed.


(** One pass of the inner loop: the index is added under the wallet key,
    no other list changes. *)
Lemma index_step_list_at {A} (k w : str) (i : A) (d : PyDict.dict (list A)) :
  let d1 := if negb (PyDict.mem k d) then PyDict.set k [] d else d in
  PyDict.list_at w (PyDict.set k (PyDict.list_at k d1 ++ [i]) d1)
  = if PyDict.str_eqb k w then PyDict.list_at w d ++ [i] else PyDict.list_at w d.
Proof.
  cbv zeta.
  assert (forall w', PyDict.list_at w'
                       (if negb (PyDict.mem k d) then PyDict.set k [] d else d)
                     = PyDict.list_at w' d) as Hd1.
  { intros w'. destruct (PyDict.mem k d) eqn:Em; cbn [negb]; [reflexivity|].
    apply pydict_list_at_fresh. exact Em. }
  destruct (str_eq_dec k w) as [->|Hne].
  - rewrite pydict_str_eqb_refl, pydict_list_at_set_same, Hd1. reflexivity.
  - rewrite pydict_str_eqb_neq by exact Hne.
    rewrite pydict_list_at_set_other by exact Hne. apply Hd1.
Qed.

Lemma index_node_spec (i : Z) (addresses : list str) :
  forall d d',
    index_node' i addresses d = Return d' ->
    forall w x,
      In x (PyDict.list_at w d')
      <-> In x (PyDict.list_at w d)
          \/ (x = i /\ exists a, In a addresses /\ wallet_key_of' a = Return w).
Proof.
  induction addresses as [|a rest IH]; intros d d' H w x.
  - cbn in H. injection H as <-. split; [tauto|].
    intros [Hx|(_ & a & [] & _)]. exact Hx.
  - cbn [index_node] in H.
    destruct (wallet_key_of' a) as [k|e] eqn:Ek; cbn [bind] in H; [|discriminate].
    rewrite (IH _ _ H w x), index_step_list_at.
    destruct (str_eq_dec k w) as [->|Hne].
    + rewrite pydict_str_eqb_refl, in_app_iff. cbn [In]. split.
      * intros [[Hx|[Hx|[]]]|(Hx & a' & Ha' & Hk)].
        -- left. exact Hx.
        -- right. split; [congruence|]. exists a. split; [left; reflexivity|exact Ek].
        -- right. split; [exact Hx|]. exists a'. split; [right; exact Ha'|exact Hk].
      * intros [Hx|(Hx & a' & [<-|Ha'] & Hk)].
        -- left. left. exact Hx.
        -- left. right. left. congruence.
        -- right. split; [exact Hx|]. exists a'. split; assumption.
    + rewrite pydict_str_eqb_neq by exact Hne. split.
      * intros [Hx|(Hx & a' & Ha' & Hk)]; [left; exact Hx|].
        right. split; [exact Hx|]. exists a'. split; [right; exact Ha'|exact Hk].
      * intros [Hx|(Hx & a' & [<-|Ha'] & Hk)]; [left; exact Hx| |].
        -- rewrite Ek in Hk. injection Hk as Hk. contradiction.
        -- right. split; [exact Hx|]. exists a'. split; assumption.
Qed.



Lemma index_nodes_spec (nodes : list service_node) :
  forall start d d',
    index_nodes' start nodes d = Return d' ->
    forall w x,
      In x (PyDict.list_at w d')
      <-> In x (PyDict.list_at w d)
          \/ exists n node a,
               nth_error nodes n = Some node /\ x = start + Z.of_nat n
               /\ In a (map fst (contributors node))
               /\ wallet_key_of' a = Return w.
Proof.
  induction nodes as [|node rest IH]; intros start d d' H w x.
  - cbn in H. injection H as <-. split; [tauto|].
    intros [Hx|(n & node & a & Hn & _)]; [exact Hx|]. destruct n; discriminate.
  - cbn [index_nodes] in H.
    destruct (index_node' start (contributor_keys node) d) as [d1|e] eqn:E1;
      cbn [bind] in H; [|discriminate].
    rewrite (IH _ _ _ H w x), (index_node_spec _ _ _ _ E1 w x). split.
    + intros [[Hx|(Hx & a & Ha & Hk)]|(n & nd & a & Hn & Hx & Ha & Hk)].
      * left. exact Hx.
      * right. exists 0%nat, node, a. cbn [nth_error].
        apply contributor_keys_In in Ha. repeat split; try assumption. lia.
      * right. exists (S n), nd, a. cbn [nth_error].
        repeat split; try assumption. lia.
    + intros [Hx|(n & nd & a & Hn & Hx & Ha & Hk)]; [left; left; exact Hx|].
      destruct n as [|n]; cbn [nth_error] in Hn.
      * injection Hn as <-. left. right. split; [lia|]. exists a.
        split; [apply contributor_keys_In; exact Ha|exact Hk].
      * right. exists n, nd, a. repeat split; try assumption. lia.
Qed.



Lemma index_node_return_all (i : Z) (addresses : list str) :
  forall d d',
    index_node' i addresses d = Return d' ->
    forall a, In a addresses -> exists k, wallet_key_of' a = Return k.
Proof.
  induction addresses as [|a0 rest IH]; intros d d' H a Ha; [destruct Ha|].
  cbn [index_node] in H.
  destruct (wallet_key_of' a0) as [k|e] eqn:Ek; cbn [bind] in H; [|discriminate].
  destruct Ha as [<-|Ha]; [eauto|]. exact (IH _ _ H a Ha).
Qed.

Lemma index_nodes_return_all (nodes : list service_node) :
  forall start d d',
    index_nodes' start nodes d = Return d' ->
    forall node a,
      In node nodes -> In a (map fst (contributors node)) ->
      exists k, wallet_key_of' a = Return k.
Proof.
  induction nodes as [|nd rest IH]; intros start d d' H node a Hnode Ha;
    [destruct Hnode|].
  cbn [index_nodes] in H.
  destruct (index_node' start (contributor_keys nd) d) as [d1|e] eqn:E1;
    cbn [bind] in H; [|discriminate].
  destruct Hnode as [->|Hnode].
  - apply (index_node_return_all _ _ _ _ E1). apply contributor_keys_In. exact Ha.
  - exact (IH _ _ _ H node a Hnode Ha).
Qed.

(** X19.  The index [update_service_nodes] builds is exact: the list filed
    under a wallet holds an index if and only if it is the position, in
    the snapshot, of a node one of whose contributor addresses is filed
    under that wallet (a 40-character address under its checksum form,
    any other under itself).  So every stored index is a valid position
    of [app.nodes], and no wallet is given a node it does not contribute
    to. *)
Theorem update_service_nodes_index (nodes : list service_node)
    (node_contributors : PyDict.dict (list Z)) :
  update_service_nodes to_checksum_address_text nodes = Return node_contributors ->
  forall (wallet : str) (index : Z),
    In index (PyDict.list_at wallet node_contributors)
    <-> 0 <= index
        /\ exists node address,
             nth_error nodes (Z.to_nat index) = Some node
             /\ In address (map fst (contributors node))
             /\ wallet_key_of' address = Return wallet.
Proof.
  unfold update_service_nodes. intros H wallet index.
  rewrite (index_nodes_spec _ _ _ _ H wallet index). cbn [PyDict.list_at PyDict.get In].
  split.
  - intros [[]|(n & node & a & Hn & Hx & Ha & Hk)]. subst index.
    split; [lia|]. exists node, a. rewrite Z.add_0_l, Nat2Z.id. auto.
  - intros (H0 & node & a & Hn & Ha & Hk). right.
    exists (Z.to_nat index), node, a. repeat split; try assumption. lia.
Qed.

Lemma fill_node_spec (i : Z) (addresses : list str) :
  forall d,
    match fill_node to_checksum_address_text i addresses d with
    | (d', None) => index_node' i addresses d = Return d'
    | (d', Some e) =>
        index_node' i addresses d = Raise e
        /\ exists before a after,
             addresses = before ++ a :: after
             /\ wallet_key_of' a = Raise e
             /\ index_node' i before d = Return d'
    end.
Proof.
  induction addresses as [|a rest IH]; intros d; cbn [fill_node index_node].
  - reflexivity.
  - destruct (wallet_key_of' a) as [k|e] eqn:Ek; cbn [bind].
    + match goal with
      | |- context [fill_node _ i rest ?d2] => specialize (IH d2); set (d2' := d2) in *
      end.
      destruct (fill_node to_checksum_address_text i rest d2') as [d' [e|]].
      * destruct IH as (Hr & before & a' & after & -> & Ha' & Hb).
        split; [exact Hr|]. exists (a :: before), a', after.
        split; [reflexivity|]. split; [exact Ha'|].
        cbn [index_node]. rewrite Ek. cbn [bind]. exact Hb.
      * exact IH.
    + split; [reflexivity|]. exists [], a, rest. auto.
Qed.

Lemma fill_nodes_spec (nodes : list service_node) :
  forall i d,
    match fill_nodes to_checksum_address_text i nodes d with
    | (d', None) => index_nodes' i nodes d = Return d'
    | (d', Some e) =>
        index_nodes' i nodes d = Raise e
        /\ exists nodes_before node nodes_after before a after d1,
             nodes = nodes_before ++ node :: nodes_after
             /\ contributor_keys node = before ++ a :: after
             /\ wallet_key_of' a = Raise e
             /\ index_nodes' i nodes_before d = Return d1
             /\ index_node' (i + len nodes_before) before d1 = Return d'
    end.
Proof.
  induction nodes as [|node rest IH]; intros i d; cbn [fill_nodes index_nodes].
  - reflexivity.
  - pose proof (fill_node_spec i (contributor_keys node) d) as H1.
    destruct (fill_node to_checksum_address_text i (contributor_keys node) d)
      as [d1 [e|]].
    + destruct H1 as (Hr & before & a & after & Hk & Ha & Hb).
      rewrite Hr. cbn [bind]. split; [reflexivity|].
      exists [], node, rest, before, a, after, d.
      cbn [app index_nodes]. unfold len. cbn [length].
      rewrite Z.add_0_r. auto.
    + rewrite H1. cbn [bind]. specialize (IH (i + 1) d1).
      destruct (fill_nodes to_checksum_address_text (i + 1) rest d1) as [d' [e|]].
      * destruct IH as (Hr & nb & nd & na & before & a & after & d2
                        & -> & Hk & Ha & Hb & Hc).
        split; [exact Hr|].
        exists (node :: nb), nd, na, before, a, after, d2.
        split; [reflexivity|]. split; [exact Hk|]. split; [exact Ha|].
        split.
        -- cbn [index_nodes]. rewrite H1. cbn [bind]. exact Hb.
        -- replace (i + len (node :: nb)) with (i + 1 + len nb)
             by (unfold len; cbn [length]; lia).
           exact Hc.
      * exact IH.
Qed.

(** X20.  [update_service_nodes] either runs to its end, and then every
    40-character contributor address of the snapshot has a checksum form
    and [app.node_contributors] is the index it built; or it raises, and
    then what it raises is the [TypeError] of [eth_format], caused by a
    40-character contributor address that has none.  The dict is filled in
    place, so a raise does not leave it empty: [app.node_contributors]
    then holds the index of the snapshot up to the address that failed
    (the nodes before its node, and of that node the addresses before it)
    and nothing of what follows. *)
Theorem update_service_nodes_outcomes (nodes : list service_node) :
  (exists node_contributors,
      update_service_nodes to_checksum_address_text nodes = Return node_contributors
      /\ update_service_nodes_in_place to_checksum_address_text nodes
         = (node_contributors, None)
      /\ forall node address,
           In node nodes -> In address (map fst (contributors node)) ->
           length address = 40%nat ->
           to_checksum_address_text address <> None)
  \/ (exists msg nodes_before node nodes_after before address after filed left,
        update_service_nodes to_checksum_address_text nodes = Raise (TypeError msg)
        /\ nodes = nodes_before ++ node :: nodes_after
        /\ contributor_keys node = before ++ address :: after
        /\ In address (map fst (contributors node))
        /\ length address = 40%nat
        /\ to_checksum_address_text address = None
        /\ update_service_nodes_in_place to_checksum_address_text nodes
           = (left, Some (TypeError msg))
        /\ update_service_nodes to_checksum_address_text nodes_before = Return filed
        /\ index_node' (len nodes_before) before filed = Return left).
Proof.
  unfold update_service_nodes, update_service_nodes_in_place.
  pose proof (fill_nodes_spec nodes 0 []) as Hfill.
  destruct (fill_nodes to_checksum_address_text 0 nodes []) as [left [e|]].
  - right.
    destruct Hfill as (Hr & nb & node & na & before & a & after & d1
                       & Hn & Hk & Ha & Hb & Hc).
    destruct (wallet_key_of_raise _ _ Ha) as (Hlen & Hnone & msg & ->).
    exists msg, nb, node, na, before, a, after, d1, left.
    split; [exact Hr|]. split; [exact Hn|]. split; [exact Hk|].
    split.
    { apply contributor_keys_In. rewrite Hk. apply in_or_app. right. left.
      reflexivity. }
    split; [exact Hlen|]. split; [exact Hnone|]. split; [reflexivity|].
    split; [exact Hb|]. rewrite Z.add_0_l in Hc. exact Hc.
  - left. exists left. split; [exact Hfill|]. split; [reflexivity|].
    intros node a Hnode Ha Hlen Hnone.
    destruct (index_nodes_return_all _ _ _ _ Hfill node a Hnode Ha) as [k Hk].
    unfold wallet_key_of, eth_format_text in Hk.
    rewrite Hlen, Hnone in Hk. discriminate.
Qed.

End IndexFacts.

(** ** [update_contract_statuses] *)

Lemma existsb_str_eqb (ca : str) (l : list str) :
  existsb (PyDict.str_eqb ca) l = true <-> In ca l.
Proof.
  rewrite existsb_exists. split.
  - intros (y & Hy & E). apply pydict_str_eqb_eq in E. subst y. exact Hy.
  - intros H. exists ca. split; [exact H | apply pydict_str_eqb_refl].
Qed.

Lemma pydict_list_at_get {A} (k : str) (d : PyDict.dict (list A)) (l : list A) :
  PyDict.get k d = Some l -> PyDict.list_at k d = l.
Proof. unfold PyDict.list_at. intros ->. reflexivity. Qed.

Lemma NoDup_snoc {A} (l : list A) (a : A) :
  NoDup l -> ~ In a l -> NoDup (l ++ [a]).
Proof.
  induction 1 as [|x l Hx Hl IH]; intros Ha; cbn [app].
  - constructor; [intros []|constructor].
  - constructor.
    + rewrite in_app_iff. cbn [In]. intros [H|[H|[]]]; [exact (Hx H)|].
      apply Ha. left. symmetry. exact H.
    + apply IH. intros H. apply Ha. right. exact H.
Qed.

(** Appending the contract under the wallet key, unless it is there. *)
Lemma contract_step_list_at (wk ca w : str) (d1 : PyDict.dict (list str))
    (l : list str) :
  PyDict.get wk d1 = Some l ->
  forall x,
    In x (PyDict.list_at w
            (if negb (existsb (PyDict.str_eqb ca) l)
             then PyDict.set wk (l ++ [ca]) d1 else d1))
    <-> In x (PyDict.list_at w d1) \/ (x = ca /\ wk = w).
Proof.
  intros Hg x. pose proof (pydict_list_at_get _ _ _ Hg) as Hl.
  destruct (existsb (PyDict.str_eqb ca) l) eqn:E; cbn [negb].
  - apply existsb_str_eqb in E. split; [tauto|].
    intros [H|[-> <-]]; [exact H|]. rewrite Hl. exact E.
  - destruct (str_eq_dec wk w) as [<-|Hne].
    + rewrite pydict_list_at_set_same, Hl, in_app_iff. cbn [In]. split.
      * intros [H|[H|[]]]; [left; exact H|]. right. split; congruence.
      * intros [H|[-> _]]; [left; exact H|]. right. left. reflexivity.
    + rewrite pydict_list_at_set_other by exact Hne. split; [tauto|].
      intros [H|[_ H]]; [exact H|contradiction].
Qed.

Lemma contract_step_NoDup (wk ca w : str) (d1 : PyDict.dict (list str))
    (l : list str) :
  PyDict.get wk d1 = Some l ->
  NoDup (PyDict.list_at w d1) ->
  NoDup (PyDict.list_at w
           (if negb (existsb (PyDict.str_eqb ca) l)
            then PyDict.set wk (l ++ [ca]) d1 else d1)).
Proof.
  intros Hg Hnd. pose proof (pydict_list_at_get _ _ _ Hg) as Hl.
  destruct (existsb (PyDict.str_eqb ca) l) eqn:E; cbn [negb]; [exact Hnd|].
  destruct (str_eq_dec wk w) as [<-|Hne].
  - rewrite pydict_list_at_set_same. rewrite Hl in Hnd.
    apply NoDup_snoc; [exact Hnd|]. intros H. apply existsb_str_eqb in H.
    congruence.
  - rewrite pydict_list_at_set_other by exact Hne. exact Hnd.
Qed.

(** The list under any key after [d[k] = []]. *)
Lemma pydict_list_at_set_nil {A} (k w : str) (d : PyDict.dict (list A)) :
  PyDict.list_at w (PyDict.set k [] d)
  = if PyDict.str_eqb k w then [] else PyDict.list_at w d.
Proof.
  destruct (str_eq_dec k w) as [<-|Hne].
  - rewrite pydict_str_eqb_refl. apply pydict_list_at_set_same.
  - rewrite pydict_str_eqb_neq by exact Hne. apply pydict_list_at_set_other.
    exact Hne.
Qed.

Section ContractIndexFacts.

Variable to_checksum_address_text : str -> option str.

Local Abbreviation index_contract' := (index_contract to_checksum_address_text).
Local Abbreviation index_contracts' := (index_contracts to_checksum_address_text).

(** The equation of the inner loop at an address that has a checksum
    form. *)
Lemma index_contract_cons (ca a wk : str) (rest : list str)
    (d : PyDict.dict (list str)) :
  to_checksum_address_text a = Some wk ->
  index_contract' ca (a :: rest) d
  = match PyDict.get wk (if negb (PyDict.mem a d)
                         then PyDict.set wk [] d else d) with
    | None => Fault (KeyError wk)
    | Some l =>
        index_contract' ca rest
          (if negb (existsb (PyDict.str_eqb ca) l)
           then PyDict.set wk (l ++ [ca])
                  (if negb (PyDict.mem a d) then PyDict.set wk [] d else d)
           else (if negb (PyDict.mem a d) then PyDict.set wk [] d else d))
    end.
Proof.
  intros Hf. cbn [index_contract]. unfold eth_format_text. rewrite Hf.
  reflexivity.
Qed.

Lemma index_contract_cons_none (ca a : str) (rest : list str)
    (d : PyDict.dict (list str)) :
  to_checksum_address_text a = None ->
  exists msg, index_contract' ca (a :: rest) d = Fault (Exception (TypeError msg)).
Proof.
  intros Hf. cbn [index_contract]. unfold eth_format_text. rewrite Hf.
  eexists. reflexivity.
Qed.

(** What the loop files, it files for a reason; and it files nothing
    twice. *)
Lemma index_contract_sound (ca : str) (addresses : list str) :
  forall d d',
    index_contract' ca addresses d = Ok d' ->
    (forall w x,
        In x (PyDict.list_at w d') ->
        In x (PyDict.list_at w d)
        \/ (x = ca /\ exists a, In a addresses
                                /\ to_checksum_address_text a = Some w))
    /\ (forall w, NoDup (PyDict.list_at w d) -> NoDup (PyDict.list_at w d')).
Proof.
  induction addresses as [|a rest IH]; intros d d' H.
  - cbn in H. injection H as <-. split; [tauto|trivial].
  - destruct (to_checksum_address_text a) as [wk|] eqn:Ef.
    2:{ destruct (index_contract_cons_none ca a rest d Ef) as [msg Hm].
        rewrite Hm in H. discriminate. }
    rewrite (index_contract_cons ca a wk rest d Ef) in H.
    set (d1 := if negb (PyDict.mem a d) then PyDict.set wk [] d else d) in *.
    assert (forall w x, In x (PyDict.list_at w d1) -> In x (PyDict.list_at w d))
      as Hd1.
    { intros w x. subst d1. destruct (PyDict.mem a d); cbn [negb]; [tauto|].
      rewrite pydict_list_at_set_nil. destruct (PyDict.str_eqb wk w);
        [intros []|tauto]. }
    assert (forall w, NoDup (PyDict.list_at w d) -> NoDup (PyDict.list_at w d1))
      as Hn1.
    { intros w. subst d1. destruct (PyDict.mem a d); cbn [negb]; [tauto|].
      rewrite pydict_list_at_set_nil. destruct (PyDict.str_eqb wk w);
        [constructor|tauto]. }
    destruct (PyDict.get wk d1) as [l|] eqn:Eg; [|discriminate].
    destruct (IH _ _ H) as [IH1 IH2]. split.
    + intros w x Hx. destruct (IH1 w x Hx) as [Hx1|(-> & a' & Ha' & Hf')].
      * apply (contract_step_list_at wk ca w d1 l Eg) in Hx1.
        destruct Hx1 as [Hx1|[-> <-]]; [left; apply Hd1; exact Hx1|].
        right. split; [reflexivity|]. exists a. split; [left; reflexivity|exact Ef].
      * right. split; [reflexivity|]. exists a'. split; [right; exact Ha'|exact Hf'].
    + intros w Hnd. apply IH2. apply contract_step_NoDup; [exact Eg|].
      apply Hn1. exact Hnd.
Qed.

Lemma index_contracts_sound (contracts : list contract_status) :
  forall cs0 d0 cs d,
    index_contracts' contracts cs0 d0 = Ok (cs, d) ->
    (forall w x,
        In x (PyDict.list_at w d) ->
        In x (PyDict.list_at w d0)
        \/ exists c a, In c contracts /\ contract_address c = x
                       /\ In a (map fst (contributions c))
                       /\ to_checksum_address_text a = Some w)
    /\ (forall w, NoDup (PyDict.list_at w d0) -> NoDup (PyDict.list_at w d))
    /\ (forall ca c, PyDict.get ca cs = Some c ->
                     PyDict.get ca cs0 = Some c
                     \/ (In c contracts /\ contract_address c = ca))
    /\ (forall ca, PyDict.mem ca cs0 = true
                   \/ (exists c, In c contracts /\ contract_address c = ca) ->
                   PyDict.mem ca cs = true).
Proof.
  induction contracts as [|c rest IH]; intros cs0 d0 cs d H.
  - cbn in H. injection H as <- <-. repeat split; try tauto.
    intros ca [Hm|(c & [] & _)]. exact Hm.
  - cbn [index_contracts] in H.
    destruct (index_contract' (contract_address c) (map fst (contributions c)) d0)
      as [d1|f] eqn:E1; [|discriminate].
    destruct (index_contract_sound _ _ _ _ E1) as [S1 N1].
    destruct (IH _ _ _ _ H) as (S2 & N2 & G2 & M2). repeat split.
    + intros w x Hx. destruct (S2 w x Hx) as [Hx1|(c' & a & Hc' & Hca & Ha & Hf)].
      * destruct (S1 w x Hx1) as [Hx0|(-> & a & Ha & Hf)]; [left; exact Hx0|].
        right. exists c, a. repeat split; try assumption. left. reflexivity.
      * right. exists c', a. repeat split; try assumption. right. exact Hc'.
    + intros w Hnd. apply N2, N1, Hnd.
    + intros ca c' Hg. destruct (G2 ca c' Hg) as [Hg0|[Hc' Hca]].
      * destruct (str_eq_dec (contract_address c) ca) as [Heq|Hne].
        -- rewrite <- Heq, pydict_get_set_same in Hg0. injection Hg0 as <-.
           right. split; [left; reflexivity|exact Heq].
        -- rewrite pydict_get_set_other in Hg0 by exact Hne. left. exact Hg0.
      * right. split; [right; exact Hc'|exact Hca].
    + intros ca Hm. apply M2. destruct Hm as [Hm|(c' & [<-|Hc'] & Hca)].
      * left. apply pydict_mem_set. right. exact Hm.
      * left. apply pydict_mem_set. left. symmetry. exact Hca.
      * right. exists c'. split; assumption.
Qed.

(** X21.  Whatever [update_contract_statuses] files is justified and
    usable: a contract listed under a wallet is one of the contracts
    given, has a contributor address whose checksum form is that wallet,
    and is a key of [app.contracts], where it stands for one of the
    contracts given with that address; and no wallet's list holds a
    contract twice. *)
Theorem update_contract_statuses_sound (contracts : list contract_status)
    (app_contracts : PyDict.dict contract_status)
    (app_contributors : PyDict.dict (list str)) :
  update_contract_statuses to_checksum_address_text contracts
  = Ok (app_contracts, app_contributors) ->
  forall wallet : str,
    NoDup (PyDict.list_at wallet app_contributors)
    /\ forall address : str,
         In address (PyDict.list_at wallet app_contributors) ->
         (exists c a,
             In c contracts /\ contract_address c = address
             /\ In a (map fst (contributions c))
             /\ to_checksum_address_text a = Some wallet)
         /\ exists details,
              PyDict.get address app_contracts = Some details
              /\ In details contracts /\ contract_address details = address.
Proof.
  unfold update_contract_statuses. intros H wallet.
  destruct (index_contracts_sound _ _ _ _ _ H) as (S & N & G & M). split.
  - apply N. cbn. constructor.
  - intros address Hin. destruct (S wallet address Hin) as [[]|(c & a & Hc & Hca & Ha & Hf)].
    split; [exists c, a; auto|].
    assert (PyDict.mem address app_contracts = true) as Hm.
    { apply M. right. exists c. split; assumption. }
    unfold PyDict.mem in Hm.
    destruct (PyDict.get address app_contracts) as [details|] eqn:Eg; [|discriminate].
    exists details. split; [reflexivity|].
    destruct (G address details Eg) as [Hg0|Hd]; [discriminate|exact Hd].
Qed.

(** With every address in its checksum form the loop neither fails nor
    loses an entry. *)
Lemma index_contract_canonical (ca : str) (addresses : list str) :
  forall d,
    (forall a, In a addresses -> to_checksum_address_text a = Some a) ->
    exists d',
      index_contract' ca addresses d = Ok d'
      /\ (forall w x, In x (PyDict.list_at w d) -> In x (PyDict.list_at w d'))
      /\ (forall w, In w addresses -> In ca (PyDict.list_at w d')).
Proof.
  induction addresses as [|a rest IH]; intros d Hc.
  - exists d. repeat split; [tauto|intros w []].
  - rewrite (index_contract_cons ca a a rest d (Hc a (or_introl eq_refl))).
    set (d1 := if negb (PyDict.mem a d) then PyDict.set a [] d else d).
    assert (forall w, PyDict.list_at w d1 = PyDict.list_at w d) as Hd1.
    { intros w. subst d1. destruct (PyDict.mem a d) eqn:Em; cbn [negb];
        [reflexivity|]. apply pydict_list_at_fresh. exact Em. }
    assert (exists l, PyDict.get a d1 = Some l) as [l Eg].
    { subst d1. unfold PyDict.mem. destruct (PyDict.get a d) as [l|] eqn:E;
        cbn [negb]; [eauto|]. rewrite pydict_get_set_same. eauto. }
    rewrite Eg.
    destruct (IH (if negb (existsb (PyDict.str_eqb ca) l)
                  then PyDict.set a (l ++ [ca]) d1 else d1))
      as (d' & Hd' & Hmono & Hall).
    { intros a' Ha'. apply Hc. right. exact Ha'. }
    exists d'. split; [exact Hd'|]. split.
    + intros w x Hx. apply Hmono. apply (contract_step_list_at a ca w d1 l Eg).
      left. rewrite Hd1. exact Hx.
    + intros w [<-|Hw]; [|apply Hall; exact Hw].
      apply Hmono. apply (contract_step_list_at a ca a d1 l Eg). right.
      split; reflexivity.
Qed.

Lemma index_contracts_canonical (contracts : list contract_status) :
  forall cs0 d0,
    (forall c a, In c contracts -> In a (map fst (contributions c)) ->
                 to_checksum_address_text a = Some a) ->
    exists cs d,
      index_contracts' contracts cs0 d0 = Ok (cs, d)
      /\ (forall w x, In x (PyDict.list_at w d0) -> In x (PyDict.list_at w d))
      /\ (forall c w, In c contracts -> In w (map fst (contributions c)) ->
                      In (contract_address c) (PyDict.list_at w d)).
Proof.
  induction contracts as [|c rest IH]; intros cs0 d0 Hc.
  - exists cs0, d0. repeat split; [tauto|intros c w []].
  - cbn [index_contracts].
    destruct (index_contract_canonical (contract_address c)
                (map fst (contributions c)) d0) as (d1 & -> & Hmono1 & Hall1).
    { intros a Ha. apply (Hc c a); [left; reflexivity|exact Ha]. }
    destruct (IH (PyDict.set (contract_address c) c cs0) d1)
      as (cs & d & -> & Hmono & Hall).
    { intros c' a Hc' Ha. apply (Hc c' a); [right; exact Hc'|exact Ha]. }
    exists cs, d. split; [reflexivity|]. split.
    + intros w x Hx. apply Hmono, Hmono1, Hx.
    + intros c' w [<-|Hc'] Hw; [|apply Hall; assumption].
      apply Hmono, Hall1, Hw.
Qed.

(** X22.  When the contracts report their contributors in checksum form,
    [update_contract_statuses] succeeds and its index is exact: a
    contract is listed under a wallet if and only if it is one of the
    contracts given and that wallet is among its contributors. *)
Theorem update_contract_statuses_canonical (contracts : list contract_status) :
  (forall c a, In c contracts -> In a (map fst (contributions c)) ->
               to_checksum_address_text a = Some a) ->
  exists app_contracts app_contributors,
    update_contract_statuses to_checksum_address_text contracts
    = Ok (app_contracts, app_contributors)
    /\ forall wallet address : str,
         In address (PyDict.list_at wallet app_contributors)
         <-> exists c, In c contracts /\ contract_address c = address
                       /\ In wallet (map fst (contributions c)).
Proof.
  intros Hc. unfold update_contract_statuses.
  destruct (index_contracts_canonical contracts [] [] Hc) as (cs & d & H & _ & Hall).
  exists cs, d. split; [exact H|]. intros wallet address. split.
  - intros Hin. destruct (index_contracts_sound _ _ _ _ _ H) as (S & _).
    destruct (S wallet address Hin) as [[]|(c & a & Hin_c & Hca & Ha & Hf)].
    exists c. repeat split; try assumption.
    rewrite (Hc c a Hin_c Ha) in Hf. injection Hf as <-. exact Ha.
  - intros (c & Hin_c & <- & Hw). apply Hall; assumption.
Qed.

Section Reset.

(** The addresses as the contracts report them. *)
Variable reported : str -> Prop.

Hypothesis reported_not_canonical :
  forall a, reported a ->
            exists k, to_checksum_address_text a = Some k /\ ~ reported k.

Lemma index_contract_reset (ca : str) (addresses : list str) :
  forall d,
    (forall a, In a addresses -> reported a) ->
    (forall a, reported a -> PyDict.mem a d = false) ->
    exists d',
      index_contract' ca addresses d = Ok d'
      /\ (forall a, reported a -> PyDict.mem a d' = false)
      /\ forall w,
           PyDict.list_at w d'
           = if existsb (fun a => match to_checksum_address_text a with
                                  | Some k => PyDict.str_eqb k w
                                  | None => false
                                  end) addresses
             then [ca] else PyDict.list_at w d.
Proof.
  induction addresses as [|a rest IH]; intros d Hrep Hinv.
  - exists d. repeat split; assumption.
  - destruct (reported_not_canonical a (Hrep a (or_introl eq_refl)))
      as (k & Hf & Hk).
    rewrite (index_contract_cons ca a k rest d Hf).
    rewrite (Hinv a (Hrep a (or_introl eq_refl))). cbn [negb].
    rewrite pydict_get_set_same. cbn [existsb negb app].
    destruct (IH (PyDict.set k [ca] (PyDict.set k [] d)))
      as (d' & Hd' & Hinv' & Hl).
    { intros a' Ha'. apply Hrep. right. exact Ha'. }
    { intros a' Ha'. destruct (PyDict.mem a' _) eqn:Em; [|reflexivity].
      apply pydict_mem_set in Em. destruct Em as [->|Em]; [contradiction|].
      apply pydict_mem_set in Em. destruct Em as [->|Em]; [contradiction|].
      rewrite (Hinv a' Ha') in Em. discriminate. }
    exists d'. split; [exact Hd'|]. split; [exact Hinv'|].
    intros w. rewrite Hl, Hf.
    destruct (existsb _ rest); [rewrite orb_true_r; reflexivity|].
    rewrite orb_false_r. destruct (str_eq_dec k w) as [<-|Hne].
    + rewrite pydict_str_eqb_refl. apply pydict_list_at_set_same.
    + rewrite pydict_str_eqb_neq by exact Hne.
      rewrite !pydict_list_at_set_other by exact Hne. reflexivity.
Qed.

Lemma existsb_formats_false (addresses : list str) (w : str) :
  (forall a, In a addresses -> to_checksum_address_text a <> Some w) ->
  existsb (fun a => match to_checksum_address_text a with
                    | Some k => PyDict.str_eqb k w
                    | None => false
                    end) addresses = false.
Proof.
  intros H. destruct (existsb _ addresses) eqn:E; [|reflexivity].
  apply existsb_exists in E. destruct E as (a & Ha & E).
  destruct (to_checksum_address_text a) as [k|] eqn:Ef; [|discriminate].
  apply pydict_str_eqb_eq in E. subst k. destruct (H a Ha Ef).
Qed.

Lemma existsb_formats_true (addresses : list str) (w : str) :
  (exists a, In a addresses /\ to_checksum_address_text a = Some w) ->
  existsb (fun a => match to_checksum_address_text a with
                    | Some k => PyDict.str_eqb k w
                    | None => false
                    end) addresses = true.
Proof.
  intros (a & Ha & Hf). apply existsb_exists. exists a. split; [exact Ha|].
  rewrite Hf. apply pydict_str_eqb_refl.
Qed.

Lemma index_contracts_reset_pass (contracts : list contract_status) (w : str) :
  forall cs0 d0,
    (forall c a, In c contracts -> In a (map fst (contributions c)) -> reported a) ->
    (forall a, reported a -> PyDict.mem a d0 = false) ->
    exists cs d,
      index_contracts' contracts cs0 d0 = Ok (cs, d)
      /\ (forall a, reported a -> PyDict.mem a d = false)
      /\ ((forall c a, In c contracts -> In a (map fst (contributions c)) ->
                       to_checksum_address_text a <> Some w) ->
          PyDict.list_at w d = PyDict.list_at w d0).
Proof.
  induction contracts as [|c rest IH]; intros cs0 d0 Hrep Hinv.
  - exists cs0, d0. split; [reflexivity|]. split; [exact Hinv|reflexivity].
  - cbn [index_contracts].
    destruct (index_contract_reset (contract_address c)
                (map fst (contributions c)) d0) as (d1 & -> & Hinv1 & Hl1).
    { intros a Ha. apply (Hrep c a); [left; reflexivity|exact Ha]. }
    { exact Hinv. }
    destruct (IH (PyDict.set (contract_address c) c cs0) d1)
      as (cs & d & -> & Hinv2 & Hl2).
    { intros c' a Hc' Ha. apply (Hrep c' a); [right; exact Hc'|exact Ha]. }
    { exact Hinv1. }
    exists cs, d. split; [reflexivity|]. split; [exact Hinv2|].
    intros Hno. rewrite Hl2, Hl1, existsb_formats_false; [reflexivity| |].
    + intros a Ha. apply (Hno c a); [left; reflexivity|exact Ha].
    + intros c' a Hc' Ha. apply (Hno c' a); [right; exact Hc'|exact Ha].
Qed.

Lemma index_contracts_reset_last (pre : list contract_status)
    (c : contract_status) (post : list contract_status) (w : str) :
  forall cs0 d0,
    (forall c' a, In c' (pre ++ c :: post) -> In a (map fst (contributions c')) ->
                  reported a) ->
    (forall a, reported a -> PyDict.mem a d0 = false) ->
    (exists a, In a (map fst (contributions c))
               /\ to_checksum_address_text a = Some w) ->
    (forall c' a, In c' post -> In a (map fst (contributions c')) ->
                  to_checksum_address_text a <> Some w) ->
    exists cs d,
      index_contracts' (pre ++ c :: post) cs0 d0 = Ok (cs, d)
      /\ PyDict.list_at w d = [contract_address c].
Proof.
  induction pre as [|p pre IH]; intros cs0 d0 Hrep Hinv Hhit Hno;
    cbn [app index_contracts].
  - destruct (index_contract_reset (contract_address c)
                (map fst (contributions c)) d0) as (d1 & -> & Hinv1 & Hl1).
    { intros a Ha. apply (Hrep c a); [left; reflexivity|exact Ha]. }
    { exact Hinv. }
    destruct (index_contracts_reset_pass post w
                (PyDict.set (contract_address c) c cs0) d1)
      as (cs & d & -> & _ & Hl2).
    { intros c' a Hc' Ha. apply (Hrep c' a); [right; exact Hc'|exact Ha]. }
    { exact Hinv1. }
    exists cs, d. split; [reflexivity|].
    rewrite (Hl2 Hno), Hl1, existsb_formats_true by exact Hhit. reflexivity.
  - destruct (index_contract_reset (contract_address p)
                (map fst (contributions p)) d0) as (d1 & -> & Hinv1 & _).
    { intros a Ha. apply (Hrep p a); [left; reflexivity|exact Ha]. }
    { exact Hinv. }
    apply IH; try assumption.
    intros c' a Hc' Ha. apply (Hrep c' a); [right; exact Hc'|exact Ha].
Qed.

End Reset.

(** X23.  When the contracts report their contributors in a form that
    [eth_format] changes (so that no checksum form is itself an address
    reported), the index keeps one contract per wallet: the list under a
    wallet is the last contract given that has the wallet among its
    contributors, and the earlier contracts of that wallet are gone.  The
    test for a new wallet looks the reported address up in the index,
    whose keys are checksum forms, and so starts the list afresh each
    time. *)
Theorem update_contract_statuses_keeps_last (pre : list contract_status)
    (c : contract_status) (post : list contract_status) (wallet : str) :
  (forall c' a, In c' (pre ++ c :: post) -> In a (map fst (contributions c')) ->
     exists k,
       to_checksum_address_text a = Some k
       /\ forall c'' a', In c'' (pre ++ c :: post) ->
                         In a' (map fst (contributions c'')) -> k <> a') ->
  (exists a, In a (map fst (contributions c))
             /\ to_checksum_address_text a = Some wallet) ->
  (forall c' a, In c' post -> In a (map fst (contributions c')) ->
                to_checksum_address_text a <> Some wallet) ->
  exists app_contracts app_contributors,
    update_contract_statuses to_checksum_address_text (pre ++ c :: post)
    = Ok (app_contracts, app_contributors)
    /\ PyDict.list_at wallet app_contributors = [contract_address c].
Proof.
  intros Hform Hhit Hno. unfold update_contract_statuses.
  apply (index_contracts_reset_last
           (fun a => exists c', In c' (pre ++ c :: post)
                                /\ In a (map fst (contributions c'))));
    try assumption.
  - intros a (c' & Hc' & Ha). destruct (Hform c' a Hc' Ha) as (k & Hf & Hk).
    exists k. split; [exact Hf|]. intros (c'' & Hc'' & Ha').
    exact (Hk c'' k Hc'' Ha' eq_refl).
  - intros c' a Hc' Ha. exists c'. split; assumption.
  - intros a _. reflexivity.
Qed.

(** With an idempotent formatter the keys of the index are checksum
    forms, and the loop fails on an address without one only. *)
Lemma index_contract_idempotent (ca : str) (addresses : list str) :
  (forall a k, to_checksum_address_text a = Some k ->
               to_checksum_address_text k = Some k) ->
  forall d,
    (forall k, PyDict.mem k d = true -> to_checksum_address_text k = Some k) ->
    match index_contract' ca addresses d with
    | Ok d' =>
        (forall k, PyDict.mem k d' = true -> to_checksum_address_text k = Some k)
        /\ forall a, In a addresses -> to_checksum_address_text a <> None
    | Fault f =>
        exists msg a, f = Exception (TypeError msg) /\ In a addresses
                      /\ to_checksum_address_text a = None
    end.
Proof.
  intros Hidem. induction addresses as [|a rest IH]; intros d Hinv.
  - cbn. split; [exact Hinv|intros a []].
  - destruct (to_checksum_address_text a) as [wk|] eqn:Ef.
    2:{ destruct (index_contract_cons_none ca a rest d Ef) as [msg ->].
        exists msg, a. repeat split; [left; reflexivity|exact Ef]. }
    rewrite (index_contract_cons ca a wk rest d Ef).
    set (d1 := if negb (PyDict.mem a d) then PyDict.set wk [] d else d).
    assert (forall k, PyDict.mem k d1 = true ->
                      to_checksum_address_text k = Some k) as Hinv1.
    { intros k. subst d1. destruct (PyDict.mem a d); cbn [negb]; [apply Hinv|].
      intros Hm. apply pydict_mem_set in Hm. destruct Hm as [->|Hm];
        [exact (Hidem _ _ Ef)|exact (Hinv k Hm)]. }
    assert (exists l, PyDict.get wk d1 = Some l) as [l Eg].
    { subst d1. destruct (PyDict.mem a d) eqn:Em; cbn [negb].
      - pose proof (Hinv a Em) as Ha. rewrite Ef in Ha. injection Ha as ->.
        unfold PyDict.mem in Em. destruct (PyDict.get a d); [eauto|discriminate].
      - rewrite pydict_get_set_same. eauto. }
    rewrite Eg.
    specialize (IH (if negb (existsb (PyDict.str_eqb ca) l)
                    then PyDict.set wk (l ++ [ca]) d1 else d1)).
    destruct (index_contract' ca rest _) as [d'|f].
    + destruct IH as [Hk Hall].
      { intros k. destruct (existsb _ l); cbn [negb]; [apply Hinv1|].
        intros Hm. apply pydict_mem_set in Hm. destruct Hm as [->|Hm];
          [exact (Hidem _ _ Ef)|exact (Hinv1 k Hm)]. }
      split; [exact Hk|]. intros a' [<-|Ha']; [congruence|exact (Hall a' Ha')].
    + destruct IH as (msg & a' & -> & Ha' & Hn).
      { intros k. destruct (existsb _ l); cbn [negb]; [apply Hinv1|].
        intros Hm. apply pydict_mem_set in Hm. destruct Hm as [->|Hm];
          [exact (Hidem _ _ Ef)|exact (Hinv1 k Hm)]. }
      exists msg, a'. repeat split; [right; exact Ha'|exact Hn].
Qed.

Lemma index_contracts_idempotent (contracts : list contract_status) :
  (forall a k, to_checksum_address_text a = Some k ->
               to_checksum_address_text k = Some k) ->
  forall cs0 d0,
    (forall k, PyDict.mem k d0 = true -> to_checksum_address_text k = Some k) ->
    match index_contracts' contracts cs0 d0 with
    | Ok _ =>
        forall c a, In c contracts -> In a (map fst (contributions c)) ->
                    to_checksum_address_text a <> None
    | Fault f =>
        exists msg c a, f = Exception (TypeError msg) /\ In c contracts
                        /\ In a (map fst (contributions c))
                        /\ to_checksum_address_text a = None
    end.
Proof.
  intros Hidem. induction contracts as [|c rest IH]; intros cs0 d0 Hinv.
  - cbn. intros c a [].
  - cbn [index_contracts].
    pose proof (index_contract_idempotent (contract_address c)
                  (map fst (contributions c)) Hidem d0 Hinv) as H1.
    destruct (index_contract' (contract_address c) (map fst (contributions c)) d0)
      as [d1|f].
    + destruct H1 as [Hinv1 Hall1].
      specialize (IH (PyDict.set (contract_address c) c cs0) d1 Hinv1).
      destruct (index_contracts' rest _ d1) as [r|f].
      * intros c' a [<-|Hc'] Ha; [exact (Hall1 a Ha)|exact (IH c' a Hc' Ha)].
      * destruct IH as (msg & c' & a & -> & Hc' & Ha & Hn).
        exists msg, c', a. repeat split; [right; exact Hc'|exact Ha|exact Hn].
    + destruct H1 as (msg & a & -> & Ha & Hn).
      exists msg, c, a. repeat split; [left; reflexivity|exact Ha|exact Hn].
Qed.

(** X24.  With a formatter that leaves its own results unchanged (as a
    checksum formatter does), [update_contract_statuses] either succeeds,
    and then every contributor address reported has a checksum form, or
    fails with the [TypeError] of [eth_format] on a reported address that
    has none.  It never fails with a [KeyError] on its own index. *)
Theorem update_contract_statuses_outcomes (contracts : list contract_status) :
  (forall a k, to_checksum_address_text a = Some k ->
               to_checksum_address_text k = Some k) ->
  (exists app_contracts app_contributors,
      update_contract_statuses to_checksum_address_text contracts
      = Ok (app_contracts, app_contributors)
      /\ forall c a, In c contracts -> In a (map fst (contributions c)) ->
                     to_checksum_address_text a <> None)
  \/ (exists msg c a,
        update_contract_statuses to_checksum_address_text contracts
        = Fault (Exception (TypeError msg))
        /\ In c contracts /\ In a (map fst (contributions c))
        /\ to_checksum_address_text a = None).
Proof.
  intros Hidem. unfold update_contract_statuses.
  pose proof (index_contracts_idempotent contracts Hidem [] []) as H.
  destruct (index_contracts' contracts [] []) as [[cs d]|f].
  - left. exists cs, d. split; [reflexivity|]. apply H. intros k Hk. discriminate.
  - right. destruct H as (msg & c & a & -> & Hc & Ha & Hn).
    { intros k Hk. discriminate. }
    exists msg, c, a. auto.
Qed.

End ContractIndexFacts.

(** *** The indices on sample inputs *)

(** The update stops at the address that cannot be formatted and leaves
    the index of what came before it: the first node, and the second
    under its first address only. *)
Example update_service_nodes_partial_index :
  exists msg,
    update_service_nodes_in_place IndexSample.picky_checksum
      IndexSample.nodes_with_failing
    = ([(IndexSample.wallet_a, [0]); (IndexSample.wallet_b, [1])],
       Some (TypeError msg)).
Proof. eexists. vm_compute. reflexivity. Qed.

Lemma prefix_checksum_idempotent (a k : str) :
  IndexSample.prefix_checksum a = Some k ->
  IndexSample.prefix_checksum k = Some k.
Proof.
  unfold IndexSample.prefix_checksum.
  destruct (IndexSample.starts_0x a) eqn:E; intros H; injection H as <-.
  - rewrite E. reflexivity.
  - reflexivity.
Qed.

Lemma update_service_nodes_index_witness :
  In 1 (PyDict.list_at IndexSample.wallet_a IndexSample.node_index)
  <-> 0 <= 1
      /\ exists node address,
           nth_error IndexSample.nodes (Z.to_nat 1) = Some node
           /\ In address (map fst (contributors node))
           /\ wallet_key_of IndexSample.prefix_checksum address
              = Return IndexSample.wallet_a.
Proof.
  apply (update_service_nodes_index IndexSample.prefix_checksum
           IndexSample.nodes IndexSample.node_index).
  vm_compute. reflexivity.
Defined.

Lemma update_contract_statuses_sound_witness :
  NoDup (PyDict.list_at IndexSample.wallet_a IndexSample.contract_index)
  /\ forall address : str,
       In address (PyDict.list_at IndexSample.wallet_a IndexSample.contract_index) ->
       (exists c a,
           In c IndexSample.contracts /\ contract_address c = address
           /\ In a (map fst (contributions c))
           /\ IndexSample.prefix_checksum a = Some IndexSample.wallet_a)
       /\ exists details,
            PyDict.get address IndexSample.contract_details = Some details
            /\ In details IndexSample.contracts
            /\ contract_address details = address.
Proof.
  apply (update_contract_statuses_sound IndexSample.prefix_checksum
           IndexSample.contracts IndexSample.contract_details
           IndexSample.contract_index).
  vm_compute. reflexivity.
Defined.

Lemma update_contract_statuses_canonical_witness :
  exists app_contracts app_contributors,
    update_contract_statuses IndexSample.prefix_checksum IndexSample.contracts
    = Ok (app_contracts, app_contributors)
    /\ forall wallet address : str,
         In address (PyDict.list_at wallet app_contributors)
         <-> exists c, In c IndexSample.contracts /\ contract_address c = address
                       /\ In wallet (map fst (contributions c)).
Proof.
  apply (update_contract_statuses_canonical IndexSample.prefix_checksum
           IndexSample.contracts).
  intros c a [<-|[<-|[]]] Ha; cbn [contributions IndexSample.status_1
    IndexSample.status_2 map fst In] in Ha;
    repeat (destruct Ha as [<-|Ha]; [vm_compute; reflexivity|]); destruct Ha.
Defined.

Lemma update_contract_statuses_keeps_last_witness :
  exists app_contracts app_contributors,
    update_contract_statuses IndexSample.prefix_checksum
      ([IndexSample.bare_contract IndexSample.contract_1]
       ++ IndexSample.bare_contract IndexSample.contract_2 :: [])
    = Ok (app_contracts, app_contributors)
    /\ PyDict.list_at IndexSample.wallet_a app_contributors
       = [contract_address (IndexSample.bare_contract IndexSample.contract_2)].
Proof.
  apply (update_contract_statuses_keeps_last IndexSample.prefix_checksum
           [IndexSample.bare_contract IndexSample.contract_1]
           (IndexSample.bare_contract IndexSample.contract_2) []
           IndexSample.wallet_a).
  - intros c' a Hc' Ha. exists IndexSample.wallet_a. split.
    + destruct Hc' as [<-|[<-|[]]]; destruct Ha as [<-|[]]; vm_compute; reflexivity.
    + intros c'' a' Hc'' Ha'.
      destruct Hc'' as [<-|[<-|[]]]; destruct Ha' as [<-|[]]; vm_compute;
        discriminate.
  - exists IndexSample.bare_wallet. split; [left; reflexivity|].
    vm_compute. reflexivity.
  - intros c' a [].
Defined.

Lemma update_contract_statuses_outcomes_witness :
  (exists app_contracts app_contributors,
      update_contract_statuses IndexSample.prefix_checksum IndexSample.contracts
      = Ok (app_contracts, app_contributors)
      /\ forall c a, In c IndexSample.contracts ->
                     In a (map fst (contributions c)) ->
                     IndexSample.prefix_checksum a <> None)
  \/ (exists msg c a,
        update_contract_statuses IndexSample.prefix_checksum IndexSample.contracts
        = Fault (Exception (TypeError msg))
        /\ In c IndexSample.contracts /\ In a (map fst (contributions c))
        /\ IndexSample.prefix_checksum a = None).
Proof.
  apply (update_contract_statuses_outcomes IndexSample.prefix_checksum
           IndexSample.contracts).
  exact prefix_checksum_idempotent.
Defined.

(** ** [decode_bytes] *)

Lemma fromhex_hex (b : bytes) : fromhex (hex b) = Return b.
Proof.
  induction b as [|x b IH]; [reflexivity|].
  cbn [hex]. rewrite fromhex_hex_byte, IH. reflexivity.
Qed.

Lemma hex_hexdigits (b : bytes) : forallb is_hexdigit (hex b) = true.
Proof.
  induction b as [|x b IH]; [reflexivity|].
  cbn [hex forallb]. rewrite IH. destruct x; reflexivity.
Qed.

Lemma hex_len (b : bytes) : len (hex b) = len b * 2.
Proof.
  unfold len. induction b as [|x b IH]; [reflexivity|].
  cbn [hex length]. lia.
Qed.

Lemma char_in_replace (c a b : ascii) (x : str) :
  Ascii.eqb c a = false -> char_in c x = true ->
  char_in c (replace_char a b x) = true.
Proof.
  intros Hca. unfold char_in, replace_char.
  induction x as [|y x IH]; cbn [existsb map]; [discriminate|].
  intros H. apply orb_prop in H. destruct H as [H|H].
  - apply Ascii.eqb_eq in H. subst y. rewrite Hca, Ascii.eqb_refl. reflexivity.
  - rewrite (IH H). apply orb_true_r.
Qed.

Lemma char_in_not_hexdigits (c : ascii) (x : str) :
  is_hexdigit c = false -> char_in c x = true -> forallb is_hexdigit x = false.
Proof.
  intros Hc. unfold char_in. induction x as [|y x IH]; cbn [existsb forallb];
    [discriminate|].
  intros H. apply orb_prop in H. destruct H as [H|H].
  - apply Ascii.eqb_eq in H. subst y. rewrite Hc. reflexivity.
  - rewrite (IH H). apply andb_false_r.
Qed.

Section DecodeFacts.

Variable is_base64 : str -> bool.
Variable from_base64 : str -> bytes.

Local Abbreviation decode_bytes' := (decode_bytes is_base64 from_base64).

(** X25.  Hexadecimal input of the right size is always decoded, whatever
    the base64 library says of it, and to exactly [length] bytes: for a
    [length] of 5 or more, text of [2 * length] hexadecimal digits gives
    that many bytes, and the hexadecimal writing of a byte string of that
    length gives the byte string back. *)
Theorem decode_bytes_hex (k : str) (length : Z) :
  5 <= length ->
  (forall x, len x = length * 2 -> forallb is_hexdigit x = true ->
             exists b, decode_bytes' k x length = Ok b /\ len b = length)
  /\ (forall b, len b = length -> decode_bytes' k (hex b) length = Ok b).
Proof.
  intros H5.
  assert (negb (5 <=? length) = false) as Hassert.
  { destruct (Z.leb_spec 5 length); [reflexivity|lia]. }
  split.
  - intros x Hlen Hhex. unfold decode_bytes. rewrite Hassert. cbv zeta.
    rewrite Hlen, Z.eqb_refl, Hhex. cbn [andb].
    destruct (fromhex_hexdigits (Z.to_nat length) x) as (b & -> & Hb).
    + unfold len in Hlen. lia.
    + exact Hhex.
    + exists b. split; [reflexivity|]. unfold len. lia.
  - intros b Hlen. unfold decode_bytes. rewrite Hassert. cbv zeta.
    rewrite hex_len, Hlen, Z.eqb_refl, hex_hexdigits, fromhex_hex. reflexivity.
Qed.

(** X26.  Text in the URL-safe alphabet is never decoded.  With a base64
    library that knows the standard alphabet only, any text that holds a
    [-] or a [_] is refused with [ParseError] under its field: the
    rewriting meant to make it standard replaces [/] by [_] and [+] by
    [-], the wrong way round, and leaves every [-] and [_] in place. *)
Theorem decode_bytes_url_safe_refused (k x : str) (length : Z) :
  (forall y, is_base64 y = true ->
             char_in "-" y = false /\ char_in "_" y = false) ->
  5 <= length ->
  char_in "-" x || char_in "_" x = true ->
  exists reason,
    decode_bytes' k x length = Fault (Exception (ParseError k reason)).
Proof.
  intros Hstd H5 Hx.
  assert (forall y, char_in "-" y || char_in "_" y = true -> is_base64 y = false)
    as Hno.
  { intros y Hy. destruct (is_base64 y) eqn:E; [|reflexivity].
    destruct (Hstd y E) as [H1 H2]. rewrite H1, H2 in Hy. discriminate. }
  unfold decode_bytes.
  destruct (Z.leb_spec 5 length) as [_|Hlt]; [|lia]. cbn [negb]. cbv zeta.
  assert (forallb is_hexdigit x = false) as Hhex.
  { apply orb_prop in Hx. destruct Hx as [Hx|Hx];
      [apply (char_in_not_hexdigits "-") | apply (char_in_not_hexdigits "_")];
      try exact Hx; reflexivity. }
  rewrite Hhex, andb_false_r, (Hno x Hx), Hx.
  assert (is_base64 (replace_char "+" "-" (replace_char "/" "_" x)) = false)
    as Hx'.
  { apply Hno. apply orb_prop in Hx. apply orb_true_iff.
    destruct Hx as [Hx|Hx]; [left|right];
      repeat (apply char_in_replace; [reflexivity|]); exact Hx. }
  rewrite Hx'.
  destruct ((len x =? (length * 4 + 2) / 3) || (len x =? (length + 2) / 3 * 4));
    eexists; reflexivity.
Qed.

(** X27.  The ways out of [decode_bytes].  It fails its assertion exactly
    when [length] is below 5.  Otherwise it returns bytes only for text of
    [2 * length] hexadecimal digits or for text of one of the two base64
    sizes that the library accepts as given or as rewritten, and every
    other text raises [ParseError] under its field; the [ValueError] of
    [bytes.fromhex] never escapes. *)
Theorem decode_bytes_outcomes (k x : str) (length : Z) :
  (decode_bytes' k x length = Fault AssertionError <-> length < 5)
  /\ (5 <= length ->
      (exists b,
          decode_bytes' k x length = Ok b
          /\ ((len x = length * 2 /\ forallb is_hexdigit x = true
               /\ len b = length)
              \/ ((len x = (length * 4 + 2) / 3 \/ len x = (length + 2) / 3 * 4)
                  /\ (is_base64 x = true
                      \/ is_base64 (replace_char "+" "-" (replace_char "/" "_" x))
                         = true))))
      \/ exists reason,
           decode_bytes' k x length = Fault (Exception (ParseError k reason))).
Proof.
  unfold decode_bytes. destruct (Z.leb_spec 5 length) as [H5|Hlt]; cbn [negb].
  2:{ split; [split; [intros _; exact Hlt|reflexivity]|lia]. }
  cbv zeta. split.
  { split; [|lia]. intros H. exfalso.
    destruct ((len x =? length * 2) && forallb is_hexdigit x) eqn:E1.
    - apply andb_prop in E1. destruct E1 as [E1 E2]. apply Z.eqb_eq in E1.
      destruct (fromhex_hexdigits (Z.to_nat length) x) as (b & Hb & _);
        [unfold len in E1; lia|exact E2|]. rewrite Hb in H. discriminate.
    - destruct ((len x =? (length * 4 + 2) / 3) || (len x =? (length + 2) / 3 * 4));
        [|discriminate].
      destruct (is_base64 x); [discriminate|].
      destruct (is_base64 _); discriminate. }
  intros _.
  destruct ((len x =? length * 2) && forallb is_hexdigit x) eqn:E1.
  - apply andb_prop in E1. destruct E1 as [E1 E2]. apply Z.eqb_eq in E1.
    destruct (fromhex_hexdigits (Z.to_nat length) x) as (b & Hb & Hlen);
      [unfold len in E1; lia|exact E2|]. rewrite Hb. left. exists b.
    split; [reflexivity|]. left. repeat split; try assumption. unfold len. lia.
  - destruct ((len x =? (length * 4 + 2) / 3) || (len x =? (length + 2) / 3 * 4))
      eqn:E2; [|right; eexists; reflexivity].
    assert (len x = (length * 4 + 2) / 3 \/ len x = (length + 2) / 3 * 4) as Hsz.
    { apply orb_prop in E2. destruct E2 as [E2|E2]; apply Z.eqb_eq in E2; tauto. }
    destruct (is_base64 x) eqn:E3.
    + left. eexists. split; [reflexivity|]. right. split; [exact Hsz|].
      left. reflexivity.
    + destruct (char_in "-" x || char_in "_" x).
      * destruct (is_base64 (replace_char "+" "-" (replace_char "/" "_" x))) eqn:E4.
        -- left. eexists. split; [reflexivity|]. right. split; [exact Hsz|].
           right. reflexivity.
        -- right. eexists. reflexivity.
      * rewrite E3. right. eexists. reflexivity.
Qed.

End DecodeFacts.

Lemma standard_base64_alphabet (y : str) :
  DecodeSample.standard_base64 y = true ->
  char_in "-" y = false /\ char_in "_" y = false.
Proof.
  unfold DecodeSample.standard_base64, char_in.
  induction y as [|c y IH]; cbn [forallb existsb]; [auto|].
  intros H. apply andb_prop in H. destruct H as [Hc Hy].
  destruct (IH Hy) as [-> ->]. rewrite !orb_false_r.
  split.
  - destruct (Ascii.eqb "-" c) eqn:E; [|reflexivity].
    apply Ascii.eqb_eq in E. subst c. discriminate.
  - destruct (Ascii.eqb "_" c) eqn:E; [|reflexivity].
    apply Ascii.eqb_eq in E. subst c. discriminate.
Qed.

Lemma decode_bytes_hex_witness :
  (forall x, len x = 5 * 2 -> forallb is_hexdigit x = true ->
             exists b,
               decode_bytes DecodeSample.standard_base64 DecodeSample.no_bytes
                 (lit "pubkey") x 5 = Ok b
               /\ len b = 5)
  /\ (forall b, len b = 5 ->
                decode_bytes DecodeSample.standard_base64 DecodeSample.no_bytes
                  (lit "pubkey") (hex b) 5 = Ok b).
Proof.
  apply (decode_bytes_hex DecodeSample.standard_base64 DecodeSample.no_bytes
           (lit "pubkey") 5).
  lia.
Defined.

Lemma decode_bytes_url_safe_refused_witness :
  exists reason,
    decode_bytes DecodeSample.standard_base64 DecodeSample.no_bytes
      (lit "pubkey") DecodeSample.url_safe_text 5
    = Fault (Exception (ParseError (lit "pubkey") reason)).
Proof.
  apply (decode_bytes_url_safe_refused DecodeSample.standard_base64
           DecodeSample.no_bytes (lit "pubkey") DecodeSample.url_safe_text 5).
  - exact standard_base64_alphabet.
  - lia.
  - vm_compute. reflexivity.
Defined.

(** ** [parse_query_params] *)

Lemma getlist_app (k : str) (l1 l2 : list (str * str)) :
  getlist k (l1 ++ l2) = getlist k l1 ++ getlist k l2.
Proof. unfold getlist. rewrite filter_app, map_app. reflexivity. Qed.

Lemma getlist_nil_iff (k : str) (l : list (str * str)) :
  getlist k l = [] <-> ~ In k (map fst l).
Proof.
  unfold getlist. induction l as [|[k0 v0] l IH]; cbn [filter map fst In].
  - tauto.
  - destruct (str_eq_dec k0 k) as [->|Hne].
    + rewrite pydict_str_eqb_refl. cbn [map]. split; [discriminate|].
      intros H. destruct H. left. reflexivity.
    + rewrite pydict_str_eqb_neq by exact Hne. rewrite IH. tauto.
Qed.

Lemma existsb_key_In (k : str) (l : list str) :
  existsb (PyDict.str_eqb k) l = true <-> In k l.
Proof. apply existsb_str_eqb. Qed.

Lemma pydict_get_In {V} (k : str) (v : V) (d : PyDict.dict V) :
  PyDict.get k d = Some v -> In (k, v) d.
Proof.
  induction d as [|[k0 v0] d IH]; cbn [PyDict.get In]; [discriminate|].
  destruct (PyDict.str_eqb k0 k) eqn:E.
  - apply pydict_str_eqb_eq in E. intros H. injection H as <-. left. congruence.
  - intros H. right. exact (IH H).
Qed.

Lemma pydict_In_get {V} (k : str) (v : V) (d : PyDict.dict V) :
  NoDup (map fst d) -> In (k, v) d -> PyDict.get k d = Some v.
Proof.
  induction d as [|[k0 v0] d IH]; cbn [map fst In PyDict.get]; [intros _ []|].
  intros Hnd [H|H].
  - injection H as -> ->. rewrite pydict_str_eqb_refl. reflexivity.
  - inversion Hnd as [|? ? Hk0 Hd]. subst.
    destruct (str_eq_dec k0 k) as [->|Hne].
    + destruct Hk0. apply in_map_iff. exists (k, v). split; [reflexivity|exact H].
    + rewrite pydict_str_eqb_neq by exact Hne. exact (IH Hd H).
Qed.

Lemma pydict_set_NoDup {V} (k : str) (v : V) (d : PyDict.dict V) :
  NoDup (map fst d) -> NoDup (map fst (PyDict.set k v d)).
Proof.
  induction d as [|[k0 v0] d IH]; cbn [PyDict.set map fst]; intros Hnd.
  - constructor; [intros []|constructor].
  - inversion Hnd as [|? ? Hk0 Hd]. subst.
    destruct (PyDict.str_eqb k0 k) eqn:E; cbn [map fst].
    + constructor; assumption.
    + constructor; [|exact (IH Hd)]. rewrite pydict_keys_set.
      intros [H|H]; [|exact (Hk0 H)]. subst k0.
      rewrite pydict_str_eqb_refl in E. discriminate.
Qed.

Section ParseQueryFacts.

Variable V : Type.
Variable text : str -> V.

Local Abbreviation param_map' := (@param_map V).
Local Abbreviation parsed_field' := (parsed_field V text).
Local Abbreviation apply_callback' := (apply_callback V text).

Lemma param_map_NoDup (params : list (str * option (callable V))) :
  NoDup (map fst (param_map' params)).
Proof.
  unfold param_map.
  assert (forall l (d : PyDict.dict (param_spec V)),
            NoDup (map fst d) ->
            NoDup (map fst
                     (fold_left
                        (fun m kc =>
                           PyDict.set
                             (removesuffix (lit "[]") (removeprefix (lit "-") (fst kc)))
                             {| optional := startswith (lit "-") (fst kc);
                                multi := endswith (lit "[]") (fst kc);
                                callback := snd kc |} m) l d))) as H.
  { induction l as [|kc l IH]; intros d Hd; cbn [fold_left]; [exact Hd|].
    apply IH. apply pydict_set_NoDup. exact Hd. }
  apply H. constructor.
Qed.

(** Reading one more pair of a field leaves the other fields as they
    are. *)
Lemma parsed_field_other (pm : PyDict.dict (param_spec V))
    (done : list (str * str)) (parsed : PyDict.dict (entry V))
    (k0 v0 k : str) (e : entry V) :
  k0 <> k ->
  parsed_field' pm done parsed k ->
  parsed_field' pm (done ++ [(k0, v0)]) (PyDict.set k0 e parsed) k.
Proof.
  intros Hne H. unfold parsed_field in *.
  rewrite getlist_app. unfold getlist at 2. cbn [filter fst].
  rewrite pydict_str_eqb_neq by exact Hne. cbn [map]. rewrite app_nil_r.
  rewrite pydict_get_set_other by exact Hne. exact H.
Qed.

Lemma getlist_snoc_same (k v : str) (done : list (str * str)) :
  getlist k (done ++ [(k, v)]) = getlist k done ++ [v].
Proof.
  rewrite getlist_app. unfold getlist at 2. cbn [filter fst].
  rewrite pydict_str_eqb_refl. reflexivity.
Qed.

(** The first loop, from any point of the request: what each way out
    means. *)
Lemma parse_values_spec (pm : PyDict.dict (param_spec V))
    (rest : list (str * str)) :
  forall done parsed,
    (forall k, parsed_field' pm done parsed k) ->
    match parse_values V text pm rest parsed with
    | Parsed parsed' => forall k, parsed_field' pm (done ++ rest) parsed' k
    | ParseUnknownError k => In k (map fst rest) /\ PyDict.get k pm = None
    | ParseMultipleError k =>
        exists spec, PyDict.get k pm = Some spec /\ multi spec = false
                     /\ (2 <= length (getlist k (done ++ rest)))%nat
    | ParseMissingError _ => False
    | Raised f =>
        exists k v spec, In (k, v) rest /\ PyDict.get k pm = Some spec
                         /\ apply_callback' (callback spec) k v = Fault f
    end.
Proof.
  induction rest as [|[k0 v0] rest IH]; intros done parsed Hinv.
  - cbn [parse_values]. rewrite app_nil_r. exact Hinv.
  - cbn [parse_values].
    destruct (PyDict.get k0 pm) as [found|] eqn:Epm.
    2:{ split; [left; reflexivity|exact Epm]. }
    assert (forall parsed2,
              (forall k, parsed_field' pm (done ++ [(k0, v0)]) parsed2 k) ->
              match parse_values V text pm rest parsed2 with
              | Parsed parsed' =>
                  forall k, parsed_field' pm (done ++ (k0, v0) :: rest) parsed' k
              | ParseUnknownError k =>
                  In k (map fst ((k0, v0) :: rest)) /\ PyDict.get k pm = None
              | ParseMultipleError k =>
                  exists spec, PyDict.get k pm = Some spec /\ multi spec = false
                               /\ (2 <= length (getlist k (done ++ (k0, v0) :: rest)))%nat
              | ParseMissingError _ => False
              | Raised f =>
                  exists k v spec, In (k, v) ((k0, v0) :: rest)
                                   /\ PyDict.get k pm = Some spec
                                   /\ apply_callback' (callback spec) k v = Fault f
              end) as Hnext.
    { intros parsed2 Hinv2. specialize (IH _ _ Hinv2).
      rewrite <- app_assoc in IH. cbn [app] in IH.
      destruct (parse_values V text pm rest parsed2); try exact IH.
      - destruct IH as [H1 H2]. split; [right; exact H1|exact H2].
      - destruct IH as (k & v & spec & H1 & H2 & H3).
        exists k, v, spec. repeat split; [right; exact H1|exact H2|exact H3]. }
    pose proof (Hinv k0) as H0. unfold parsed_field in H0.
    destruct (multi found) eqn:Emulti.
    + (* a field that may be given several times *)
      destruct (getlist k0 done) as [|v vs] eqn:Eg.
      * rewrite H0.
        destruct (apply_callback' (callback found) k0 v0) as [x|f] eqn:Ecb.
        2:{ exists k0, v0, found. repeat split; [left; reflexivity|exact Epm|exact Ecb]. }
        apply Hnext. intros k. destruct (str_eq_dec k0 k) as [<-|Hne].
        -- unfold parsed_field. rewrite getlist_snoc_same, Eg. cbn [app].
           exists found. split; [exact Epm|]. rewrite Emulti.
           exists [x]. rewrite pydict_get_set_same. split; [reflexivity|].
           constructor; [exact Ecb|constructor].
        -- apply parsed_field_other; [exact Hne|apply Hinv].
      * destruct H0 as (spec & Hspec & H0). rewrite Epm in Hspec.
        injection Hspec as <-. rewrite Emulti in H0.
        destruct H0 as (xs & Hget & Hall). rewrite Hget.
        destruct (apply_callback' (callback found) k0 v0) as [x|f] eqn:Ecb.
        2:{ exists k0, v0, found. repeat split; [left; reflexivity|exact Epm|exact Ecb]. }
        apply Hnext. intros k. destruct (str_eq_dec k0 k) as [<-|Hne].
        -- unfold parsed_field. rewrite getlist_snoc_same, Eg. cbn [app].
           exists found. split; [exact Epm|]. rewrite Emulti.
           exists (xs ++ [x]). rewrite pydict_get_set_same. split; [reflexivity|].
           change (v :: vs ++ [v0]) with ((v :: vs) ++ [v0]).
           apply Forall2_app; [exact Hall|]. constructor; [exact Ecb|constructor].
        -- apply parsed_field_other; [exact Hne|apply Hinv].
    + (* a field that may be given once *)
      destruct (PyDict.mem k0 parsed) eqn:Emem; cbn [negb].
      * exists found. split; [exact Epm|]. split; [exact Emulti|].
        rewrite getlist_app, length_app.
        destruct (getlist k0 done) as [|v vs] eqn:Eg.
        { unfold PyDict.mem in Emem. rewrite H0 in Emem. discriminate. }
        unfold getlist. cbn [filter fst]. rewrite pydict_str_eqb_refl.
        cbn [map length]. lia.
      * destruct (apply_callback' (callback found) k0 v0) as [x|f] eqn:Ecb.
        2:{ exists k0, v0, found. repeat split; [left; reflexivity|exact Epm|exact Ecb]. }
        apply Hnext. intros k. destruct (str_eq_dec k0 k) as [<-|Hne].
        -- unfold parsed_field. rewrite getlist_snoc_same.
           destruct (getlist k0 done) as [|v vs] eqn:Eg.
           ++ cbn [app]. exists found. split; [exact Epm|]. rewrite Emulti.
              exists x. rewrite pydict_get_set_same. auto.
           ++ exfalso. destruct H0 as (spec & Hspec & H0). rewrite Epm in Hspec.
              injection Hspec as <-. rewrite Emulti in H0.
              destruct H0 as (x' & _ & Hget & _). unfold PyDict.mem in Emem.
              rewrite Hget in Emem. discriminate.
        -- apply parsed_field_other; [exact Hne|apply Hinv].
Qed.

Lemma first_missing_spec (items : list (str * param_spec V))
    (values : list (str * str)) :
  match first_missing V items values with
  | Some k => exists p, In (k, p) items /\ optional p = false
                        /\ getlist k values = []
  | None => forall k p, In (k, p) items -> optional p = false ->
                        getlist k values <> []
  end.
Proof.
  induction items as [|[k0 p0] items IH]; cbn [first_missing].
  - intros k p [].
  - destruct (negb (optional p0)
              && negb (existsb (PyDict.str_eqb k0) (map fst values))) eqn:E.
    + apply andb_prop in E. destruct E as [E1 E2].
      exists p0. split; [left; reflexivity|].
      split; [destruct (optional p0); [discriminate|reflexivity]|].
      apply getlist_nil_iff. intros H. apply existsb_key_In in H.
      rewrite H in E2. discriminate.
    + destruct (first_missing V items values) as [k|].
      * destruct IH as (p & Hp & Hrest). exists p. split; [right; exact Hp|exact Hrest].
      * intros k p [H|H] Hopt; [|exact (IH k p H Hopt)].
        injection H as -> ->. rewrite Hopt in E. cbn [negb andb] in E.
        intros Hg. apply getlist_nil_iff in Hg.
        destruct (existsb (PyDict.str_eqb k) (map fst values)) eqn:E2;
          [|discriminate].
        apply existsb_key_In in E2. exact (Hg E2).
Qed.

(** X28.  What a dict returned by [parse_query_params] holds, field by
    field.  A field that the request does not give is not in the dict.  A
    field that it gives is one that was declared; declared with [[]] it
    holds the list of what the callable returned for each of its values,
    in the order of the request, and declared without it was given once
    and holds what the callable returned for that value (the text itself
    when no callable was declared).  And every field declared without a
    leading [-] is given. *)
Theorem parse_query_params_returns (params : list (str * option (callable V)))
    (values : list (str * str)) (parsed : PyDict.dict (entry V)) :
  parse_query_params V text params values = Parsed parsed ->
  forall k : str,
    (getlist k values = [] -> PyDict.get k parsed = None)
    /\ (getlist k values <> [] ->
        exists spec,
          PyDict.get k (param_map' params) = Some spec
          /\ (multi spec = true ->
              exists xs,
                PyDict.get k parsed = Some (Many xs)
                /\ Forall2 (fun v x => apply_callback' (callback spec) k v = Ok x)
                     (getlist k values) xs)
          /\ (multi spec = false ->
              exists v x,
                getlist k values = [v]
                /\ PyDict.get k parsed = Some (One x)
                /\ apply_callback' (callback spec) k v = Ok x))
    /\ (forall spec,
           PyDict.get k (param_map' params) = Some spec ->
           optional spec = false -> getlist k values <> []).
Proof.
  unfold parse_query_params. intros H k.
  pose proof (parse_values_spec (param_map' params) values [] []) as Hspec.
  cbn [app] in Hspec.
  destruct (parse_values V text (param_map' params) values []) as [p| | | |];
    try discriminate.
  pose proof (first_missing_spec (param_map' params) values) as Hmiss.
  destruct (first_missing V (param_map' params) values); [discriminate|].
  injection H as ->.
  assert (parsed_field' (param_map' params) values parsed k) as Hk.
  { apply Hspec. intros k'. reflexivity. }
  unfold parsed_field in Hk. split; [|split].
  - intros Hg. rewrite Hg in Hk. exact Hk.
  - intros Hg. destruct (getlist k values) as [|v vs]; [destruct Hg; reflexivity|].
    destruct Hk as (spec & Hspec' & Hk). exists spec. split; [exact Hspec'|].
    split; intros Hm; rewrite Hm in Hk.
    + exact Hk.
    + destruct Hk as (x & -> & Hget & Hcb). exists v, x. auto.
  - intros spec Hget Hopt. apply (Hmiss k spec); [|exact Hopt].
    apply pydict_get_In. exact Hget.
Qed.

(** X29.  What each failure of [parse_query_params] tells.  An unknown
    field is one that the request gives and the declaration lacks; a
    multiple field is declared without [[]] and given twice or more; a
    missing field is declared without a leading [-] and not given; and
    anything else that is raised was raised by the callable of a declared
    field on a value given for it: the [append] on the dict's list never
    meets a value that is no list. *)
Theorem parse_query_params_failures (params : list (str * option (callable V)))
    (values : list (str * str)) :
  (forall field,
      parse_query_params V text params values = ParseUnknownError field ->
      In field (map fst values)
      /\ PyDict.get field (param_map' params) = None)
  /\ (forall field,
         parse_query_params V text params values = ParseMultipleError field ->
         exists spec,
           PyDict.get field (param_map' params) = Some spec
           /\ multi spec = false
           /\ (2 <= length (getlist field values))%nat)
  /\ (forall field,
         parse_query_params V text params values = ParseMissingError field ->
         exists spec,
           PyDict.get field (param_map' params) = Some spec
           /\ optional spec = false
           /\ getlist field values = [])
  /\ (forall f,
         parse_query_params V text params values = Raised f ->
         exists k v spec,
           In (k, v) values
           /\ PyDict.get k (param_map' params) = Some spec
           /\ apply_callback' (callback spec) k v = Fault f).
Proof.
  unfold parse_query_params.
  pose proof (parse_values_spec (param_map' params) values [] []) as Hspec.
  cbn [app] in Hspec.
  pose proof (first_missing_spec (param_map' params) values) as Hmiss.
  destruct (parse_values V text (param_map' params) values []) as [p|k|k|k|f].
  - specialize (Hspec (fun k' => eq_refl)).
    destruct (first_missing V (param_map' params) values) as [k|].
    + destruct Hmiss as (spec & Hin & Hopt & Hg).
      split; [|split; [|split]]; try (intros x H; discriminate H).
      intros field H. injection H as <-. exists spec.
      split; [|split; assumption].
      apply pydict_In_get; [apply param_map_NoDup|exact Hin].
    + split; [|split; [|split]]; intros x H; discriminate H.
  - destruct (Hspec (fun k' => eq_refl)).
  - specialize (Hspec (fun k' => eq_refl)).
    split; [|split; [|split]]; try (intros x H; discriminate H).
    intros field H. injection H as <-. exact Hspec.
  - specialize (Hspec (fun k' => eq_refl)).
    split; [|split; [|split]]; try (intros x H; discriminate H).
    intros field H. injection H as <-. exact Hspec.
  - specialize (Hspec (fun k' => eq_refl)).
    split; [|split; [|split]]; try (intros x H; discriminate H).
    intros f' H. injection H as <-. exact Hspec.
Qed.

End ParseQueryFacts.

Lemma parse_query_params_returns_witness :
  (getlist (lit "res_addr") QuerySample.values = [] ->
   PyDict.get (lit "res_addr") QuerySample.parsed = None)
  /\ (getlist (lit "res_addr") QuerySample.values <> [] ->
      exists spec,
        PyDict.get (lit "res_addr") (param_map str QuerySample.params) = Some spec
        /\ (multi spec = true ->
            exists xs,
              PyDict.get (lit "res_addr") QuerySample.parsed = Some (Many xs)
              /\ Forall2 (fun v x =>
                            apply_callback str (fun v => v) (callback spec)
                              (lit "res_addr") v = Ok x)
                   (getlist (lit "res_addr") QuerySample.values) xs)
        /\ (multi spec = false ->
            exists v x,
              getlist (lit "res_addr") QuerySample.values = [v]
              /\ PyDict.get (lit "res_addr") QuerySample.parsed = Some (One x)
              /\ apply_callback str (fun v => v) (callback spec)
                   (lit "res_addr") v = Ok x))
  /\ (forall spec,
         PyDict.get (lit "res_addr") (param_map str QuerySample.params) = Some spec ->
         optional spec = false ->
         getlist (lit "res_addr") QuerySample.values <> []).
Proof.
  apply (parse_query_params_returns str (fun v => v) QuerySample.params
           QuerySample.values QuerySample.parsed).
  vm_compute. reflexivity.
Defined.

(** ** [get_nodes_for_wallet] *)

Lemma wallet_service_nodes_spec (nodes : list service_node) (wallet : str)
    (indices : list Z) :
  (forall i, In i indices ->
             0 <= i /\ exists node, nth_error nodes (Z.to_nat i) = Some node) ->
  forall sns entries,
    exists picked,
      map Some picked = map (fun i => nth_error nodes (Z.to_nat i)) indices
      /\ wallet_service_nodes nodes wallet indices sns entries
         = Ok (sns ++ picked,
               entries
               ++ map (fun node =>
                         {| balance := node_balance node wallet;
                            state := if negb (active node) && funded node
                                     then Decommissioned else Running;
                            of_node := node |}) picked).
Proof.
  induction indices as [|i rest IH]; intros Hall sns entries.
  - exists []. cbn [wallet_service_nodes map]. rewrite !app_nil_r. auto.
  - destruct (Hall i (or_introl eq_refl)) as (Hi & node & Hnode).
    cbn [wallet_service_nodes]. unfold list_getitem.
    destruct (Z.leb_spec 0 i) as [_|Hlt]; [|lia]. rewrite Hnode.
    destruct (IH (fun j Hj => Hall j (or_intror Hj)) (sns ++ [node])
                (entries
                 ++ [{| balance := node_balance node wallet;
                        state := if negb (active node) && funded node
                                 then Decommissioned else Running;
                        of_node := node |}]))
      as (picked & Hp & ->).
    exists (node :: picked). cbn [map]. rewrite Hp, Hnode, <- !app_assoc.
    split; reflexivity.
Qed.

Lemma wallet_contracts_spec (contracts : PyDict.dict contract_status)
    (addresses : list str) :
  (forall a, In a addresses -> exists d, PyDict.get a contracts = Some d) ->
  forall listed entries,
    match wallet_contracts contracts addresses listed entries with
    | Ok (listed', entries') =>
        entries' = entries
        /\ map fst listed' = map fst listed ++ addresses
        /\ (forall a d, In a addresses -> PyDict.get a contracts = Some d ->
                        finalized d = true)
    | Fault f =>
        f = AttributeError
        /\ exists a d, In a addresses /\ PyDict.get a contracts = Some d
                       /\ finalized d = false
    end.
Proof.
  induction addresses as [|a rest IH]; intros Hkeys listed entries.
  - cbn [wallet_contracts]. rewrite app_nil_r. repeat split. intros a d [].
  - cbn [wallet_contracts].
    destruct (Hkeys a (or_introl eq_refl)) as [d Hd]. rewrite Hd. cbv zeta.
    destruct (finalized d) eqn:Ef.
    + specialize (IH (fun a' Ha' => Hkeys a' (or_intror Ha'))
                     (listed ++ [(a, d)]) entries).
      destruct (wallet_contracts contracts rest (listed ++ [(a, d)]) entries)
        as [[listed' entries']|f].
      * destruct IH as (He & Hl & Hall). split; [exact He|]. split.
        -- rewrite Hl, map_app, <- app_assoc. reflexivity.
        -- intros a' d' [<-|Ha'] Hd'; [congruence|exact (Hall a' d' Ha' Hd')].
      * destruct IH as (Hf & a' & d' & Ha' & Hd' & Hfin). split; [exact Hf|].
        exists a', d'. repeat split; [right; exact Ha'|exact Hd'|exact Hfin].
    + split; [reflexivity|]. exists a, d. repeat split; [left; reflexivity|exact Hd|exact Ef].
Qed.

(** X30.  The wallet page after the two updaters have run.  Whatever the
    indices hold for the wallet can be followed: no index is out of range
    in [app.nodes] and no listed contract is missing from [app.contracts].
    If every contract listed for the wallet is finalized, the reply holds
    the wallet's service nodes in the order of the index, one entry of
    ["nodes"] for each, and the listed contracts.  If one of them is not
    finalized, no reply is made: building its entry calls [get] on the
    list of contributions and raises [AttributeError]. *)
Theorem get_nodes_for_wallet_after_updates
    (to_checksum_address_text : str -> option str)
    (nodes : list service_node) (contracts : list contract_status)
    (node_contributors : PyDict.dict (list Z))
    (stored : PyDict.dict contract_status)
    (contributors_index : PyDict.dict (list str))
    (eth_wal wallet : str) :
  update_service_nodes to_checksum_address_text nodes = Return node_contributors ->
  update_contract_statuses to_checksum_address_text contracts
  = Ok (stored, contributors_index) ->
  to_checksum_address_text eth_wal = Some wallet ->
  let app := {| app_nodes := nodes;
                app_node_contributors := Some node_contributors;
                app_contracts := stored;
                app_contributors := Some contributors_index |} in
  ((forall address details,
       In address (PyDict.list_at wallet contributors_index) ->
       PyDict.get address stored = Some details -> finalized details = true) ->
   exists reply,
     get_nodes_for_wallet to_checksum_address_text app None (Some eth_wal)
     = Ok reply
     /\ map Some (reply_service_nodes reply)
        = map (fun i => nth_error nodes (Z.to_nat i))
            (PyDict.list_at wallet node_contributors)
     /\ map of_node (reply_nodes reply) = reply_service_nodes reply
     /\ map fst (reply_contracts reply)
        = PyDict.list_at wallet contributors_index)
  /\ ((exists address details,
          In address (PyDict.list_at wallet contributors_index)
          /\ PyDict.get address stored = Some details
          /\ finalized details = false) ->
      get_nodes_for_wallet to_checksum_address_text app None (Some eth_wal)
      = Fault AttributeError).
Proof.
  intros Hnodes Hcontracts Hfmt state0. subst state0.
  assert (exists sns entries,
             (if PyDict.mem wallet node_contributors
              then wallet_service_nodes nodes wallet
                     (PyDict.list_at wallet node_contributors) [] []
              else Ok ([], []))
             = Ok (sns, entries)
             /\ map Some sns
                = map (fun i => nth_error nodes (Z.to_nat i))
                    (PyDict.list_at wallet node_contributors)
             /\ map of_node entries = sns) as (sns & entries & Hsn & Hsns & Hent).
  { destruct (PyDict.mem wallet node_contributors) eqn:Em.
    - destruct (wallet_service_nodes_spec nodes wallet
                  (PyDict.list_at wallet node_contributors)) with (sns := @nil service_node)
        (entries := @nil wallet_node) as (picked & Hp & H).
      + intros i Hi. unfold update_service_nodes in Hnodes.
        apply (index_nodes_spec _ _ _ _ _ Hnodes wallet i) in Hi.
        cbn [PyDict.list_at PyDict.get In] in Hi.
        destruct Hi as [[]|(n & node & a & Hn & -> & _)].
        split; [lia|]. exists node. rewrite Z.add_0_l, Nat2Z.id. exact Hn.
      + cbn [app] in H. rewrite H. eexists _, _. split; [reflexivity|].
        split; [exact Hp|]. rewrite map_map. cbn [of_node]. apply map_id.
    - exists [], []. split; [reflexivity|]. split; [|reflexivity].
      unfold PyDict.list_at. unfold PyDict.mem in Em.
      destruct (PyDict.get wallet node_contributors); [discriminate|reflexivity]. }
  assert (forall a, In a (PyDict.list_at wallet contributors_index) ->
                    exists d, PyDict.get a stored = Some d) as Hkeys.
  { intros a Ha. unfold update_contract_statuses in Hcontracts.
    destruct (index_contracts_sound _ _ _ _ _ _ Hcontracts) as (S & _ & _ & M).
    destruct (S wallet a Ha) as [[]|(c & a' & Hc & Hca & _)].
    assert (PyDict.mem a stored = true) as Hm.
    { apply M. right. exists c. split; assumption. }
    unfold PyDict.mem in Hm. destruct (PyDict.get a stored); [eauto|discriminate]. }
  pose proof (wallet_contracts_spec stored
                (PyDict.list_at wallet contributors_index) Hkeys [] entries) as Hwc.
  assert ((if PyDict.mem wallet contributors_index
           then wallet_contracts stored
                  (PyDict.list_at wallet contributors_index) [] entries
           else Ok ([], entries))
          = wallet_contracts stored
              (PyDict.list_at wallet contributors_index) [] entries) as Hmem.
  { destruct (PyDict.mem wallet contributors_index) eqn:Em; [reflexivity|].
    unfold PyDict.list_at. unfold PyDict.mem in Em.
    destruct (PyDict.get wallet contributors_index); [discriminate|reflexivity]. }
  unfold get_nodes_for_wallet, eth_format_text. rewrite Hfmt.
  cbn [app_node_contributors app_nodes app_contributors app_contracts].
  rewrite Hsn, Hmem.
  destruct (wallet_contracts stored (PyDict.list_at wallet contributors_index)
              [] entries) as [[listed entries']|f].
  - destruct Hwc as (-> & Hl & Hall). split.
    + intros _. eexists. split; [reflexivity|].
      cbn [reply_service_nodes reply_nodes reply_contracts]. auto.
    + intros (a & d & Ha & Hd & Hfin). rewrite (Hall a d Ha Hd) in Hfin.
      discriminate.
  - destruct Hwc as (-> & a & d & Ha & Hd & Hfin). split; [|reflexivity].
    intros Hall. rewrite (Hall a d Ha Hd) in Hfin. discriminate.
Qed.

Lemma get_nodes_for_wallet_after_updates_witness :
  let app := {| app_nodes := IndexSample.nodes;
                app_node_contributors := Some IndexSample.node_index;
                app_contracts := IndexSample.contract_details;
                app_contributors := Some IndexSample.contract_index |} in
  ((forall address details,
       In address (PyDict.list_at IndexSample.wallet_a IndexSample.contract_index) ->
       PyDict.get address IndexSample.contract_details = Some details ->
       finalized details = true) ->
   exists reply,
     get_nodes_for_wallet IndexSample.prefix_checksum app None
       (Some IndexSample.wallet_a)
     = Ok reply
     /\ map Some (reply_service_nodes reply)
        = map (fun i => nth_error IndexSample.nodes (Z.to_nat i))
            (PyDict.list_at IndexSample.wallet_a IndexSample.node_index)
     /\ map of_node (reply_nodes reply) = reply_service_nodes reply
     /\ map fst (reply_contracts reply)
        = PyDict.list_at IndexSample.wallet_a IndexSample.contract_index)
  /\ ((exists address details,
          In address (PyDict.list_at IndexSample.wallet_a IndexSample.contract_index)
          /\ PyDict.get address IndexSample.contract_details = Some details
          /\ finalized details = false) ->
      get_nodes_for_wallet IndexSample.prefix_checksum app None
        (Some IndexSample.wallet_a)
      = Fault AttributeError).
Proof.
  apply (get_nodes_for_wallet_after_updates IndexSample.prefix_checksum
           IndexSample.nodes IndexSample.contracts IndexSample.node_index
           IndexSample.contract_details IndexSample.contract_index
           IndexSample.wallet_a IndexSample.wallet_a).
  - vm_compute. reflexivity.
  - vm_compute. reflexivity.
  - vm_compute. reflexivity.
Defined.
